(** * TracesCleaner: the watermark detector and cleaner

    A shallow embedding of [js/watermark-detector.js].  JavaScript strings
    are sequences of UTF-16 code units; every scan and every regular
    expression of the source works on code units (no regex carries the
    [u] flag), and so does this development. *)

From Stdlib Require Import String Ascii ZArith List Bool Lia.
Import ListNotations.
Open Scope Z_scope.

(** ** Strings *)

Definition code_unit := Z.
Definition jsstring := list code_unit.

(** An ASCII literal of the source as a sequence of code units. *)
Definition lit (s : string) : jsstring :=
  map (fun a => Z.of_N (N_of_ascii a)) (list_ascii_of_string s).

Definition in_range (lo hi c : code_unit) : bool := (lo <=? c) && (c <=? hi).

Definition is_high_surrogate (c : code_unit) : bool := in_range 0xD800 0xDBFF c.
Definition is_low_surrogate (c : code_unit) : bool := in_range 0xDC00 0xDFFF c.
Definition is_surrogate (c : code_unit) : bool := in_range 0xD800 0xDFFF c.

(** Well-formed UTF-16: every high surrogate is immediately followed by a
    low surrogate and every low surrogate immediately preceded by a high one. *)
Fixpoint well_formed (s : jsstring) : bool :=
  match s with
  | [] => true
  | c :: s' =>
      if is_high_surrogate c then
        match s' with
        | d :: s'' => is_low_surrogate d && well_formed s''
        | [] => false
        end
      else negb (is_low_surrogate c) && well_formed s'
  end.

(** ** The invisible character registry *)

Inductive char_category :=
  | formatting | zero_width | direction | separator | joiner | math_invisible
  | bom | format | variation | annotation | filler | space | control.

Definition category_eqb (a b : char_category) : bool :=
  match a, b with
  | formatting, formatting | zero_width, zero_width | direction, direction
  | separator, separator | joiner, joiner | math_invisible, math_invisible
  | bom, bom | format, format | variation, variation
  | annotation, annotation | filler, filler | space, space
  | control, control => true
  | _, _ => false
  end.

Record char_info := { name : string; code : string; category : char_category }.

Definition INVISIBLE_CHARS : list (code_unit * char_info) := [
    (0x0009, {| name := "Tab"; code := "U+0009"; category := formatting |});
    (0x000A, {| name := "Line Feed"; code := "U+000A"; category := formatting |});
    (0x000C, {| name := "Form Feed"; code := "U+000C"; category := formatting |});
    (0x000D, {| name := "Carriage Return"; code := "U+000D"; category := formatting |});
    (0x200B, {| name := "Zero-Width Space"; code := "U+200B"; category := zero_width |});
    (0x200C, {| name := "Zero-Width Non-Joiner"; code := "U+200C"; category := zero_width |});
    (0x200D, {| name := "Zero-Width Joiner"; code := "U+200D"; category := zero_width |});
    (0x200E, {| name := "Left-to-Right Mark"; code := "U+200E"; category := direction |});
    (0x200F, {| name := "Right-to-Left Mark"; code := "U+200F"; category := direction |});
    (0x2028, {| name := "Line Separator"; code := "U+2028"; category := separator |});
    (0x2029, {| name := "Paragraph Separator"; code := "U+2029"; category := separator |});
    (0x202A, {| name := "Left-to-Right Embedding"; code := "U+202A"; category := direction |});
    (0x202B, {| name := "Right-to-Left Embedding"; code := "U+202B"; category := direction |});
    (0x202C, {| name := "Pop Directional Formatting"; code := "U+202C"; category := direction |});
    (0x202D, {| name := "Left-to-Right Override"; code := "U+202D"; category := direction |});
    (0x202E, {| name := "Right-to-Left Override"; code := "U+202E"; category := direction |});
    (0x2060, {| name := "Word Joiner"; code := "U+2060"; category := joiner |});
    (0x2061, {| name := "Function Application"; code := "U+2061"; category := math_invisible |});
    (0x2062, {| name := "Invisible Times"; code := "U+2062"; category := math_invisible |});
    (0x2063, {| name := "Invisible Separator"; code := "U+2063"; category := math_invisible |});
    (0x2064, {| name := "Invisible Plus"; code := "U+2064"; category := math_invisible |});
    (0xFEFF, {| name := "Byte Order Mark (BOM)"; code := "U+FEFF"; category := bom |});
    (0x00AD, {| name := "Soft Hyphen"; code := "U+00AD"; category := format |});
    (0xFE00, {| name := "Variation Selector-1"; code := "U+FE00"; category := variation |});
    (0xFE01, {| name := "Variation Selector-2"; code := "U+FE01"; category := variation |});
    (0xFE02, {| name := "Variation Selector-3"; code := "U+FE02"; category := variation |});
    (0xFE03, {| name := "Variation Selector-4"; code := "U+FE03"; category := variation |});
    (0xFE04, {| name := "Variation Selector-5"; code := "U+FE04"; category := variation |});
    (0xFE05, {| name := "Variation Selector-6"; code := "U+FE05"; category := variation |});
    (0xFE06, {| name := "Variation Selector-7"; code := "U+FE06"; category := variation |});
    (0xFE07, {| name := "Variation Selector-8"; code := "U+FE07"; category := variation |});
    (0xFE08, {| name := "Variation Selector-9"; code := "U+FE08"; category := variation |});
    (0xFE09, {| name := "Variation Selector-10"; code := "U+FE09"; category := variation |});
    (0xFE0A, {| name := "Variation Selector-11"; code := "U+FE0A"; category := variation |});
    (0xFE0B, {| name := "Variation Selector-12"; code := "U+FE0B"; category := variation |});
    (0xFE0C, {| name := "Variation Selector-13"; code := "U+FE0C"; category := variation |});
    (0xFE0D, {| name := "Variation Selector-14"; code := "U+FE0D"; category := variation |});
    (0xFE0E, {| name := "Variation Selector-15"; code := "U+FE0E"; category := variation |});
    (0xFE0F, {| name := "Variation Selector-16"; code := "U+FE0F"; category := variation |});
    (0xFFF9, {| name := "Interlinear Annotation Anchor"; code := "U+FFF9"; category := annotation |});
    (0xFFFA, {| name := "Interlinear Annotation Separator"; code := "U+FFFA"; category := annotation |});
    (0xFFFB, {| name := "Interlinear Annotation Terminator"; code := "U+FFFB"; category := annotation |});
    (0x061C, {| name := "Arabic Letter Mark"; code := "U+061C"; category := direction |});
    (0x2066, {| name := "Left-to-Right Isolate"; code := "U+2066"; category := direction |});
    (0x2067, {| name := "Right-to-Left Isolate"; code := "U+2067"; category := direction |});
    (0x2068, {| name := "First Strong Isolate"; code := "U+2068"; category := direction |});
    (0x2069, {| name := "Pop Directional Isolate"; code := "U+2069"; category := direction |});
    (0x180E, {| name := "Mongolian Vowel Separator"; code := "U+180E"; category := format |});
    (0x115F, {| name := "Hangul Choseong Filler"; code := "U+115F"; category := filler |});
    (0x1160, {| name := "Hangul Jungseong Filler"; code := "U+1160"; category := filler |});
    (0x3164, {| name := "Hangul Filler"; code := "U+3164"; category := filler |});
    (0xFFA0, {| name := "Halfwidth Hangul Filler"; code := "U+FFA0"; category := filler |});
    (0xFFFC, {| name := "Object Replacement Character"; code := "U+FFFC"; category := format |});
    (0xFFFD, {| name := "Replacement Character"; code := "U+FFFD"; category := format |});
    (0x2011, {| name := "Non-Breaking Hyphen"; code := "U+2011"; category := format |});
    (0x200A, {| name := "Hair Space"; code := "U+200A"; category := space |});
    (0x2009, {| name := "Thin Space"; code := "U+2009"; category := space |});
    (0x2008, {| name := "Punctuation Space"; code := "U+2008"; category := space |});
    (0x2007, {| name := "Figure Space"; code := "U+2007"; category := space |});
    (0x2006, {| name := "Six-Per-Em Space"; code := "U+2006"; category := space |});
    (0x2005, {| name := "Four-Per-Em Space"; code := "U+2005"; category := space |});
    (0x2004, {| name := "Three-Per-Em Space"; code := "U+2004"; category := space |});
    (0x2003, {| name := "Em Space"; code := "U+2003"; category := space |});
    (0x2002, {| name := "En Space"; code := "U+2002"; category := space |});
    (0x2001, {| name := "Em Quad"; code := "U+2001"; category := space |});
    (0x2000, {| name := "En Quad"; code := "U+2000"; category := space |});
    (0x00A0, {| name := "Non-Breaking Space"; code := "U+00A0"; category := space |});
    (0x205F, {| name := "Medium Mathematical Space"; code := "U+205F"; category := space |});
    (0x3000, {| name := "Ideographic Space"; code := "U+3000"; category := space |})
  ].

(** Property lookup [obj[ch]] on an object literal whose keys are single
    code units: [None] stands for [undefined]. *)
Fixpoint lookup {A} (ch : code_unit) (obj : list (code_unit * A)) : option A :=
  match obj with
  | [] => None
  | (k, v) :: rest => if k =? ch then Some v else lookup ch rest
  end.

Definition FORMATTING_CATEGORIES : list char_category := [formatting].
Definition SPACE_CATEGORIES : list char_category := [space].

Definition set_has (s : list char_category) (c : char_category) : bool :=
  existsb (category_eqb c) s.

Definition STRIPPABLE_CHARS : list code_unit :=
  map fst
    (filter (fun kv => negb (category_eqb (category (snd kv)) formatting))
       INVISIBLE_CHARS).

(** The generic C0/C1 control test written out in [detect] and [revealHTML],
    and spelled as ranges in [INVISIBLE_REGEX]. *)
Definition is_control_code (c : code_unit) : bool :=
  in_range 0 8 c || (c =? 0x0B) || in_range 0x0E 0x1F c || (c =? 0x7F)
  || in_range 0x80 0x9F c.

(** ** The homoglyph table *)

Definition HOMOGLYPHS : list (code_unit * code_unit) := [
    (0x0410, 65); (0x0412, 66); (0x0421, 67); (0x0415, 69); (0x041D, 72);
    (0x041A, 75); (0x041C, 77); (0x041E, 79); (0x0420, 80); (0x0422, 84);
    (0x0425, 88); (0x0430, 97); (0x0435, 101); (0x043E, 111); (0x0440, 112);
    (0x0441, 99); (0x0443, 121); (0x0445, 120); (0x0456, 105); (0x0458, 106);
    (0x04BB, 104); (0x0501, 100); (0x0391, 65); (0x0392, 66); (0x0395, 69);
    (0x0396, 90); (0x0397, 72); (0x0399, 73); (0x039A, 75); (0x039C, 77);
    (0x039D, 78); (0x039F, 79); (0x03A1, 80); (0x03A4, 84); (0x03A5, 89);
    (0x03A7, 88); (0x03BF, 111); (0xFF21, 65); (0xFF22, 66); (0xFF23, 67);
    (0xFF24, 68); (0xFF25, 69); (0xFF26, 70); (0xFF27, 71); (0xFF28, 72);
    (0xFF29, 73); (0xFF2A, 74); (0xFF2B, 75); (0xFF2C, 76); (0xFF2D, 77);
    (0xFF2E, 78); (0xFF2F, 79); (0xFF30, 80); (0xFF31, 81); (0xFF32, 82);
    (0xFF33, 83); (0xFF34, 84); (0xFF35, 85); (0xFF36, 86); (0xFF37, 87);
    (0xFF38, 88); (0xFF39, 89); (0xFF3A, 90); (0xFF41, 97); (0xFF42, 98);
    (0xFF43, 99); (0xFF44, 100); (0xFF45, 101); (0xFF46, 102); (0xFF47, 103);
    (0xFF48, 104); (0xFF49, 105); (0xFF4A, 106); (0xFF4B, 107); (0xFF4C, 108);
    (0xFF4D, 109); (0xFF4E, 110); (0xFF4F, 111); (0xFF50, 112); (0xFF51, 113);
    (0xFF52, 114); (0xFF53, 115); (0xFF54, 116); (0xFF55, 117); (0xFF56, 118);
    (0xFF57, 119); (0xFF58, 120); (0xFF59, 121); (0xFF5A, 122); (0x2010, 45);
    (0x2011, 45); (0x2012, 45); (0x2013, 45); (0x2014, 45); (0x2018, 39);
    (0x2019, 39); (0x201C, 34); (0x201D, 34); (0x2032, 39); (0x2033, 34);
    (0x00A0, 32); (0x2000, 32); (0x2001, 32); (0x2002, 32); (0x2003, 32);
    (0x2004, 32); (0x2005, 32); (0x2006, 32); (0x2007, 32); (0x2008, 32);
    (0x2009, 32); (0x200A, 32); (0x205F, 32); (0x3000, 32)
  ].

(** ** Global regular-expression replacement

    A pattern is given by its matcher: on the remainder of the subject at the
    current index it returns the length of the match starting there.  As in
    [String.prototype.replace] with a [g] regex, the subject is scanned left
    to right, a match is replaced by the callback's result and the scan
    resumes after the match ([skip] counts the matched code units still to be
    passed over).  No pattern of the source matches the empty string. *)

Definition matcher := jsstring -> option nat.

Fixpoint replace_from (m : matcher) (f : jsstring -> jsstring)
    (skip : nat) (s : jsstring) : jsstring :=
  match s with
  | [] => []
  | c :: s' =>
      match skip with
      | S k => replace_from m f k s'
      | O =>
          match m s with
          | Some (S n) => f (firstn (S n) s) ++ replace_from m f n s'
          | _ => c :: replace_from m f O s'
          end
      end
  end.

Definition replace_all (m : matcher) (f : jsstring -> jsstring)
    (s : jsstring) : jsstring :=
  replace_from m f O s.

Definition remove_all (m : matcher) (s : jsstring) : jsstring :=
  replace_all m (fun _ => []) s.

(** A character class [[...]]. *)
Definition class (p : code_unit -> bool) : matcher :=
  fun s => match s with
           | c :: _ => if p c then Some 1%nat else None
           | [] => None
           end.

(** Length of the longest prefix whose code units all satisfy [p]. *)
Fixpoint run_length (p : code_unit -> bool) (s : jsstring) : nat :=
  match s with
  | c :: s' => if p c then S (run_length p s') else O
  | [] => O
  end.

(** A literal, compared case-insensitively when [ci] is set (flag [i]
    without [u]: only the ASCII letters of the literals used here have a
    second case form). *)
Definition upper (c : code_unit) : code_unit :=
  if in_range 0x61 0x7A c then c - 32 else c.

Fixpoint starts_with (ci : bool) (l s : jsstring) : bool :=
  match l, s with
  | [], _ => true
  | a :: l', c :: s' =>
      (if ci then upper a =? upper c else a =? c) && starts_with ci l' s'
  | _ :: _, [] => false
  end.

Definition literal (ci : bool) (l : jsstring) : matcher :=
  fun s => if starts_with ci l s then Some (length l) else None.

(** [INVISIBLE_REGEX]: the strippable registry characters and the control
    ranges, one character class. *)
Definition in_INVISIBLE_REGEX (c : code_unit) : bool :=
  existsb (Z.eqb c) STRIPPABLE_CHARS || in_range 0x0000 0x0008 c
  || (c =? 0x000B) || in_range 0x000E 0x001F c || (c =? 0x007F)
  || in_range 0x0080 0x009F c.

Definition INVISIBLE_REGEX : matcher := class in_INVISIBLE_REGEX.

(** [SUPPLEMENTARY_REGEX]: [\uDB40] followed by [\uDC01-\uDC7F] or by
    [\uDD00-\uDDEF]. *)
Definition SUPPLEMENTARY_REGEX : matcher :=
  fun s => match s with
           | h :: l :: _ =>
               if (h =? 0xDB40) && in_range 0xDC01 0xDC7F l then Some 2%nat
               else if (h =? 0xDB40) && in_range 0xDD00 0xDDEF l then Some 2%nat
               else None
           | _ => None
           end.

Definition in_HOMOGLYPH_REGEX (c : code_unit) : bool :=
  existsb (Z.eqb c) (map fst HOMOGLYPHS).

Definition HOMOGLYPH_REGEX : matcher := class in_HOMOGLYPH_REGEX.

(** [/<[^>]*>/]: an opening angle bracket up to the first closing one. *)
Definition TAG_REGEX : matcher :=
  fun s => match s with
           | c :: s' =>
               if c =? 0x3C then
                 let n := run_length (fun d => negb (d =? 0x3E)) s' in
                 match skipn n s' with
                 | _ :: _ => Some (S (S n))
                 | [] => None
                 end
               else None
           | [] => None
           end.

Definition is_blank (c : code_unit) : bool := (c =? 0x20) || (c =? 0x09).

(** LineTerminator of the language: with flag [m], [$] stands before one of
    these or at the end of the subject. *)
Definition is_line_terminator (c : code_unit) : bool :=
  (c =? 0x0A) || (c =? 0x0D) || (c =? 0x2028) || (c =? 0x2029).

Definition at_line_end (s : jsstring) : bool :=
  match s with
  | [] => true
  | c :: _ => is_line_terminator c
  end.

(** [/[ \t]+$/m]: the greedy run of blanks, accepted when a line end follows
    it; a shorter run is followed by a blank, so backtracking never helps. *)
Definition TRAILING_REGEX : matcher :=
  fun s => let n := run_length is_blank s in
           if (0 <? n)%nat && at_line_end (skipn n s) then Some n else None.

(** [/ {2,}/]: a greedy run of at least two spaces. *)
Definition SPACES_REGEX : matcher :=
  fun s => let n := run_length (Z.eqb 0x20) s in
           if (2 <=? n)%nat then Some n else None.

(** ** Core API: homoglyph exemption *)

Definition isExpectedChar (text : jsstring) (index : nat) (ch : code_unit)
    : bool :=
  let code := ch in
  (code =? 0x00A0) || (code =? 0x2018) || (code =? 0x2019)
  || (code =? 0x201C) || (code =? 0x201D) || (code =? 0x2013)
  || (code =? 0x2014).

(** ** Core API: clean *)

(** An options object: [None] is a missing key. *)
Record clean_options := {
  normalize : option bool;
  fixHomoglyphs : option bool;
  stripSpaces : option bool;
  stripHTML : option bool
}.

Definition truthy (v : option bool) : bool :=
  match v with Some true => true | _ => false end.

Definition not_false (v : option bool) : bool :=
  match v with Some false => false | _ => true end.

Definition default_options : clean_options :=
  {| normalize := None; fixHomoglyphs := None;
     stripSpaces := None; stripHTML := None |}.

Definition strip_html (result : jsstring) : jsstring :=
  let result := remove_all TAG_REGEX result in
  let result := replace_all (literal true (lit "&nbsp;")) (fun _ => lit " ") result in
  let result := replace_all (literal true (lit "&amp;")) (fun _ => lit "&") result in
  let result := replace_all (literal true (lit "&lt;")) (fun _ => lit "<") result in
  let result := replace_all (literal true (lit "&gt;")) (fun _ => lit ">") result in
  let result := replace_all (literal true (lit "&quot;")) (fun _ => [0x22]) result in
  replace_all (literal true (lit "&#39;")) (fun _ => lit "'") result.

(** The callback of the homoglyph pass; [result] is the string the pass
    runs on, handed to [isExpectedChar] with index 0. *)
Definition fix_homoglyph (result : jsstring) (matched : jsstring) : jsstring :=
  match matched with
  | [ch] =>
      if isExpectedChar result 0 ch then [ch]
      else match lookup ch HOMOGLYPHS with
           | Some r => [r]
           | None => [ch]
           end
  | _ => matched
  end.

Section Clean.

(** [String.prototype.normalize('NFC')] belongs to the platform, not to
    the repository: it is a parameter of the pipeline. *)
Variable normalize_NFC : jsstring -> jsstring.

(** The part of [clean] before normalization. *)
Definition clean_strip (text : jsstring) (options : clean_options) : jsstring :=
  let result := text in
  let result := if truthy (stripHTML options) then strip_html result else result in
  let result := remove_all INVISIBLE_REGEX result in
  remove_all SUPPLEMENTARY_REGEX result.

(** The part of [clean] after normalization. *)
Definition clean_finish (result : jsstring) (options : clean_options) : jsstring :=
  let result :=
    if truthy (fixHomoglyphs options)
    then replace_all HOMOGLYPH_REGEX (fix_homoglyph result) result
    else result in
  let result := remove_all TRAILING_REGEX result in
  replace_all SPACES_REGEX (fun _ => lit " ") result.

Definition clean (text : jsstring) (options : clean_options) : jsstring :=
  let result := clean_strip text options in
  let result :=
    if not_false (normalize options) then normalize_NFC result else result in
  clean_finish result options.

End Clean.

(** ** Completions

    A call either returns or throws.  The only operations of the engine that
    can throw on string input are property accesses on [undefined]: the
    value of [Map.prototype.get] on a missing key. *)

Inductive js_error := TypeError | SyntaxError.

Inductive completion (A : Type) :=
  | Normal (a : A)
  | Throw (e : js_error).
Arguments Normal {A} a.
Arguments Throw {A} e.

Definition bind {A B} (c : completion A) (k : A -> completion B)
    : completion B :=
  match c with
  | Normal a => k a
  | Throw e => Throw e
  end.

Notation "x <- c ;; k" := (bind c (fun x => k))
  (at level 61, c at next level, right associativity).

(** ** [Map]: keys in insertion order *)

Section JsMap.
Context {V : Type}.

Definition map_get (k : code_unit) (m : list (code_unit * V)) : option V :=
  lookup k m.

Definition map_has (k : code_unit) (m : list (code_unit * V)) : bool :=
  match map_get k m with Some _ => true | None => false end.

(** [set] keeps the position of a key already present; it also stands for
    a mutation of the entry object stored under [k]. *)
Fixpoint map_set (k : code_unit) (v : V) (m : list (code_unit * V))
    : list (code_unit * V) :=
  match m with
  | [] => [(k, v)]
  | (k', v') :: rest =>
      if k' =? k then (k, v) :: rest else (k', v') :: map_set k v rest
  end.
End JsMap.

(** ** Code point labels: ['U+' + code.toString(16).toUpperCase().padStart(4, '0')] *)

Definition hex_digit (d : Z) : ascii :=
  if d <? 10 then ascii_of_N (Z.to_N (48 + d))
  else ascii_of_N (Z.to_N (97 + (d - 10))).

Fixpoint digits16 (fuel : nat) (n : Z) (acc : string) : string :=
  match fuel with
  | O => acc
  | S k =>
      let acc' := String (hex_digit (n mod 16)) acc in
      if n / 16 =? 0 then acc' else digits16 k (n / 16) acc'
  end.

Definition toString16 (n : Z) : string :=
  digits16 (S (Z.to_nat (Z.log2 n))) n EmptyString.

Definition upper_ascii (a : ascii) : ascii :=
  ascii_of_N (Z.to_N (upper (Z.of_N (N_of_ascii a)))).

Fixpoint toUpperCase (s : string) : string :=
  match s with
  | EmptyString => EmptyString
  | String a s' => String (upper_ascii a) (toUpperCase s')
  end.

Fixpoint repeat_char (a : ascii) (n : nat) : string :=
  match n with
  | O => EmptyString
  | S k => String a (repeat_char a k)
  end.

Definition padStart (n : nat) (fill : ascii) (s : string) : string :=
  (repeat_char fill (n - String.length s) ++ s)%string.

Definition hex_label (code : Z) : string :=
  ("U+" ++ padStart 4 "0"%char (toUpperCase (toString16 code)))%string.

(** ** Core API: detect *)

Module Detect.
Record options := { includeFormatting : option bool }.
Record entry := { info : char_info; count : nat; positions : list nat }.
Record result := { total : nat; chars : list (code_unit * entry) }.
End Detect.

(** The bookkeeping both branches of [detect] perform on a hit: create the
    entry on first sight, fetch it, bump its count and push the position. *)
Definition detect_record (ch : code_unit) (i : nat) (info : char_info)
    (chars : list (code_unit * Detect.entry))
    : completion (list (code_unit * Detect.entry)) :=
  let chars :=
    if negb (map_has ch chars)
    then map_set ch {| Detect.info := info; Detect.count := 0;
                       Detect.positions := [] |} chars
    else chars in
  match map_get ch chars with
  | None => Throw TypeError
  | Some entry =>
      Normal (map_set ch
                {| Detect.info := Detect.info entry;
                   Detect.count := S (Detect.count entry);
                   Detect.positions := Detect.positions entry ++ [i] |}
                chars)
  end.

Fixpoint detect_loop (includeFormatting : bool) (i : nat) (text : jsstring)
    (total : nat) (chars : list (code_unit * Detect.entry))
    : completion Detect.result :=
  match text with
  | [] => Normal {| Detect.total := total; Detect.chars := chars |}
  | ch :: rest =>
      match lookup ch INVISIBLE_CHARS with
      | Some info =>
          if negb includeFormatting
             && set_has FORMATTING_CATEGORIES (category info)
          then detect_loop includeFormatting (S i) rest total chars
          else
            chars' <- detect_record ch i info chars ;;
            detect_loop includeFormatting (S i) rest (S total) chars'
      | None =>
          let code := ch in
          if is_control_code code then
            let hex := hex_label code in
            let controlInfo :=
              {| name := "Control Character"; code := hex;
                 category := control |} in
            chars' <- detect_record ch i controlInfo chars ;;
            detect_loop includeFormatting (S i) rest (S total) chars'
          else detect_loop includeFormatting (S i) rest total chars
      end
  end.

Definition detect (text : jsstring) (options : Detect.options)
    : completion Detect.result :=
  let includeFormatting := truthy (Detect.includeFormatting options) in
  detect_loop includeFormatting 0 text 0 [].

(** ** Core API: detectHomoglyphs *)

Module Homoglyph.
Record entry := {
  original : code_unit; code : string; replacement : code_unit; count : nat
}.
Record result := { total : nat; chars : list (code_unit * entry) }.
End Homoglyph.

Fixpoint detectHomoglyphs_loop (whole : jsstring) (i : nat) (text : jsstring)
    (total : nat) (chars : list (code_unit * Homoglyph.entry))
    : completion Homoglyph.result :=
  match text with
  | [] => Normal {| Homoglyph.total := total; Homoglyph.chars := chars |}
  | ch :: rest =>
      match lookup ch HOMOGLYPHS with
      | Some replacement =>
          if negb (isExpectedChar whole i ch) then
            let chars :=
              if negb (map_has ch chars)
              then map_set ch
                     {| Homoglyph.original := ch;
                        Homoglyph.code := hex_label ch;
                        Homoglyph.replacement := replacement;
                        Homoglyph.count := 0 |} chars
              else chars in
            match map_get ch chars with
            | None => Throw TypeError
            | Some e =>
                detectHomoglyphs_loop whole (S i) rest (S total)
                  (map_set ch
                     {| Homoglyph.original := Homoglyph.original e;
                        Homoglyph.code := Homoglyph.code e;
                        Homoglyph.replacement := Homoglyph.replacement e;
                        Homoglyph.count := S (Homoglyph.count e) |} chars)
            end
          else detectHomoglyphs_loop whole (S i) rest total chars
      | None => detectHomoglyphs_loop whole (S i) rest total chars
      end
  end.

Definition detectHomoglyphs (text : jsstring) : completion Homoglyph.result :=
  detectHomoglyphs_loop text 0 text 0 [].

(** ** Matching with a view on the preceding code unit

    [String.prototype.match] with a [g] regex and [RegExp.prototype.test];
    the matcher also sees the code unit before the current index, for
    the lookbehind assertions. *)

Definition ctx_matcher := option code_unit -> jsstring -> option nat.

Fixpoint match_from (m : ctx_matcher) (prev : option code_unit) (skip : nat)
    (s : jsstring) : list jsstring :=
  match s with
  | [] => []
  | c :: s' =>
      match skip with
      | S k => match_from m (Some c) k s'
      | O =>
          match m prev s with
          | Some (S n) => firstn (S n) s :: match_from m (Some c) n s'
          | _ => match_from m (Some c) O s'
          end
      end
  end.

(** [text.match(re)]: the matches, or [null] when there is none. *)
Definition String_match (m : ctx_matcher) (text : jsstring)
    : option (list jsstring) :=
  match match_from m None O text with
  | [] => None
  | ms => Some ms
  end.

Definition RegExp_test (m : ctx_matcher) (text : jsstring) : bool :=
  match match_from m None O text with
  | [] => false
  | _ => true
  end.

Fixpoint includes (needle text : jsstring) : bool :=
  starts_with false needle text
  || match text with
     | [] => false
     | _ :: rest => includes needle rest
     end.

(** The class [\s]; [\S] is its complement. *)
Definition is_js_whitespace (c : code_unit) : bool :=
  in_range 0x09 0x0D c || (c =? 0x20) || (c =? 0xA0) || (c =? 0x1680)
  || in_range 0x2000 0x200A c || (c =? 0x2028) || (c =? 0x2029)
  || (c =? 0x202F) || (c =? 0x205F) || (c =? 0x3000) || (c =? 0xFEFF).

Definition no_context (m : matcher) : ctx_matcher := fun _ s => m s.

(** [/(?<=\S) {2,}(?=\S)/]: the run of spaces is the whole run, since both
    neighbours must be non-space. *)
Definition DOUBLE_SPACE_REGEX : ctx_matcher :=
  fun prev s =>
    match prev with
    | Some p =>
        if negb (is_js_whitespace p) then
          let n := run_length (Z.eqb 0x20) s in
          match skipn n s with
          | d :: _ =>
              if (2 <=? n)%nat && negb (is_js_whitespace d) then Some n
              else None
          | [] => None
          end
        else None
    | None => None
    end.

(** [/(?<!\r)\n/] *)
Definition BARE_LF_REGEX : ctx_matcher :=
  fun prev s =>
    match s with
    | c :: _ =>
        if (c =? 0x0A)
           && negb (match prev with Some p => p =? 0x0D | None => false end)
        then Some 1%nat else None
    | [] => None
    end.

(** [new RegExp(source, 'g')] for the sources built in
    [detectWhitespaceAnomalies]: a backslash makes the next code unit
    literal, every other code unit stands for itself. *)
Definition is_regexp_special (c : code_unit) : bool :=
  existsb (Z.eqb c) (lit ".*+?^${}()|[]\").

Fixpoint unescape_pattern (src : jsstring) : jsstring :=
  match src with
  | [] => []
  | c :: rest =>
      if c =? 0x5C then
        match rest with
        | d :: rest' => d :: unescape_pattern rest'
        | [] => []
        end
      else c :: unescape_pattern rest
  end.

Definition RegExp_of_source (src : jsstring) : ctx_matcher :=
  no_context (literal false (unescape_pattern src)).

(** ** Core API: detectWhitespaceAnomalies *)

Module Whitespace.
Inductive issue_type :=
  | trailing_space | double_space | mixed_endings | special_space.
Record issue := { type : issue_type; count : nat; description : string }.
Record result := { total : nat; issues : list issue }.
End Whitespace.

Definition spaceChars : list (code_unit * char_info) :=
  filter (fun kv => category_eqb (category (snd kv)) space) INVISIBLE_CHARS.

Fixpoint special_spaces (text : jsstring)
    (entries : list (code_unit * char_info)) (total : nat)
    (issues : list Whitespace.issue) : Whitespace.result :=
  match entries with
  | [] => {| Whitespace.total := total; Whitespace.issues := issues |}
  | (ch, info) :: rest =>
      let regex :=
        RegExp_of_source
          (replace_all (class is_regexp_special) (fun m => 0x5C :: m) [ch]) in
      match String_match regex text with
      | Some matches =>
          special_spaces text rest (total + List.length matches)
            (issues ++
             [{| Whitespace.type := Whitespace.special_space;
                 Whitespace.count := List.length matches;
                 Whitespace.description :=
                   (name info ++ " (" ++ code info ++ ")")%string |}])
      | None => special_spaces text rest total issues
      end
  end.

Definition detectWhitespaceAnomalies (text : jsstring) : Whitespace.result :=
  let issues := [] in
  let total := O in
  (* Trailing spaces *)
  let '(total, issues) :=
    match String_match (no_context TRAILING_REGEX) text with
    | Some trailingMatches =>
        let count := List.length trailingMatches in
        ((total + count)%nat,
         issues ++ [{| Whitespace.type := Whitespace.trailing_space;
                       Whitespace.count := count;
                       Whitespace.description := "Trailing spaces on lines" |}])
    | None => (total, issues)
    end in
  (* Double spaces (not at line start = not indentation) *)
  let '(total, issues) :=
    match String_match DOUBLE_SPACE_REGEX text with
    | Some doubleSpaceMatches =>
        let count := List.length doubleSpaceMatches in
        ((total + count)%nat,
         issues ++ [{| Whitespace.type := Whitespace.double_space;
                       Whitespace.count := count;
                       Whitespace.description := "Multiple consecutive spaces" |}])
    | None => (total, issues)
    end in
  (* Mixed line endings (CRLF and LF) *)
  let hasCRLF := includes [0x0D; 0x0A] text in
  let hasLF := RegExp_test BARE_LF_REGEX text in
  let '(total, issues) :=
    if hasCRLF && hasLF then
      ((total + 1)%nat,
       issues ++ [{| Whitespace.type := Whitespace.mixed_endings;
                     Whitespace.count := 1;
                     Whitespace.description :=
                       "Mixed line endings (CRLF + LF)" |}])
    else (total, issues) in
  (* Non-standard spaces *)
  special_spaces text spaceChars total issues.

(** ** escapeHTML *)

Definition dq : jsstring := [0x22].

Definition escapeHTML (str : jsstring) : jsstring :=
  let str := replace_all (class (Z.eqb 0x26)) (fun _ => lit "&amp;") str in
  let str := replace_all (class (Z.eqb 0x3C)) (fun _ => lit "&lt;") str in
  let str := replace_all (class (Z.eqb 0x3E)) (fun _ => lit "&gt;") str in
  let str := replace_all (class (Z.eqb 0x22)) (fun _ => lit "&quot;") str in
  replace_all (class (Z.eqb 0x27)) (fun _ => lit "&#039;") str.

(** ** Core API: revealHTML *)

Definition visible_span (visibleBuffer : jsstring) : jsstring :=
  lit "<span class=" ++ dq ++ lit "char-visible" ++ dq ++ lit ">"
  ++ escapeHTML visibleBuffer ++ lit "</span>".

Definition annotation_span (cssClass charName label : string) : jsstring :=
  lit "<span class=" ++ dq ++ lit cssClass ++ dq ++ lit " title=" ++ dq
  ++ lit charName ++ lit " (" ++ lit label ++ lit ")" ++ dq ++ lit ">["
  ++ lit label ++ lit "]</span>".

(** Whether the loop of [revealHTML] annotates [ch]. *)
Definition shouldAnnotate (includeFormatting : bool) (ch : code_unit) : bool :=
  let info := lookup ch INVISIBLE_CHARS in
  let isControl := is_control_code ch in
  match info with
  | Some info =>
      if set_has FORMATTING_CATEGORIES (category info)
      then includeFormatting else true
  | None => isControl
  end.

Fixpoint revealHTML_loop (includeFormatting : bool) (text : jsstring)
    (parts : list jsstring) (visibleBuffer : jsstring) : list jsstring :=
  match text with
  | [] =>
      match visibleBuffer with
      | [] => parts
      | _ => parts ++ [visible_span visibleBuffer]
      end
  | ch :: rest =>
      let info := lookup ch INVISIBLE_CHARS in
      let charCode := ch in
      if shouldAnnotate includeFormatting ch then
        (* Flush visible buffer *)
        let parts :=
          match visibleBuffer with
          | [] => parts
          | _ => parts ++ [visible_span visibleBuffer]
          end in
        let label :=
          match info with Some i => code i | None => hex_label charCode end in
        let charName :=
          match info with
          | Some i => name i
          | None => "Control Character"%string
          end in
        let cssClass :=
          match info with
          | Some i =>
              if set_has FORMATTING_CATEGORIES (category i)
              then "char-formatting"%string else "char-hidden"%string
          | None => "char-hidden"%string
          end in
        revealHTML_loop includeFormatting rest
          (parts ++ [annotation_span cssClass charName label]) []
      else
        revealHTML_loop includeFormatting rest parts (visibleBuffer ++ [ch])
  end.

Definition revealHTML (text : jsstring) (options : Detect.options) : jsstring :=
  let includeFormatting := not_false (Detect.includeFormatting options) in
  concat (revealHTML_loop includeFormatting text [] []).

(** ** getCharInfo *)

(** Names every object inherits from [Object.prototype]; a lookup of one of
    them on the registry object finds the inherited (truthy) value. *)
Definition Object_prototype_keys : list string :=
  ["constructor"; "hasOwnProperty"; "isPrototypeOf"; "propertyIsEnumerable";
   "toLocaleString"; "toString"; "valueOf"; "__proto__";
   "__defineGetter__"; "__defineSetter__"; "__lookupGetter__";
   "__lookupSetter__"]%string.

Inductive char_lookup :=
  | Info (i : char_info)
  | Inherited (key : string)
  | Null.

Definition jsstring_eqb (a b : jsstring) : bool :=
  (List.length a =? List.length b)%nat && starts_with false a b.

Definition getCharInfo (ch : jsstring) : char_lookup :=
  match ch with
  | [c] =>
      match lookup c INVISIBLE_CHARS with
      | Some i => Info i
      | None => Null
      end
  | _ =>
      match find (fun k => jsstring_eqb (lit k) ch) Object_prototype_keys with
      | Some k => Inherited k
      | None => Null
      end
  end.

(** ** Core API: inject *)

Module Inject.
Record types := {
  zwsp : option bool; zwnj : option bool;
  bom : option bool; invisSep : option bool
}.
Record result := { text : jsstring; count : nat }.
End Inject.

(** [text.split(/(\s+)/)]: the words and, because of the capture group, the
    whitespace runs between them; a run at either end has an empty word on
    its outer side. *)
Fixpoint split_spaces (word : jsstring) (sep : option jsstring)
    (s : jsstring) : list jsstring :=
  match s with
  | [] =>
      match sep with
      | None => [word]
      | Some sp => [word; sp; []]
      end
  | c :: s' =>
      if is_js_whitespace c then
        split_spaces word
          (Some (match sep with None => [c] | Some sp => sp ++ [c] end)) s'
      else
        match sep with
        | None => split_spaces (word ++ [c]) None s'
        | Some sp => word :: sp :: split_spaces [c] None s'
        end
  end.

(** [str.slice(start, end)] with its index clamping. *)
Definition slice (start stop : Z) (str : jsstring) : jsstring :=
  let len := Z.of_nat (List.length str) in
  let clamp i := if i <? 0 then Z.max (len + i) 0 else Z.min i len in
  let from := clamp start in
  let to := clamp stop in
  firstn (Z.to_nat (to - from)) (skipn (Z.to_nat from) str).

(** *** Numbers

    A non-negative finite Number (IEEE 754 binary64) is [mant * 2 ^ expo]
    with a significand below 2^53; several pairs may stand for one
    Number. *)
Record double := { mant : Z; expo : Z }.

Definition is_double (d : double) : Prop :=
  0 <= mant d < 2 ^ 53 /\ -1074 <= expo d <= 971.

(** [a < b] on Numbers. *)
Definition double_lt (a b : double) : bool :=
  let e := Z.min (expo a) (expo b) in
  mant a * 2 ^ (expo a - e) <? mant b * 2 ^ (expo b - e).

(** The literals [0.6] and [0.3] as Numbers, that is rounded to the
    nearest binary64 (0x1.3333333333333p-1 and 0x1.3333333333333p-2), and
    the Number 1. *)
Definition double_0_6 : double := {| mant := 5404319552844595; expo := -53 |}.
Definition double_0_3 : double := {| mant := 5404319552844595; expo := -54 |}.
Definition double_1 : double := {| mant := 1; expo := 0 |}.

(** Rounding a non-negative integer significand to 53 bits, to nearest
    with ties to even: the rounded significand and the number of low bits
    dropped. *)
Definition round_to_nearest_even (m : Z) : Z * Z :=
  let s := Z.log2 m + 1 - 53 in
  if s <=? 0 then (m, 0)
  else
    let q := m / 2 ^ s in
    let rem := m mod 2 ^ s in
    let half := 2 ^ (s - 1) in
    if (half <? rem) || ((rem =? half) && Z.odd q) then (q + 1, s)
    else (q, s).

(** [d * n] where [n] is a length (lengths are integers below 2^53, hence
    Numbers): the exact product, rounded as the multiplication of two
    Numbers rounds it. *)
Definition double_mul (d : double) (n : Z) : double :=
  let '(m, s) := round_to_nearest_even (mant d * n) in
  {| mant := m; expo := expo d + s |}.

(** [Math.floor], whose result here is an integer below 2^53; adding 1 to
    it and the index arithmetic on lengths are then exact. *)
Definition Math_floor (d : double) : Z :=
  if 0 <=? expo d then mant d * 2 ^ expo d else mant d / 2 ^ (- expo d).

Section Inject.

(** [Math.random]: the k-th call of a run returns the Number
    [Math_random k]. *)
Variable Math_random : nat -> double.

(** [chars[Math.floor(r * chars.length)]], [undefined] out of range;
    appended to a string, [undefined] reads "undefined". *)
Definition pick (chars : list jsstring) (r : double) : jsstring :=
  let k := Math_floor (double_mul r (Z.of_nat (List.length chars))) in
  if k <? 0 then lit "undefined"
  else nth (Z.to_nat k) chars (lit "undefined").

Fixpoint inject_loop (chars words : list jsstring) (result : jsstring)
    (count calls : nat) : Inject.result :=
  match words with
  | [] => {| Inject.text := result; Inject.count := count |}
  | w :: rest =>
      let result := result ++ w in
      (* between words *)
      let '(result, count, calls) :=
        match rest with
        | _ :: _ =>
            if double_lt (Math_random calls) double_0_6 then
              let char := pick chars (Math_random (S calls)) in
              (result ++ char, S count, S (S calls))
            else (result, count, S calls)
        | [] => (result, count, calls)
        end in
      (* within longer words *)
      let '(result, count, calls) :=
        if (4 <? List.length w)%nat then
          if double_lt (Math_random calls) double_0_3 then
            let wlen := Z.of_nat (List.length w) in
            let pos :=
              Math_floor (double_mul (Math_random (S calls)) (wlen - 2))
              + 1 in
            let char := pick chars (Math_random (S (S calls))) in
            let rlen := Z.of_nat (List.length result) in
            (slice 0 (rlen - wlen + pos) result ++ char
             ++ slice (rlen - wlen + pos) rlen result,
             S count, S (S (S calls)))
          else (result, count, S calls)
        else (result, count, calls) in
      inject_loop chars rest result count calls
  end.

Definition inject (text : jsstring) (types : Inject.types) : Inject.result :=
  let chars := [] in
  let chars := if truthy (Inject.zwsp types) then chars ++ [[0x200B]] else chars in
  let chars := if truthy (Inject.zwnj types) then chars ++ [[0x200C]] else chars in
  let chars := if truthy (Inject.bom types) then chars ++ [[0xFEFF]] else chars in
  let chars :=
    if truthy (Inject.invisSep types)
    then chars ++ [[0x2061]; [0x2062]; [0x2063]; [0x2064]] else chars in
  match chars with
  | [] => {| Inject.text := text; Inject.count := 0 |}
  | _ =>
      let words := split_spaces [] None text in
      inject_loop chars words [] 0 0
  end.

End Inject.

(** ** Notions used to state the properties *)

(** Number of occurrences of a code unit. *)
Definition occurrences (c : code_unit) (s : jsstring) : nat :=
  count_occ Z.eq_dec s c.

(** A character [detectHomoglyphs] flags: a key of the table outside the
    exemption. *)
Definition flagged (c : code_unit) : bool :=
  in_HOMOGLYPH_REGEX c && negb (isExpectedChar [] 0 c).

Definition exempted : list code_unit :=
  [0x00A0; 0x2018; 0x2019; 0x201C; 0x201D; 0x2013; 0x2014].

(** A Tag character (U+E0001..U+E007F) or a character of the Variation
    Selectors Supplement (U+E0100..U+E01EF), as a surrogate pair. *)
Definition is_supplementary_hidden (hi lo : code_unit) : bool :=
  (hi =? 0xDB40) && (in_range 0xDC01 0xDC7F lo || in_range 0xDD00 0xDDEF lo).

(** No hidden supplementary pair anywhere in the string. *)
Fixpoint supplementary_free (s : jsstring) : bool :=
  match s with
  | hi :: rest =>
      match rest with
      | lo :: _ => negb (is_supplementary_hidden hi lo)
      | [] => true
      end && supplementary_free rest
  | [] => true
  end.

(** Reading an annotated rendering back, for the round trip of
    [revealHTML]: an annotation span runs from its opening tag, whose class
    is [char-hidden] or [char-formatting], through the next [</span>]. *)
Fixpoint index_after (needle s : jsstring) : option nat :=
  if starts_with false needle s then Some (List.length needle)
  else match s with
       | [] => None
       | _ :: s' => option_map S (index_after needle s')
       end.

Definition ANNOTATION_SPAN : matcher :=
  fun s =>
    if starts_with false (lit "<span class=" ++ dq ++ lit "char-hidden" ++ dq) s
       || starts_with false
            (lit "<span class=" ++ dq ++ lit "char-formatting" ++ dq) s
    then index_after (lit "</span>") s
    else None.

(** Undoing [escapeHTML]: each of its five entities back to its character,
    in one pass. *)
Definition entities : list (jsstring * code_unit) :=
  [(lit "&amp;", 0x26); (lit "&lt;", 0x3C); (lit "&gt;", 0x3E);
   (lit "&quot;", 0x22); (lit "&#039;", 0x27)].

Definition entity_at (s : jsstring) : option (jsstring * code_unit) :=
  find (fun e => starts_with false (fst e) s) entities.

Definition ENTITY : matcher :=
  fun s => option_map (fun e => List.length (fst e)) (entity_at s).

Definition unescapeHTML (s : jsstring) : jsstring :=
  replace_all ENTITY
    (fun matched =>
       match entity_at matched with
       | Some e => [snd e]
       | None => matched
       end) s.

(** The visible text of a rendering: annotation spans removed, the tags of
    the remaining spans dropped so that their contents are concatenated,
    escaping undone. *)
Definition visible_text (html : jsstring) : jsstring :=
  unescapeHTML (remove_all TAG_REGEX (remove_all ANNOTATION_SPAN html)).

(** ** Notions used in the proofs *)

(** A text in normal form under a given normalizer. *)
Definition in_normal_form (normalize_NFC : jsstring -> jsstring)
    (s : jsstring) : Prop :=
  normalize_NFC s = s.

(** What the loop has recorded after scanning [seen]. *)
Definition homoglyph_inv (seen : jsstring) (total : nat)
    (chars : list (code_unit * Homoglyph.entry)) : Prop :=
  total = List.length (filter flagged seen) /\
  forall c,
    option_map Homoglyph.count (map_get c chars) =
    if flagged c && (0 <? occurrences c seen)%nat
    then Some (occurrences c seen) else None.

(** Whether [detect] counts an occurrence of [ch]. *)
Definition counted (includeFormatting : bool) (ch : code_unit) : bool :=
  match lookup ch INVISIBLE_CHARS with
  | Some info =>
      negb (negb includeFormatting
            && set_has FORMATTING_CATEGORIES (category info))
  | None => is_control_code ch
  end.

Definition detect_inv (includeFormatting : bool) (seen : jsstring)
    (total : nat) (chars : list (code_unit * Detect.entry)) : Prop :=
  total = List.length (filter (counted includeFormatting) seen) /\
  forall c,
    option_map Detect.count (map_get c chars) =
    if counted includeFormatting c && (0 <? occurrences c seen)%nat
    then Some (occurrences c seen) else None.

Definition strippable_free (s : jsstring) : Prop :=
  forall c, In c s -> in_INVISIBLE_REGEX c = false.

Definition LF : code_unit := 0x0A.

Definition CR : code_unit := 0x0D.

(** The text contains a CRLF terminator. *)
Definition has_CRLF (text : jsstring) : Prop :=
  exists a b, text = a ++ [CR; LF] ++ b.

(** The text contains a line feed that no carriage return precedes. *)
Definition has_bare_LF (text : jsstring) : Prop :=
  exists a b, text = a ++ LF :: b /\ forall a', a <> a' ++ [CR].

Definition is_mixed_endings (i : Whitespace.issue) : bool :=
  match Whitespace.type i with
  | Whitespace.mixed_endings => true
  | _ => false
  end.

(** A bare line feed in [s], when [prev] is the code unit before [s]. *)
Definition bare_LF_after (prev : option code_unit) (s : jsstring) : Prop :=
  exists a b, s = a ++ LF :: b
              /\ (a = [] -> prev <> Some CR)
              /\ forall a', a <> a' ++ [CR].

Definition mixed_endings_issue : Whitespace.issue :=
  {| Whitespace.type := Whitespace.mixed_endings;
     Whitespace.count := 1;
     Whitespace.description := "Mixed line endings (CRLF + LF)" |}.

(** [well_formed] as a scan with one bit of state: [pending] says that the
    previous code unit was a high surrogate still waiting for its low one. *)
Fixpoint well_formed_from (pending : bool) (s : jsstring) : bool :=
  match s with
  | [] => negb pending
  | c :: s' =>
      if pending then is_low_surrogate c && well_formed_from false s'
      else if is_high_surrogate c then well_formed_from true s'
      else negb (is_low_surrogate c) && well_formed_from false s'
  end.

Definition no_surrogate (t : jsstring) : bool :=
  forallb (fun c => negb (is_surrogate c)) t.

(** A span that does not cut a surrogate pair at either end. *)
Definition pair_closed (t : jsstring) : Prop :=
  match t with
  | [] => False
  | c :: _ => is_low_surrogate c = false
  end
  /\ is_high_surrogate (last t 0) = false.

(** The pattern matches at no index of [s]. *)
Fixpoint never_matches (m : matcher) (s : jsstring) : Prop :=
  match s with
  | [] => True
  | _ :: s' => (m s = None \/ m s = Some O) /\ never_matches m s'
  end.

Definition flagged_free (s : jsstring) : Prop :=
  forall c, In c s -> flagged c = false.

(** Whether the first code unit after the leading blanks of [s], if any,
    ends a line. *)
Definition blanks_reach_line_end (s : jsstring) : bool :=
  at_line_end (skipn (run_length is_blank s) s).

(** The blanks the cleanup deletes and the line terminators it looks at. *)
Definition inert (c : code_unit) : bool := is_blank c || is_line_terminator c.

(** Code units other than the opening angle bracket. *)
Definition not_lt (c : code_unit) : bool := negb (c =? 0x3C).

Definition escape_char (c : code_unit) : jsstring :=
  if c =? 0x26 then lit "&amp;"
  else if c =? 0x3C then lit "&lt;"
  else if c =? 0x3E then lit "&gt;"
  else if c =? 0x22 then lit "&quot;"
  else if c =? 0x27 then lit "&#039;"
  else [c].

Definition open_visible : jsstring :=
  lit "<span class=" ++ dq ++ lit "char-visible" ++ dq ++ lit ">".

Definition close_span : jsstring := lit "</span>".

(** An annotation span whose class is one of the two annotation classes
    and whose name and label hold no angle bracket. *)
Definition tame (cssClass charName label : string) : Prop :=
  (cssClass = "char-hidden"%string \/ cssClass = "char-formatting"%string)
  /\ forallb not_lt (lit charName) = true
  /\ forallb not_lt (lit label) = true.

Inductive part :=
  | VisiblePart (visibleBuffer : jsstring)
  | AnnotationPart (cssClass charName label : string).

Definition render_part (p : part) : jsstring :=
  match p with
  | VisiblePart b => visible_span b
  | AnnotationPart c n l => annotation_span c n l
  end.

Definition part_text (p : part) : jsstring :=
  match p with
  | VisiblePart b => b
  | AnnotationPart _ _ _ => []
  end.

Definition part_tame (p : part) : Prop :=
  match p with
  | VisiblePart _ => True
  | AnnotationPart c n l => tame c n l
  end.

(** ** The public API *)

(** *** The values an options argument can take

    [undefined] (also an argument left out), [null], the primitives, and
    objects, given by the data properties a read finds on them, their own
    or inherited ones. *)
Inductive js_number :=
  | NaN
  | Infinity (negative : bool)
  | Finite (negative : bool) (magnitude : double).

Inductive js_value :=
  | JsUndefined
  | JsNull
  | JsBoolean (b : bool)
  | JsNumber (n : js_number)
  | JsString (s : jsstring)
  | JsObject (properties : js_properties)
with js_properties :=
  | NoProperty
  | Property (key : string) (value : js_value) (rest : js_properties).

Fixpoint own_property (key : string) (properties : js_properties)
    : js_value :=
  match properties with
  | NoProperty => JsUndefined
  | Property k v rest =>
      if String.eqb k key then v else own_property key rest
  end.

(** [v.key] for the option names the code reads, none of which is a
    property of [Object.prototype] or of a primitive's prototype: reading
    a property of [null] or [undefined] throws a TypeError, a primitive
    has no such property, an object has it when it holds it. *)
Definition Get (v : js_value) (key : string) : completion js_value :=
  match v with
  | JsUndefined | JsNull => Throw TypeError
  | JsObject properties => Normal (own_property key properties)
  | JsBoolean _ | JsNumber _ | JsString _ => Normal JsUndefined
  end.

Definition ToBoolean (v : js_value) : bool :=
  match v with
  | JsUndefined | JsNull => false
  | JsBoolean b => b
  | JsNumber NaN => false
  | JsNumber (Infinity _) => true
  | JsNumber (Finite _ d) => negb (mant d =? 0)
  | JsString s => match s with [] => false | _ => true end
  | JsObject _ => true
  end.

(** What the code can tell of the value of an option, which it only tests
    with [if (v)], [v || false] and [v !== false]: [false] itself, some
    other falsy value, or a truthy value. *)
Definition option_value (v : js_value) : option bool :=
  match v with
  | JsBoolean false => Some false
  | _ => if ToBoolean v then Some true else None
  end.

(** A parameter declared [options = {}]: the default replaces [undefined]
    and nothing else. *)
Definition default_parameter (v : js_value) : js_value :=
  match v with
  | JsUndefined => JsObject NoProperty
  | _ => v
  end.

(** *** The regular expression constructor

    [new RegExp(source, 'g')] as a step that can throw. The sources the
    code builds are literal patterns: code units that are not syntax
    characters, and syntax characters behind a backslash. The model refuses
    every other source with a SyntaxError; of those the constructor rejects
    some (a final backslash, a lone quantifier, an unclosed bracket) and
    reads the rest as something other than a literal. *)
Fixpoint is_literal_pattern (src : jsstring) : bool :=
  match src with
  | [] => true
  | c :: rest =>
      if c =? 0x5C then
        match rest with
        | d :: rest' => is_regexp_special d && is_literal_pattern rest'
        | [] => false
        end
      else negb (is_regexp_special c) && is_literal_pattern rest
  end.

Definition RegExp_new (src : jsstring) : completion ctx_matcher :=
  if is_literal_pattern src then Normal (RegExp_of_source src)
  else Throw SyntaxError.

Fixpoint construct_all (sources : list jsstring) : completion unit :=
  match sources with
  | [] => Normal tt
  | src :: rest => _ <- RegExp_new src ;; construct_all rest
  end.

(** *** The operations as they are called

    Each operation with its arguments as the caller passes them: the text
    is a string, the options any value. The reads of the options come
    first (for [clean] the code makes the later two further down, between
    steps that cannot throw), then the body modelled above runs on what was
    read. [stripSpaces] is never read. [detectWhitespaceAnomalies] first
    makes the constructor calls of its loop, which do not depend on the
    text and are its only steps that can throw. *)
Module WatermarkDetector.
Section Platform.

Variable normalize_NFC : jsstring -> jsstring.
Variable Math_random : nat -> double.

Definition detect (text : jsstring) (options : js_value)
    : completion Detect.result :=
  let options := default_parameter options in
  includeFormatting <- Get options "includeFormatting" ;;
  detect text {| Detect.includeFormatting := option_value includeFormatting |}.

Definition detectHomoglyphs (text : jsstring)
    : completion Homoglyph.result :=
  detectHomoglyphs text.

Definition detectWhitespaceAnomalies (text : jsstring)
    : completion Whitespace.result :=
  _ <- construct_all
         (map (fun kv =>
                 replace_all (class is_regexp_special)
                   (fun m => 0x5C :: m) [fst kv])
            spaceChars) ;;
  Normal (detectWhitespaceAnomalies text).

Definition clean (text : jsstring) (options : js_value)
    : completion jsstring :=
  let options := default_parameter options in
  html <- Get options "stripHTML" ;;
  nfc <- Get options "normalize" ;;
  homoglyphs <- Get options "fixHomoglyphs" ;;
  Normal
    (clean normalize_NFC text
       {| normalize := option_value nfc;
          fixHomoglyphs := option_value homoglyphs;
          stripSpaces := None;
          stripHTML := option_value html |}).

Definition revealHTML (text : jsstring) (options : js_value)
    : completion jsstring :=
  let options := default_parameter options in
  includeFormatting <- Get options "includeFormatting" ;;
  Normal
    (revealHTML text
       {| Detect.includeFormatting := option_value includeFormatting |}).

Definition inject (text : jsstring) (types : js_value)
    : completion Inject.result :=
  let types := default_parameter types in
  zwsp <- Get types "zwsp" ;;
  zwnj <- Get types "zwnj" ;;
  bom <- Get types "bom" ;;
  invisSep <- Get types "invisSep" ;;
  Normal
    (inject Math_random text
       {| Inject.zwsp := option_value zwsp;
          Inject.zwnj := option_value zwnj;
          Inject.bom := option_value bom;
          Inject.invisSep := option_value invisSep |}).

Definition getCharInfo (ch : jsstring) : completion char_lookup :=
  Normal (getCharInfo ch).

End Platform.
End WatermarkDetector.

(** A call of one of the seven public operations and the value it
    returns. *)
Inductive api_call :=
  | call_detect (text : jsstring) (options : js_value)
  | call_detectHomoglyphs (text : jsstring)
  | call_detectWhitespaceAnomalies (text : jsstring)
  | call_clean (text : jsstring) (options : js_value)
  | call_revealHTML (text : jsstring) (options : js_value)
  | call_inject (text : jsstring) (types : js_value)
  | call_getCharInfo (ch : jsstring).

Inductive api_value :=
  | value_detect (r : Detect.result)
  | value_detectHomoglyphs (r : Homoglyph.result)
  | value_detectWhitespaceAnomalies (r : Whitespace.result)
  | value_clean (r : jsstring)
  | value_revealHTML (r : jsstring)
  | value_inject (r : Inject.result)
  | value_getCharInfo (r : char_lookup).

(** The options argument of a call; [undefined] where the operation takes
    none. *)
Definition options_argument (c : api_call) : js_value :=
  match c with
  | call_detect _ options | call_clean _ options
  | call_revealHTML _ options | call_inject _ options => options
  | call_detectHomoglyphs _ | call_detectWhitespaceAnomalies _
  | call_getCharInfo _ => JsUndefined
  end.

Section PublicAPI.

Variable normalize_NFC : jsstring -> jsstring.
Variable Math_random : nat -> double.

Definition run (c : api_call) : completion api_value :=
  match c with
  | call_detect text options =>
      r <- WatermarkDetector.detect text options ;; Normal (value_detect r)
  | call_detectHomoglyphs text =>
      r <- WatermarkDetector.detectHomoglyphs text ;;
      Normal (value_detectHomoglyphs r)
  | call_detectWhitespaceAnomalies text =>
      r <- WatermarkDetector.detectWhitespaceAnomalies text ;;
      Normal (value_detectWhitespaceAnomalies r)
  | call_clean text options =>
      r <- WatermarkDetector.clean normalize_NFC text options ;;
      Normal (value_clean r)
  | call_revealHTML text options =>
      r <- WatermarkDetector.revealHTML text options ;;
      Normal (value_revealHTML r)
  | call_inject text types =>
      r <- WatermarkDetector.inject Math_random text types ;;
      Normal (value_inject r)
  | call_getCharInfo ch =>
      r <- WatermarkDetector.getCharInfo ch ;; Normal (value_getCharInfo r)
  end.

End PublicAPI.

(** ** Notions used for the further properties *)

(** The indices, counted from [i], at which [c] stands in [s]. *)
Fixpoint positions_from (c : code_unit) (i : nat) (s : jsstring)
    : list nat :=
  match s with
  | [] => []
  | d :: s' =>
      if d =? c then i :: positions_from c (S i) s'
      else positions_from c (S i) s'
  end.

(** The distinct code units of [s], in the order of their first
    occurrence. *)
Definition distinct (s : jsstring) : jsstring :=
  fold_left (fun acc c => if existsb (Z.eqb c) acc then acc else acc ++ [c])
    s [].

(** The descriptor [detect] attaches to a character it counts: the registry
    entry, or the generic control descriptor. *)
Definition descriptor (ch : code_unit) : char_info :=
  match lookup ch INVISIBLE_CHARS with
  | Some info => info
  | None =>
      {| name := "Control Character"; code := hex_label ch;
         category := control |}
  end.

Definition detect_entry_ok (seen : jsstring) (ch : code_unit)
    (e : Detect.entry) : Prop :=
  Detect.positions e = positions_from ch 0 seen
  /\ Detect.count e = List.length (Detect.positions e)
  /\ Detect.info e = descriptor ch.

Definition detect_counts (chars : list (code_unit * Detect.entry)) : nat :=
  list_sum (map (fun kv => Detect.count (snd kv)) chars).

Definition detect_inventory_inv (includeFormatting : bool) (seen : jsstring)
    (total : nat) (chars : list (code_unit * Detect.entry)) : Prop :=
  total = List.length (filter (counted includeFormatting) seen)
  /\ map fst chars = distinct (filter (counted includeFormatting) seen)
  /\ detect_counts chars = total
  /\ forall ch e, map_get ch chars = Some e -> detect_entry_ok seen ch e.

(** Tab, line feed, form feed and carriage return: the registry's
    category [formatting]. *)
Definition is_formatting_char (c : code_unit) : bool :=
  existsb (Z.eqb c) [0x09; 0x0A; 0x0C; 0x0D].

Definition homoglyph_entry_ok (seen : jsstring) (ch : code_unit)
    (e : Homoglyph.entry) : Prop :=
  Homoglyph.original e = ch
  /\ lookup ch HOMOGLYPHS = Some (Homoglyph.replacement e)
  /\ Homoglyph.code e = hex_label ch
  /\ Homoglyph.count e = occurrences ch seen.

Definition homoglyph_counts (chars : list (code_unit * Homoglyph.entry))
    : nat :=
  list_sum (map (fun kv => Homoglyph.count (snd kv)) chars).

Definition homoglyph_inventory_inv (seen : jsstring) (total : nat)
    (chars : list (code_unit * Homoglyph.entry)) : Prop :=
  total = List.length (filter flagged seen)
  /\ map fst chars = distinct (filter flagged seen)
  /\ homoglyph_counts chars = total
  /\ forall ch e, map_get ch chars = Some e -> homoglyph_entry_ok seen ch e.

(** [a] is obtained from [b] by deleting code units. *)
Inductive subsequence : jsstring -> jsstring -> Prop :=
  | subsequence_nil : subsequence [] []
  | subsequence_keep (c : code_unit) (a b : jsstring) :
      subsequence a b -> subsequence (c :: a) (c :: b)
  | subsequence_drop (c : code_unit) (a b : jsstring) :
      subsequence a b -> subsequence a (c :: b).

(** The special-space issues of a text: for each registry character of
    category [space], in registry order, one issue when it occurs. *)
Definition special_space_issues (text : jsstring)
    (entries : list (code_unit * char_info)) : list Whitespace.issue :=
  flat_map
    (fun kv =>
       if (0 <? occurrences (fst kv) text)%nat then
         [{| Whitespace.type := Whitespace.special_space;
             Whitespace.count := occurrences (fst kv) text;
             Whitespace.description :=
               (name (snd kv) ++ " (" ++ code (snd kv) ++ ")")%string |}]
       else [])
    entries.

Definition is_special_space_issue (i : Whitespace.issue) : bool :=
  match Whitespace.type i with
  | Whitespace.special_space => true
  | _ => false
  end.

(** A character of the registry's category [space]. *)
Definition is_special_space (c : code_unit) : bool :=
  existsb (Z.eqb c) (map fst spaceChars).

(** The five characters [escapeHTML] rewrites. *)
Definition is_html_special (c : code_unit) : bool :=
  existsb (Z.eqb c) [0x26; 0x3C; 0x3E; 0x22; 0x27].

(** The four of them that can open or close markup or an attribute. *)
Definition is_markup_char (c : code_unit) : bool :=
  existsb (Z.eqb c) [0x3C; 0x3E; 0x22; 0x27].

(** What may follow an opening angle bracket in a rendering: the start of
    a span of one of the renderer's classes, or the end of a span. *)
Definition span_tag_follows (s : jsstring) : bool :=
  starts_with false (lit "span class=" ++ dq ++ lit "char-") s
  || starts_with false (lit "/span>") s.

(** Every opening angle bracket of [html] starts a tag of the renderer. *)
Definition markup_safe (html : jsstring) : Prop :=
  forall a b, html = a ++ 0x3C :: b -> span_tag_follows b = true.

Definition is_annotation_part (p : part) : bool :=
  match p with
  | AnnotationPart _ _ _ => true
  | VisiblePart _ => false
  end.

(** No empty visible part and no two visible parts in a row. *)
Fixpoint coalesced (ps : list part) : Prop :=
  match ps with
  | [] => True
  | VisiblePart b :: rest =>
      b <> []
      /\ match rest with
         | VisiblePart _ :: _ => False
         | _ => True
         end
      /\ coalesced rest
  | AnnotationPart _ _ _ :: rest => coalesced rest
  end.

(** A string [inject] may insert: one code unit, and one the
    invisible-character pass of [clean] removes. *)
Definition injected (x : jsstring) : Prop :=
  exists c, x = [c] /\ in_INVISIBLE_REGEX c = true.

(** The contract of [Math.random]: every call returns a Number in
    [0, 1). *)
Definition unit_interval (Math_random : nat -> double) : Prop :=
  forall k, is_double (Math_random k)
            /\ double_lt (Math_random k) double_1 = true.

(** The two insertion steps of one iteration of the loop of [inject], on
    the result, the count and the number of random draws so far. *)
Definition between_words (Math_random : nat -> double)
    (chars rest : list jsstring) (result : jsstring) (count calls : nat)
    : jsstring * nat * nat :=
  match rest with
  | _ :: _ =>
      if double_lt (Math_random calls) double_0_6 then
        let char := pick chars (Math_random (S calls)) in
        (result ++ char, S count, S (S calls))
      else (result, count, S calls)
  | [] => (result, count, calls)
  end.

Definition within_word (Math_random : nat -> double)
    (chars : list jsstring) (w result : jsstring) (count calls : nat)
    : jsstring * nat * nat :=
  if (4 <? List.length w)%nat then
    if double_lt (Math_random calls) double_0_3 then
      let wlen := Z.of_nat (List.length w) in
      let pos :=
        Math_floor (double_mul (Math_random (S calls)) (wlen - 2)) + 1 in
      let char := pick chars (Math_random (S (S calls))) in
      let rlen := Z.of_nat (List.length result) in
      (slice 0 (rlen - wlen + pos) result ++ char
       ++ slice (rlen - wlen + pos) rlen result,
       S count, S (S (S calls)))
    else (result, count, S calls)
  else (result, count, calls).

(** The list of strings [inject] draws from, as it builds it. *)
Definition inject_chars (types : Inject.types) : list jsstring :=
  let chars := [] in
  let chars := if truthy (Inject.zwsp types) then chars ++ [[0x200B]] else chars in
  let chars := if truthy (Inject.zwnj types) then chars ++ [[0x200C]] else chars in
  let chars := if truthy (Inject.bom types) then chars ++ [[0xFEFF]] else chars in
  if truthy (Inject.invisSep types)
  then chars ++ [[0x2061]; [0x2062]; [0x2063]; [0x2064]] else chars.

(** Code units other than the opening angle bracket and the ampersand:
    a text made of them holds neither a tag nor an entity. *)
Definition no_markup (c : code_unit) : bool :=
  negb (c =? 0x3C) && negb (c =? 0x26).

(** * Properties *)

(** ** The replacement engine *)

Lemma replace_from_skipn (m : matcher) (f : jsstring -> jsstring) :
  forall (n : nat) (s : jsstring),
    replace_from m f n s = replace_from m f O (skipn n s).
Proof.
  induction n as [|n IH]; intros s.
  - reflexivity.
  - destruct s as [|c s']; [reflexivity|].
    simpl. apply IH.
Qed.

Lemma replace_all_nil (m : matcher) (f : jsstring -> jsstring) :
  replace_all m f [] = [].
Proof. reflexivity. Qed.

Lemma replace_all_cons (m : matcher) (f : jsstring -> jsstring)
    (c : code_unit) (s' : jsstring) :
  replace_all m f (c :: s') =
  match m (c :: s') with
  | Some (S n) => f (firstn (S n) (c :: s')) ++ replace_all m f (skipn n s')
  | _ => c :: replace_all m f s'
  end.
Proof.
  unfold replace_all. simpl.
  destruct (m (c :: s')) as [[|n]|]; try reflexivity.
  now rewrite replace_from_skipn.
Qed.

(** Induction along a run of the engine: the subject is consumed either one
    unmatched code unit or one whole match at a time. *)
Lemma replace_all_ind (m : matcher) (f : jsstring -> jsstring)
    (P : jsstring -> jsstring -> Prop) :
  P [] [] ->
  (forall c s' out,
      (m (c :: s') = None \/ m (c :: s') = Some O) ->
      P s' out -> P (c :: s') (c :: out)) ->
  (forall c s' n out,
      m (c :: s') = Some (S n) ->
      P (skipn n s') out ->
      P (c :: s') (f (firstn (S n) (c :: s')) ++ out)) ->
  forall s, P s (replace_all m f s).
Proof.
  intros Hnil Hskip Hmatch s.
  remember (List.length s) as k eqn:Hk.
  revert s Hk.
  induction k as [k IH] using lt_wf_ind.
  intros [|c s'] Hk.
  - exact Hnil.
  - rewrite replace_all_cons.
    destruct (m (c :: s')) as [[|n]|] eqn:Hm.
    + apply Hskip; [now right|].
      apply (IH (List.length s')); [simpl in Hk; lia | reflexivity].
    + apply Hmatch; [exact Hm|].
      apply (IH (List.length (skipn n s'))); [|reflexivity].
      rewrite length_skipn. simpl in Hk. lia.
    + apply Hskip; [now left|].
      apply (IH (List.length s')); [simpl in Hk; lia | reflexivity].
Qed.

Lemma replace_all_class (p : code_unit -> bool) (f : jsstring -> jsstring)
    (s : jsstring) :
  replace_all (class p) f s =
  flat_map (fun c => if p c then f [c] else [c]) s.
Proof.
  induction s as [|c s' IH]; [reflexivity|].
  rewrite replace_all_cons. simpl.
  destruct (p c); simpl; now rewrite IH.
Qed.

Lemma remove_all_class (p : code_unit -> bool) (s : jsstring) :
  remove_all (class p) s = filter (fun c => negb (p c)) s.
Proof.
  unfold remove_all. rewrite replace_all_class.
  induction s as [|c s' IH]; [reflexivity|].
  simpl. destruct (p c); simpl; now rewrite IH.
Qed.

(** ** Maps and tables *)

Lemma map_get_set_same {V} (k : code_unit) (v : V) (m : list (code_unit * V)) :
  map_get k (map_set k v m) = Some v.
Proof.
  unfold map_get.
  induction m as [|[k' v'] m IH]; simpl.
  - now rewrite Z.eqb_refl.
  - destruct (k' =? k) eqn:E; simpl.
    + now rewrite Z.eqb_refl.
    + now rewrite E.
Qed.

Lemma map_get_set_other {V} (k k0 : code_unit) (v : V)
    (m : list (code_unit * V)) :
  k0 <> k -> map_get k0 (map_set k v m) = map_get k0 m.
Proof.
  intros Hne. unfold map_get.
  induction m as [|[k' v'] m IH]; simpl.
  - destruct (k =? k0) eqn:E; [apply Z.eqb_eq in E; congruence | reflexivity].
  - destruct (k' =? k) eqn:E; simpl.
    + apply Z.eqb_eq in E. subst k'.
      destruct (k =? k0) eqn:E'; [apply Z.eqb_eq in E'; congruence | reflexivity].
    + destruct (k' =? k0); [reflexivity | exact IH].
Qed.

Lemma lookup_existsb {A} (c : code_unit) (l : list (code_unit * A)) :
  existsb (Z.eqb c) (map fst l) =
  match lookup c l with Some _ => true | None => false end.
Proof.
  induction l as [|[k v] l IH]; [reflexivity|].
  simpl. rewrite (Z.eqb_sym c k).
  destruct (k =? c); simpl; [reflexivity | exact IH].
Qed.

Lemma existsb_eqb_In (c : code_unit) (l : list code_unit) :
  existsb (Z.eqb c) l = true <-> In c l.
Proof.
  rewrite existsb_exists. split.
  - intros [x [Hin Heq]]. apply Z.eqb_eq in Heq. now subst.
  - intros Hin. exists c. split; [exact Hin | apply Z.eqb_refl].
Qed.

Lemma occurrences_snoc (c ch : code_unit) (s : jsstring) :
  occurrences c (s ++ [ch]) =
  (occurrences c s + if (ch =? c)%Z then 1 else 0)%nat.
Proof.
  unfold occurrences. rewrite count_occ_app. simpl.
  destruct (Z.eq_dec ch c) as [->|Hne].
  - now rewrite Z.eqb_refl.
  - apply Z.eqb_neq in Hne. now rewrite Hne.
Qed.

(* The tables stay folded under [simpl]. *)
Arguments lookup : simpl never.
Arguments in_INVISIBLE_REGEX : simpl never.
Arguments in_HOMOGLYPH_REGEX : simpl never.
Arguments is_control_code : simpl never.
Arguments set_has : simpl never.

(** ** detectHomoglyphs *)

Lemma isExpectedChar_exempted (text : jsstring) (i : nat) (c : code_unit) :
  isExpectedChar text i c = true <-> In c exempted.
Proof.
  unfold isExpectedChar, exempted. simpl.
  rewrite !orb_true_iff, !Z.eqb_eq.
  intuition congruence.
Qed.

Lemma detectHomoglyphs_loop_inv (whole : jsstring) :
  forall (rest seen : jsstring) (i total : nat)
         (chars : list (code_unit * Homoglyph.entry)),
    homoglyph_inv seen total chars ->
    exists r,
      detectHomoglyphs_loop whole i rest total chars = Normal r /\
      homoglyph_inv (seen ++ rest) (Homoglyph.total r) (Homoglyph.chars r).
Proof.
  induction rest as [|ch rest IH]; intros seen i total chars Hinv.
  - simpl. eexists. split; [reflexivity|]. now rewrite app_nil_r.
  - replace (seen ++ ch :: rest) with ((seen ++ [ch]) ++ rest)
      by now rewrite <- app_assoc.
    destruct Hinv as [Htot Hmap].
    assert (Hfl : flagged ch =
                  match lookup ch HOMOGLYPHS with
                  | Some _ => negb (isExpectedChar whole i ch)
                  | None => false
                  end).
    { unfold flagged, in_HOMOGLYPH_REGEX. rewrite lookup_existsb.
      destruct (lookup ch HOMOGLYPHS); reflexivity. }
    assert (Hskip : flagged ch = false ->
                    homoglyph_inv (seen ++ [ch]) total chars).
    { intros Hf. split.
      - rewrite filter_app. simpl. rewrite Hf, app_nil_r. exact Htot.
      - intros c. rewrite Hmap, occurrences_snoc.
        destruct (ch =? c) eqn:E.
        + apply Z.eqb_eq in E. subst c. now rewrite Hf.
        + now rewrite Nat.add_0_r. }
    simpl.
    destruct (lookup ch HOMOGLYPHS) as [replacement|] eqn:Hl.
    2:{ apply IH. now apply Hskip. }
    destruct (isExpectedChar whole i ch) eqn:Hex; simpl in Hfl |- *.
    { apply IH. now apply Hskip. }
    (* a flagged occurrence *)
    specialize (Hmap ch) as Hch. rewrite Hfl in Hch. simpl in Hch.
    unfold map_has.
    destruct (map_get ch chars) as [e|] eqn:Hget; simpl.
    + rewrite Hget. apply IH. split.
      * rewrite filter_app. simpl. rewrite Hfl. simpl.
        rewrite length_app. simpl. lia.
      * intros c. rewrite occurrences_snoc.
        destruct (ch =? c) eqn:E.
        -- apply Z.eqb_eq in E. subst c.
           rewrite map_get_set_same, Hfl. simpl.
           destruct (0 <? occurrences ch seen)%nat eqn:Hpos;
             simpl in Hch; [|discriminate].
           injection Hch as Hch. rewrite Hch.
           replace (0 <? occurrences ch seen + 1)%nat with true
             by (symmetry; apply Nat.ltb_lt; lia).
           f_equal. lia.
        -- apply Z.eqb_neq in E.
           rewrite map_get_set_other by congruence.
           rewrite Hmap. now rewrite Nat.add_0_r.
    + rewrite map_get_set_same. apply IH. split.
      * rewrite filter_app. simpl. rewrite Hfl. simpl.
        rewrite length_app. simpl. lia.
      * intros c. rewrite occurrences_snoc.
        destruct (ch =? c) eqn:E.
        -- apply Z.eqb_eq in E. subst c.
           rewrite map_get_set_same, Hfl. simpl.
           destruct (0 <? occurrences ch seen)%nat eqn:Hpos;
             simpl in Hch; [discriminate|].
           apply Nat.ltb_ge in Hpos.
           replace (occurrences ch seen) with O by lia. reflexivity.
        -- apply Z.eqb_neq in E.
           rewrite !map_get_set_other by congruence.
           rewrite Hmap. now rewrite Nat.add_0_r.
Qed.

Lemma detectHomoglyphs_returns (text : jsstring) :
  exists r,
    detectHomoglyphs text = Normal r /\
    homoglyph_inv text (Homoglyph.total r) (Homoglyph.chars r).
Proof.
  apply (detectHomoglyphs_loop_inv text text [] 0 0 []).
  split; [reflexivity|]. intros c. simpl. now rewrite andb_false_r.
Qed.

(** C6. [detectHomoglyphs] returns; none of the seven exempted characters
    (U+00A0, U+2018, U+2019, U+201C, U+201D, U+2013, U+2014) gets an entry,
    whatever the text; every other key of the homoglyph table has an entry
    exactly when it occurs, counting each of its occurrences; and [total]
    is the number of positions holding a non-exempted key.  Whether a
    position is flagged depends on the character alone. *)
Theorem detectHomoglyphs_blanket_exemption :
  forall text : jsstring,
  exists r,
    detectHomoglyphs text = Normal r /\
    (forall c, In c exempted -> map_get c (Homoglyph.chars r) = None) /\
    (forall c, In c (map fst HOMOGLYPHS) -> ~ In c exempted ->
       option_map Homoglyph.count (map_get c (Homoglyph.chars r)) =
       if (0 <? occurrences c text)%nat
       then Some (occurrences c text) else None) /\
    Homoglyph.total r =
      List.length
        (filter (fun c => existsb (Z.eqb c) (map fst HOMOGLYPHS)
                          && negb (existsb (Z.eqb c) exempted)) text).
Proof.
  intros text.
  destruct (detectHomoglyphs_returns text) as [r [Hr [Htot Hmap]]].
  exists r. split; [exact Hr|].
  assert (Hflag : forall c, flagged c =
            existsb (Z.eqb c) (map fst HOMOGLYPHS)
            && negb (existsb (Z.eqb c) exempted)).
  { intros c. unfold flagged, in_HOMOGLYPH_REGEX. f_equal. f_equal.
    apply eq_true_iff_eq.
    rewrite isExpectedChar_exempted, existsb_eqb_In. tauto. }
  repeat split.
  - intros c Hin. specialize (Hmap c).
    assert (Hf : flagged c = false).
    { unfold flagged.
      apply (isExpectedChar_exempted [] 0) in Hin. rewrite Hin.
      now rewrite andb_false_r. }
    rewrite Hf in Hmap. simpl in Hmap.
    destruct (map_get c (Homoglyph.chars r)); [discriminate | reflexivity].
  - intros c Hkey Hnex. rewrite Hmap.
    assert (Hf : flagged c = true).
    { rewrite Hflag. apply andb_true_iff. split.
      - now apply existsb_eqb_In.
      - apply negb_true_iff. apply not_true_iff_false.
        now rewrite existsb_eqb_In. }
    now rewrite Hf.
  - rewrite Htot. f_equal. apply filter_ext. exact Hflag.
Qed.

(** ** detect *)

Lemma detect_record_spec (ch : code_unit) (i : nat) (info : char_info)
    (chars : list (code_unit * Detect.entry)) :
  exists chars',
    detect_record ch i info chars = Normal chars' /\
    option_map Detect.count (map_get ch chars') =
      Some (S (match map_get ch chars with
               | Some e => Detect.count e
               | None => O
               end)) /\
    forall k, k <> ch -> map_get k chars' = map_get k chars.
Proof.
  unfold detect_record, map_has.
  destruct (map_get ch chars) as [e|] eqn:Hget; simpl.
  - rewrite Hget. eexists. split; [reflexivity|]. split.
    + now rewrite map_get_set_same.
    + intros k Hk. now apply map_get_set_other.
  - rewrite map_get_set_same. eexists. split; [reflexivity|]. split.
    + now rewrite map_get_set_same.
    + intros k Hk. now rewrite !map_get_set_other.
Qed.

Lemma detect_inv_skip (incl : bool) (seen : jsstring) (ch : code_unit)
    (total : nat) (chars : list (code_unit * Detect.entry)) :
  counted incl ch = false ->
  detect_inv incl seen total chars ->
  detect_inv incl (seen ++ [ch]) total chars.
Proof.
  intros Hc [Htot Hmap]. split.
  - rewrite filter_app. simpl. rewrite Hc, app_nil_r. exact Htot.
  - intros c. rewrite Hmap, occurrences_snoc.
    destruct (ch =? c) eqn:E.
    + apply Z.eqb_eq in E. subst c. now rewrite Hc.
    + now rewrite Nat.add_0_r.
Qed.

Lemma detect_inv_record (incl : bool) (seen : jsstring) (ch : code_unit)
    (i total : nat) (info : char_info)
    (chars : list (code_unit * Detect.entry)) :
  counted incl ch = true ->
  detect_inv incl seen total chars ->
  exists chars',
    detect_record ch i info chars = Normal chars' /\
    detect_inv incl (seen ++ [ch]) (S total) chars'.
Proof.
  intros Hc [Htot Hmap].
  destruct (detect_record_spec ch i info chars) as [chars' [Hr [Hsame Hother]]].
  exists chars'. split; [exact Hr|]. split.
  - rewrite filter_app. simpl. rewrite Hc, length_app. simpl. lia.
  - intros c. rewrite occurrences_snoc.
    destruct (ch =? c) eqn:E.
    + apply Z.eqb_eq in E. subst c. rewrite Hsame, Hc. simpl.
      specialize (Hmap ch). rewrite Hc in Hmap. simpl in Hmap.
      replace (0 <? occurrences ch seen + 1)%nat with true
        by (symmetry; apply Nat.ltb_lt; lia).
      destruct (map_get ch chars) as [e|]; simpl in Hmap.
      * destruct (0 <? occurrences ch seen)%nat; [|discriminate].
        injection Hmap as Hmap. f_equal. lia.
      * destruct (0 <? occurrences ch seen)%nat eqn:Hpos; [discriminate|].
        apply Nat.ltb_ge in Hpos. f_equal. lia.
    + apply Z.eqb_neq in E. rewrite Hother by congruence.
      rewrite Hmap. now rewrite Nat.add_0_r.
Qed.

Lemma detect_loop_inv (incl : bool) :
  forall (rest seen : jsstring) (i total : nat)
         (chars : list (code_unit * Detect.entry)),
    detect_inv incl seen total chars ->
    exists r,
      detect_loop incl i rest total chars = Normal r /\
      detect_inv incl (seen ++ rest) (Detect.total r) (Detect.chars r).
Proof.
  induction rest as [|ch rest IH]; intros seen i total chars Hinv.
  - simpl. eexists. split; [reflexivity|]. now rewrite app_nil_r.
  - replace (seen ++ ch :: rest) with ((seen ++ [ch]) ++ rest)
      by now rewrite <- app_assoc.
    simpl.
    destruct (lookup ch INVISIBLE_CHARS) as [info|] eqn:Hl.
    + destruct (negb incl && set_has FORMATTING_CATEGORIES (category info))
        eqn:Hfmt.
      * apply IH. apply detect_inv_skip; [|exact Hinv].
        unfold counted. now rewrite Hl, Hfmt.
      * destruct (detect_inv_record incl seen ch i total info chars)
          as [chars' [Hr Hinv']]; [|exact Hinv|].
        { unfold counted. now rewrite Hl, Hfmt. }
        rewrite Hr. simpl. now apply IH.
    + destruct (is_control_code ch) eqn:Hctl.
      * destruct (detect_inv_record incl seen ch i total
                    {| name := "Control Character"; code := hex_label ch;
                       category := control |} chars)
          as [chars' [Hr Hinv']]; [|exact Hinv|].
        { unfold counted. now rewrite Hl. }
        rewrite Hr. simpl. now apply IH.
      * apply IH. apply detect_inv_skip; [|exact Hinv].
        unfold counted. now rewrite Hl.
Qed.

(** [detect] returns, and its result is the inventory of the counted
    characters. *)
Lemma detect_returns (text : jsstring) (options : Detect.options) :
  exists r,
    detect text options = Normal r /\
    detect_inv (truthy (Detect.includeFormatting options)) text
      (Detect.total r) (Detect.chars r).
Proof.
  unfold detect.
  apply (detect_loop_inv _ text [] 0 0 []).
  split; [reflexivity|]. intros c. simpl. now rewrite andb_false_r.
Qed.

Lemma lookup_In {A} (c : code_unit) (v : A) (l : list (code_unit * A)) :
  lookup c l = Some v -> In (c, v) l.
Proof.
  unfold lookup.
  induction l as [|[k w] l IH]; [discriminate|].
  destruct (k =? c) eqn:E.
  - apply Z.eqb_eq in E. intros [= ->]. left. now subst.
  - intros H. right. now apply IH.
Qed.

Lemma map_get_keys {V} (c : code_unit) (m : list (code_unit * V)) :
  In c (map fst m) <-> map_get c m <> None.
Proof.
  rewrite <- existsb_eqb_In, lookup_existsb. unfold map_get.
  destruct (lookup c m); split; congruence.
Qed.

Lemma in_INVISIBLE_REGEX_split (ch : code_unit) :
  in_INVISIBLE_REGEX ch =
  existsb (Z.eqb ch) STRIPPABLE_CHARS || is_control_code ch.
Proof.
  unfold in_INVISIBLE_REGEX, is_control_code.
  generalize (existsb (Z.eqb ch) STRIPPABLE_CHARS). intros b.
  now rewrite !orb_assoc.
Qed.

Lemma formatting_not_stripped :
  forallb
    (fun kv => negb (category_eqb (category (snd kv)) formatting)
               || negb (in_INVISIBLE_REGEX (fst kv)))
    INVISIBLE_CHARS = true.
Proof. vm_compute. reflexivity. Qed.

Lemma STRIPPABLE_CHARS_In (ch : code_unit) :
  In ch STRIPPABLE_CHARS <->
  exists info, In (ch, info) INVISIBLE_CHARS
               /\ category_eqb (category info) formatting = false.
Proof.
  unfold STRIPPABLE_CHARS. rewrite in_map_iff. split.
  - intros [[k v] [Hk Hin]]. simpl in Hk. subst k.
    apply filter_In in Hin. destruct Hin as [Hin Hcat]. simpl in Hcat.
    exists v. split; [exact Hin | now apply negb_true_iff].
  - intros [info [Hin Hcat]]. exists (ch, info). split; [reflexivity|].
    apply filter_In. split; [exact Hin|]. simpl. now rewrite Hcat.
Qed.

(** Without [includeFormatting], [detect] counts exactly the characters of
    the class of [INVISIBLE_REGEX]. *)
Lemma counted_strippable (ch : code_unit) :
  counted false ch = in_INVISIBLE_REGEX ch.
Proof.
  pose proof formatting_not_stripped as Hfmt.
  rewrite forallb_forall in Hfmt.
  unfold counted.
  destruct (lookup ch INVISIBLE_CHARS) as [info|] eqn:Hl.
  - apply lookup_In in Hl.
    replace (set_has FORMATTING_CATEGORIES (category info))
      with (category_eqb (category info) formatting)
      by (unfold FORMATTING_CATEGORIES, set_has; simpl;
          now rewrite orb_false_r).
    destruct (category_eqb (category info) formatting) eqn:Hcat.
    + specialize (Hfmt _ Hl). cbv beta in Hfmt.
      change (snd (ch, info)) with info in Hfmt.
      change (fst (ch, info)) with ch in Hfmt.
      rewrite Hcat in Hfmt.
      destruct (in_INVISIBLE_REGEX ch); [discriminate | reflexivity].
    + rewrite in_INVISIBLE_REGEX_split.
      assert (Hin : existsb (Z.eqb ch) STRIPPABLE_CHARS = true).
      { apply existsb_eqb_In, STRIPPABLE_CHARS_In. now exists info. }
      now rewrite Hin.
  - rewrite in_INVISIBLE_REGEX_split.
    assert (Hin : existsb (Z.eqb ch) STRIPPABLE_CHARS = false).
    { apply not_true_iff_false. rewrite existsb_eqb_In, STRIPPABLE_CHARS_In.
      intros [v [Hin _]].
      assert (Hex : existsb (Z.eqb ch) (map fst INVISIBLE_CHARS) = true).
      { apply existsb_eqb_In. apply in_map_iff. now exists (ch, v). }
      rewrite lookup_existsb, Hl in Hex. discriminate. }
    now rewrite Hin.
Qed.

Lemma registry_holds_no_surrogate :
  forallb (fun kv => negb (is_surrogate (fst kv))) INVISIBLE_CHARS = true.
Proof. vm_compute. reflexivity. Qed.

Lemma counted_surrogate (includeFormatting : bool) (ch : code_unit) :
  is_surrogate ch = true -> counted includeFormatting ch = false.
Proof.
  intros Hs. unfold counted.
  destruct (lookup ch INVISIBLE_CHARS) as [info|] eqn:Hl.
  - apply lookup_In in Hl.
    pose proof registry_holds_no_surrogate as H.
    rewrite forallb_forall in H. specialize (H _ Hl). cbn [fst] in H.
    rewrite Hs in H. discriminate.
  - unfold is_surrogate, in_range in Hs.
    unfold is_control_code, in_range. lia.
Qed.

(** [detect] sees code units one at a time, and no surrogate is one it
    counts: a text made of supplementary-plane characters only comes back
    with an empty inventory. *)
Lemma detect_ignores_surrogates (text : jsstring) (options : Detect.options) :
  forallb is_surrogate text = true ->
  detect text options = Normal {| Detect.total := 0; Detect.chars := [] |}.
Proof.
  unfold detect. generalize (truthy (Detect.includeFormatting options)).
  intros incl. generalize O at 1. revert text.
  induction text as [|ch rest IH]; intros i Hall; [reflexivity|].
  cbn [forallb] in Hall. apply andb_true_iff in Hall.
  destruct Hall as [Hch Hrest].
  pose proof (counted_surrogate incl ch Hch) as Hc. unfold counted in Hc.
  cbn [detect_loop].
  destruct (lookup ch INVISIBLE_CHARS) as [info|].
  - apply negb_false_iff in Hc. rewrite Hc. now apply IH.
  - rewrite Hc. now apply IH.
Qed.

(** C5. On the Tag character U+E0001, the surrogate pair DB40 DC01,
    [detect] records nothing: [total] is 0 and there is no entry, with or
    without [includeFormatting], although the pattern of [clean] removes
    the pair. *)
Theorem detect_misses_tag_character :
  forall options : Detect.options,
    detect [0xDB40; 0xDC01] options =
      Normal {| Detect.total := 0; Detect.chars := [] |}
    /\ SUPPLEMENTARY_REGEX [0xDB40; 0xDC01] = Some 2%nat
    /\ remove_all SUPPLEMENTARY_REGEX [0xDB40; 0xDC01] = [].
Proof.
  intros [[[|]|]]; repeat split; vm_compute; reflexivity.
Qed.

(** ** What a pass of the engine keeps *)

Lemma in_skipn {A} (x : A) (n : nat) (l : list A) :
  In x (skipn n l) -> In x l.
Proof.
  intros H. rewrite <- (firstn_skipn n l). apply in_or_app. now right.
Qed.

(** A pass only adds code units that come from a replacement. *)
Lemma replace_all_In (m : matcher) (f : jsstring -> jsstring)
    (Q : code_unit -> Prop) :
  (forall t n c, m t = Some (S n) -> In c (f (firstn (S n) t)) ->
                 In c (firstn (S n) t) \/ Q c) ->
  forall s c, In c (replace_all m f s) -> In c s \/ Q c.
Proof.
  intros Hf s.
  apply (replace_all_ind m f
           (fun s out => forall c, In c out -> In c s \/ Q c)).
  - intros c [].
  - intros c s' out _ IH d [->|Hd]; [left; now left|].
    destruct (IH d Hd); [left; now right | now right].
  - intros c s' n out Hm IH d Hd.
    apply in_app_or in Hd. destruct Hd as [Hd|Hd].
    + destruct (Hf _ _ _ Hm Hd) as [Hin|HQ]; [left | now right].
      rewrite <- (firstn_skipn (S n) (c :: s')).
      apply in_or_app. now left.
    + destruct (IH d Hd) as [Hin|HQ]; [left | now right].
      right. now apply in_skipn in Hin.
Qed.

Lemma remove_all_In (m : matcher) (s : jsstring) (c : code_unit) :
  In c (remove_all m s) -> In c s.
Proof.
  intros H.
  destruct (replace_all_In m (fun _ => []) (fun _ => False)
              (fun _ _ _ _ (H : In _ []) => match H with end) s c H)
    as [Hin|[]].
  exact Hin.
Qed.

(** A quantity that adds up over concatenation is kept by a pass that
    keeps it on every match. *)
Lemma replace_all_measure (g : jsstring -> nat) (m : matcher)
    (f : jsstring -> jsstring) :
  (forall a b, g (a ++ b) = (g a + g b)%nat) ->
  (forall s n, m s = Some (S n) ->
               g (f (firstn (S n) s)) = g (firstn (S n) s)) ->
  forall s, g (replace_all m f s) = g s.
Proof.
  intros Hadd Hmatch s.
  apply (replace_all_ind m f (fun s out => g out = g s)).
  - reflexivity.
  - intros c s' out _ IH.
    change (g ([c] ++ out) = g ([c] ++ s')). now rewrite !Hadd, IH.
  - intros c s' n out Hm IH.
    rewrite Hadd, IH, (Hmatch _ _ Hm), <- Hadd.
    change (skipn n s') with (skipn (S n) (c :: s')).
    now rewrite firstn_skipn.
Qed.

(** A pass whose replacements are no longer than the matches does not
    lengthen the subject. *)
Lemma replace_all_length (m : matcher) (f : jsstring -> jsstring) :
  (forall t, t <> [] -> (List.length (f t) <= List.length t)%nat) ->
  forall s, (List.length (replace_all m f s) <= List.length s)%nat.
Proof.
  intros Hf s.
  apply (replace_all_ind m f
           (fun s out => (List.length out <= List.length s)%nat)).
  - reflexivity.
  - intros c s' out _ IH. simpl. lia.
  - intros c s' n out _ IH.
    rewrite length_app.
    assert (H1 := Hf (firstn (S n) (c :: s')) ltac:(discriminate)).
    assert (H2 : List.length (c :: s') =
                 (List.length (firstn (S n) (c :: s'))
                  + List.length (skipn n s'))%nat).
    { change (skipn n s') with (skipn (S n) (c :: s')).
      now rewrite <- length_app, firstn_skipn. }
    lia.
Qed.

Lemma remove_all_length (m : matcher) (s : jsstring) :
  (List.length (remove_all m s) <= List.length s)%nat.
Proof.
  apply replace_all_length. intros t _. simpl. lia.
Qed.

Lemma run_length_firstn (p : code_unit -> bool) (s : jsstring) :
  forallb p (firstn (run_length p s) s) = true.
Proof.
  induction s as [|c s' IH]; [reflexivity|].
  simpl. destruct (p c) eqn:E; [|reflexivity].
  simpl. now rewrite E, IH.
Qed.

(** The matches of the individual patterns. *)

Lemma class_match (p : code_unit -> bool) (s : jsstring) (n : nat) :
  class p s = Some (S n) ->
  exists c, firstn (S n) s = [c] /\ p c = true.
Proof.
  unfold class. destruct s as [|c s']; [discriminate|].
  destruct (p c) eqn:E; [|discriminate].
  intros [= <-]. exists c. now split.
Qed.

Lemma SUPPLEMENTARY_REGEX_match (s : jsstring) (n : nat) :
  SUPPLEMENTARY_REGEX s = Some (S n) ->
  exists hi lo, firstn (S n) s = [hi; lo]
                /\ is_supplementary_hidden hi lo = true.
Proof.
  unfold SUPPLEMENTARY_REGEX, is_supplementary_hidden.
  destruct s as [|h [|l s']]; try discriminate.
  destruct (h =? 0xDB40) eqn:Eh; simpl; [|discriminate].
  destruct (in_range 0xDC01 0xDC7F l) eqn:E1; simpl.
  - intros [= <-]. exists h, l. now rewrite Eh, E1.
  - destruct (in_range 0xDD00 0xDDEF l) eqn:E2; [|discriminate].
    intros [= <-]. exists h, l. now rewrite Eh, E1, E2.
Qed.

Lemma TRAILING_REGEX_match (s : jsstring) (n : nat) :
  TRAILING_REGEX s = Some (S n) ->
  run_length is_blank s = S n
  /\ forallb is_blank (firstn (S n) s) = true
  /\ at_line_end (skipn (S n) s) = true.
Proof.
  unfold TRAILING_REGEX.
  destruct ((0 <? run_length is_blank s)%nat
            && at_line_end (skipn (run_length is_blank s) s)) eqn:E;
    [|discriminate].
  intros [= Hn]. apply andb_true_iff in E. destruct E as [_ E].
  rewrite Hn in E. repeat split; [exact Hn | | exact E].
  rewrite <- Hn. apply run_length_firstn.
Qed.

Lemma SPACES_REGEX_match (s : jsstring) (n : nat) :
  SPACES_REGEX s = Some (S n) ->
  run_length (Z.eqb 0x20) s = S n
  /\ (2 <= S n)%nat
  /\ forallb (Z.eqb 0x20) (firstn (S n) s) = true.
Proof.
  unfold SPACES_REGEX.
  destruct (2 <=? run_length (Z.eqb 32) s)%nat eqn:E; [|discriminate].
  intros [= Hn]. apply Nat.leb_le in E. rewrite Hn in E.
  repeat split; [exact Hn | exact E |].
  rewrite <- Hn. apply run_length_firstn.
Qed.

Lemma fix_homoglyph_single (result : jsstring) (c : code_unit) :
  exists r, fix_homoglyph result [c] = [r]
            /\ (r = c \/ In (c, r) HOMOGLYPHS).
Proof.
  unfold fix_homoglyph.
  destruct (isExpectedChar result 0 c).
  - exists c. split; [reflexivity | now left].
  - destruct (lookup c HOMOGLYPHS) as [r|] eqn:Hl.
    + exists r. split; [reflexivity|]. right. now apply lookup_In.
    + exists c. split; [reflexivity | now left].
Qed.

(** ** clean: what reaches the output *)

Lemma strip_invisible_free (s : jsstring) :
  strippable_free (remove_all INVISIBLE_REGEX s).
Proof.
  intros c Hin. unfold INVISIBLE_REGEX in Hin.
  rewrite remove_all_class in Hin. apply filter_In in Hin.
  destruct Hin as [_ Hc]. now apply negb_true_iff.
Qed.

Lemma remove_all_free (m : matcher) (s : jsstring) :
  strippable_free s -> strippable_free (remove_all m s).
Proof.
  intros Hs c Hin. apply Hs. now apply remove_all_In in Hin.
Qed.

Lemma collapse_spaces_free (s : jsstring) :
  strippable_free s ->
  strippable_free (replace_all SPACES_REGEX (fun _ => lit " ") s).
Proof.
  intros Hs c Hin.
  apply (replace_all_In _ _ (fun c => c = 0x20)) in Hin.
  - destruct Hin as [Hin | ->]; [now apply Hs | reflexivity].
  - intros t n d _ [<-|[]]. now right.
Qed.

Lemma homoglyph_values_kept :
  forallb (fun kv => negb (in_INVISIBLE_REGEX (snd kv))) HOMOGLYPHS = true.
Proof. vm_compute. reflexivity. Qed.

Lemma fix_homoglyphs_free (result s : jsstring) :
  strippable_free s ->
  strippable_free (replace_all HOMOGLYPH_REGEX (fix_homoglyph result) s).
Proof.
  intros Hs c Hin.
  apply (replace_all_In _ _ (fun c => in_INVISIBLE_REGEX c = false)) in Hin.
  - destruct Hin as [Hin | Hc]; [now apply Hs | exact Hc].
  - intros t n d Hm Hd.
    apply class_match in Hm. destruct Hm as [c0 [Hc0 _]].
    rewrite Hc0 in Hd |- *.
    destruct (fix_homoglyph_single result c0) as [r [Hfr Hr]].
    rewrite Hfr in Hd. destruct Hd as [<-|[]].
    destruct Hr as [->|Hr]; [left; now left | right].
    pose proof homoglyph_values_kept as H.
    rewrite forallb_forall in H. specialize (H _ Hr).
    now apply negb_true_iff in H.
Qed.

Lemma clean_finish_free (result : jsstring) (options : clean_options) :
  strippable_free result -> strippable_free (clean_finish result options).
Proof.
  intros H. unfold clean_finish.
  apply collapse_spaces_free, remove_all_free.
  destruct (truthy (fixHomoglyphs options)); [|exact H].
  now apply fix_homoglyphs_free.
Qed.

Lemma clean_strip_free (text : jsstring) (options : clean_options) :
  strippable_free (clean_strip text options).
Proof.
  unfold clean_strip. apply remove_all_free, strip_invisible_free.
Qed.

Section Pipeline.

(** The platform's NFC normalizer, and the facts about Unicode
    normalization the properties below rest on.  Each is stated where it is
    first needed and is a hypothesis of the theorems that use it. *)
Variable normalize_NFC : jsstring -> jsstring.

(** NFC never produces a character of the class of [INVISIBLE_REGEX] from a
    text that holds none: no canonical mapping of Unicode leads into the
    controls, format characters, fillers and spaces of the registry from
    outside of them. *)
Hypothesis NFC_adds_no_strippable :
  forall s, strippable_free s -> strippable_free (normalize_NFC s).

Lemma clean_free (text : jsstring) (options : clean_options) :
  strippable_free (clean normalize_NFC text options).
Proof.
  unfold clean. apply clean_finish_free.
  destruct (not_false (normalize options)).
  - apply NFC_adds_no_strippable, clean_strip_free.
  - apply clean_strip_free.
Qed.

(** C2. Every character that [detect], called without [includeFormatting],
    has an entry for (a registry character outside category [formatting] or
    a generic C0/C1 control) does not occur in [clean(text)] under the
    default options. *)
Theorem detect_clean_agree (text : jsstring) (options : Detect.options) :
  truthy (Detect.includeFormatting options) = false ->
  exists r,
    detect text options = Normal r /\
    forall ch, In ch (map fst (Detect.chars r)) ->
               ~ In ch (clean normalize_NFC text default_options).
Proof.
  intros Hopt.
  destruct (detect_returns text options) as [r [Hr [_ Hmap]]].
  exists r. split; [exact Hr|].
  intros ch Hkey Hin.
  apply map_get_keys in Hkey. specialize (Hmap ch).
  rewrite Hopt, counted_strippable in Hmap.
  rewrite (clean_free text default_options ch Hin) in Hmap.
  simpl in Hmap.
  destruct (map_get ch (Detect.chars r)); [discriminate | now apply Hkey].
Qed.

End Pipeline.

(** The hypothesis of C2 at the identity normalizer, on a text holding a
    zero-width space, a control and a newline. *)
Lemma detect_clean_agree_witness :
  exists r,
    detect (lit "Hi" ++ [0x200B; 0x01; 0x0A] ++ lit "there")
      {| Detect.includeFormatting := None |} = Normal r /\
    forall ch, In ch (map fst (Detect.chars r)) ->
      ~ In ch (clean (fun s => s)
                 (lit "Hi" ++ [0x200B; 0x01; 0x0A] ++ lit "there")
                 default_options).
Proof.
  apply (detect_clean_agree (fun s => s)).
  - intros s Hs. exact Hs.
  - reflexivity.
Defined.

(** ** clean: newlines *)

Lemma occurrences_app (c : code_unit) (a b : jsstring) :
  occurrences c (a ++ b) = (occurrences c a + occurrences c b)%nat.
Proof. apply count_occ_app. Qed.

Lemma occurrences_none (p : code_unit -> bool) (c : code_unit) (s : jsstring) :
  forallb p s = true -> p c = false -> occurrences c s = O.
Proof.
  intros Hall Hc. apply count_occ_not_In. intros Hin.
  rewrite forallb_forall in Hall. specialize (Hall c Hin). congruence.
Qed.

Lemma strip_invisible_newlines (s : jsstring) :
  occurrences LF (remove_all INVISIBLE_REGEX s) = occurrences LF s.
Proof.
  apply replace_all_measure; [apply occurrences_app|].
  intros t n Hm. apply class_match in Hm. destruct Hm as [c [-> Hc]].
  symmetry. apply (occurrences_none (fun d => negb (d =? LF))); [|reflexivity].
  simpl. destruct (c =? LF) eqn:E; [|reflexivity].
  apply Z.eqb_eq in E. subst c. vm_compute in Hc. discriminate.
Qed.

Lemma strip_supplementary_newlines (s : jsstring) :
  occurrences LF (remove_all SUPPLEMENTARY_REGEX s) = occurrences LF s.
Proof.
  apply replace_all_measure; [apply occurrences_app|].
  intros t n Hm. apply SUPPLEMENTARY_REGEX_match in Hm.
  destruct Hm as [hi [lo [-> Hp]]].
  symmetry. apply (occurrences_none is_surrogate); [|reflexivity].
  unfold is_supplementary_hidden, in_range in Hp.
  unfold is_surrogate, in_range. simpl. lia.
Qed.

Lemma homoglyph_values_not_LF :
  forallb (fun kv => negb (fst kv =? LF) && negb (snd kv =? LF)) HOMOGLYPHS
  = true.
Proof. vm_compute. reflexivity. Qed.

Lemma fix_homoglyphs_newlines (result s : jsstring) :
  occurrences LF (replace_all HOMOGLYPH_REGEX (fix_homoglyph result) s)
  = occurrences LF s.
Proof.
  apply replace_all_measure; [apply occurrences_app|].
  intros t n Hm. apply class_match in Hm. destruct Hm as [c [-> Hc]].
  destruct (fix_homoglyph_single result c) as [r [-> Hr]].
  destruct Hr as [->|Hr]; [reflexivity|].
  pose proof homoglyph_values_not_LF as H.
  rewrite forallb_forall in H. specialize (H _ Hr). simpl in H.
  apply andb_true_iff in H. destruct H as [H1 H2].
  unfold occurrences. simpl.
  destruct (Z.eq_dec r LF) as [->|_]; [discriminate|].
  destruct (Z.eq_dec c LF) as [->|_]; [discriminate | reflexivity].
Qed.

Lemma strip_trailing_newlines (s : jsstring) :
  occurrences LF (remove_all TRAILING_REGEX s) = occurrences LF s.
Proof.
  apply replace_all_measure; [apply occurrences_app|].
  intros t n Hm. apply TRAILING_REGEX_match in Hm.
  destruct Hm as [_ [Hall _]].
  symmetry. now apply (occurrences_none is_blank).
Qed.

Lemma collapse_spaces_newlines (s : jsstring) :
  occurrences LF (replace_all SPACES_REGEX (fun _ => lit " ") s)
  = occurrences LF s.
Proof.
  apply replace_all_measure; [apply occurrences_app|].
  intros t n Hm. apply SPACES_REGEX_match in Hm.
  destruct Hm as [_ [_ Hall]].
  symmetry. now apply (occurrences_none (Z.eqb 0x20)).
Qed.

Section Newlines.

Variable normalize_NFC : jsstring -> jsstring.

(** The line feed is inert under NFC: it has no decomposition and takes
    part in no composition, so normalization neither drops nor creates
    one. *)
Hypothesis NFC_keeps_newlines :
  forall s, occurrences LF (normalize_NFC s) = occurrences LF s.

(** C10. With [stripHTML] off, [clean] returns a text with exactly as
    many line feeds (U+000A) as its input, whatever the other options. *)
Theorem clean_keeps_newlines (text : jsstring) (options : clean_options) :
  truthy (stripHTML options) = false ->
  occurrences LF (clean normalize_NFC text options) = occurrences LF text.
Proof.
  intros Hhtml. unfold clean, clean_finish, clean_strip. rewrite Hhtml.
  rewrite collapse_spaces_newlines, strip_trailing_newlines.
  assert (Hfix : forall r,
             occurrences LF
               (if truthy (fixHomoglyphs options)
                then replace_all HOMOGLYPH_REGEX (fix_homoglyph r) r else r)
             = occurrences LF r).
  { intros r. destruct (truthy (fixHomoglyphs options)); [|reflexivity].
    apply fix_homoglyphs_newlines. }
  rewrite Hfix.
  destruct (not_false (normalize options)).
  - now rewrite NFC_keeps_newlines, strip_supplementary_newlines,
      strip_invisible_newlines.
  - now rewrite strip_supplementary_newlines, strip_invisible_newlines.
Qed.

End Newlines.

(** C10 at the identity normalizer, on two lines with hidden characters,
    a homoglyph and trailing blanks. *)
Lemma clean_keeps_newlines_witness :
  occurrences LF
    (clean (fun s => s)
       (lit "a " ++ [0x200B; LF; 0x0435] ++ lit "  b " ++ [LF])
       {| normalize := None; fixHomoglyphs := Some true;
          stripSpaces := None; stripHTML := None |})
  = occurrences LF (lit "a " ++ [0x200B; LF; 0x0435] ++ lit "  b " ++ [LF]).
Proof.
  apply (clean_keeps_newlines (fun s => s)).
  - reflexivity.
  - reflexivity.
Defined.

(** ** clean: length *)

Lemma strip_html_length (s : jsstring) :
  (List.length (strip_html s) <= List.length s)%nat.
Proof.
  unfold strip_html.
  assert (H1 : forall (m : matcher) (c : code_unit) (t : jsstring),
             (List.length (replace_all m (fun _ => [c]) t)
              <= List.length t)%nat).
  { intros m c t. apply replace_all_length.
    intros [|x u] Hne; [congruence | simpl; lia]. }
  repeat (etransitivity; [apply H1|]).
  apply remove_all_length.
Qed.

Lemma clean_strip_length (text : jsstring) (options : clean_options) :
  (List.length (clean_strip text options) <= List.length text)%nat.
Proof.
  unfold clean_strip.
  etransitivity; [apply remove_all_length|].
  etransitivity; [apply remove_all_length|].
  destruct (truthy (stripHTML options)); [apply strip_html_length | lia].
Qed.

Lemma clean_finish_length (result : jsstring) (options : clean_options) :
  (List.length (clean_finish result options) <= List.length result)%nat.
Proof.
  unfold clean_finish.
  etransitivity.
  { apply replace_all_length. intros [|x u] Hne; [congruence | simpl; lia]. }
  etransitivity; [apply remove_all_length|].
  destruct (truthy (fixHomoglyphs options)); [|lia].
  apply replace_all_length.
  intros [|x [|y u]] Hne; [congruence | | reflexivity].
  destruct (fix_homoglyph_single result x) as [r [-> _]]. reflexivity.
Qed.

(** C3 fails where NFC lengthens: U+0958 DEVANAGARI LETTER QA is excluded
    from composition, so its normal form is the pair U+0915 U+093C, and no
    step of [clean] touches either.  No normalizer that agrees with NFC on
    this one character makes [clean] non-lengthening. *)
Lemma clean_lengthens_under_NFC :
  ~ exists normalize_NFC : jsstring -> jsstring,
      normalize_NFC [0x0958] = [0x0915; 0x093C] /\
      forall text options,
        (List.length (clean normalize_NFC text options)
         <= List.length text)%nat.
Proof.
  intros [nfc [Hqa Hlen]].
  specialize (Hlen [0x0958] default_options).
  unfold clean in Hlen.
  replace (clean_strip [0x0958] default_options) with [0x0958] in Hlen
    by (vm_compute; reflexivity).
  simpl in Hlen. rewrite Hqa in Hlen.
  replace (clean_finish [0x0915; 0x093C] default_options)
    with [0x0915; 0x093C] in Hlen by (vm_compute; reflexivity).
  simpl in Hlen. lia.
Qed.

(** C3, amended. Every step of [clean] other than normalization leaves
    the text no longer than it found it: the output is at most as long as
    the input whenever normalization is off or does not lengthen the
    stripped text it is applied to. *)
Theorem clean_length (normalize_NFC : jsstring -> jsstring)
    (text : jsstring) (options : clean_options) :
  (not_false (normalize options) = true ->
   (List.length (normalize_NFC (clean_strip text options))
    <= List.length (clean_strip text options))%nat) ->
  (List.length (clean normalize_NFC text options) <= List.length text)%nat.
Proof.
  intros Hnfc. unfold clean.
  etransitivity; [apply clean_finish_length|].
  pose proof (clean_strip_length text options) as Hs.
  destruct (not_false (normalize options)); [|exact Hs].
  specialize (Hnfc eq_refl). lia.
Qed.

(** The amended C3 with normalization off, on markup with entities. *)
Lemma clean_length_witness :
  (List.length
     (clean (fun s => s ++ s) (lit "<b>a &amp; b</b>  " ++ [0x200B%Z])
        {| normalize := Some false; fixHomoglyphs := None;
           stripSpaces := None; stripHTML := Some true |})
   <= List.length (lit "<b>a &amp; b</b>  " ++ [0x200B%Z]))%nat.
Proof.
  apply (clean_length (fun s => s ++ s)).
  simpl. discriminate.
Defined.

(** ** detectWhitespaceAnomalies: mixed line endings *)

Lemma starts_with_CRLF (s : jsstring) :
  starts_with false [CR; LF] s = true <-> exists b, s = CR :: LF :: b.
Proof.
  destruct s as [|c [|d b]]; cbn [starts_with].
  - split; [discriminate | intros [b H]; discriminate].
  - rewrite andb_false_r. split; [discriminate | intros [b H]; discriminate].
  - rewrite andb_true_r, andb_true_iff, !Z.eqb_eq. split.
    + intros [<- <-]. now exists b.
    + intros [b' [= -> -> _]]. now split.
Qed.

Lemma includes_CRLF (text : jsstring) :
  includes [CR; LF] text = true <-> has_CRLF text.
Proof.
  unfold has_CRLF.
  induction text as [|c rest IH].
  - split; [discriminate|]. intros [[|x a] [b H]]; discriminate.
  - change (includes [CR; LF] (c :: rest))
      with (starts_with false [CR; LF] (c :: rest) || includes [CR; LF] rest).
    rewrite orb_true_iff, IH, starts_with_CRLF. split.
    + intros [[b ->]|[a [b ->]]].
      * now exists [], b.
      * now exists (c :: a), b.
    + intros [[|x a] [b H]].
      * left. injection H as -> ->. now exists b.
      * right. injection H as -> ->. now exists a, b.
Qed.

Lemma bare_LF_after_cons (prev : option code_unit) (c : code_unit)
    (s : jsstring) :
  bare_LF_after prev (c :: s) <->
  (c = LF /\ prev <> Some CR) \/ bare_LF_after (Some c) s.
Proof.
  unfold bare_LF_after. split.
  - intros [[|x a] [b [Heq [Hprev Hcr]]]].
    + left. injection Heq as -> ->. split; [reflexivity | now apply Hprev].
    + right. injection Heq as Hx Hs. subst x s. exists a, b.
      split; [reflexivity|]. split.
      * intros -> [= ->]. now apply (Hcr []).
      * intros a' ->. now apply (Hcr (c :: a')).
  - intros [[-> Hprev]|[a [b [-> [Hfirst Hcr]]]]].
    + exists [], s. split; [reflexivity|]. split; [now intros _|].
      intros [|x a']; discriminate.
    + exists (c :: a), b. split; [reflexivity|]. split; [discriminate|].
      intros [|x a'] Heq.
      * injection Heq as -> ->. now apply Hfirst.
      * injection Heq as -> ->. now apply (Hcr a').
Qed.

Lemma match_from_BARE_LF (prev : option code_unit) (c : code_unit)
    (s : jsstring) :
  match_from BARE_LF_REGEX prev O (c :: s) =
  if (c =? LF)
     && negb (match prev with Some p => p =? CR | None => false end)
  then [c] :: match_from BARE_LF_REGEX (Some c) O s
  else match_from BARE_LF_REGEX (Some c) O s.
Proof.
  cbn [match_from BARE_LF_REGEX]. fold LF CR.
  now destruct ((c =? LF)
                && negb (match prev with Some p => p =? CR | None => false end)).
Qed.

Lemma BARE_LF_matches (s : jsstring) :
  forall prev,
    match_from BARE_LF_REGEX prev O s <> [] <-> bare_LF_after prev s.
Proof.
  induction s as [|c s' IH]; intros prev.
  - split; [now intros H|]. intros [[|x a] [b [H _]]]; discriminate.
  - rewrite bare_LF_after_cons, <- IH, match_from_BARE_LF.
    assert (Hp : (match prev with Some p => p =? CR | None => false end)
                 = true <-> prev = Some CR).
    { destruct prev as [p|]; [|split; discriminate].
      rewrite Z.eqb_eq. split; [now intros -> | now intros [= ->]]. }
    destruct (c =? LF) eqn:Ec.
    + apply Z.eqb_eq in Ec.
      destruct (match prev with Some p => p =? CR | None => false end)
        eqn:Epr; cbn [andb negb].
      * split; [now right|]. intros [[_ H]|H]; [|exact H].
        exfalso. apply H. now apply Hp.
      * split; [|discriminate]. intros _. left. split; [exact Ec|].
        intros H. apply Hp in H. congruence.
    + apply Z.eqb_neq in Ec. cbn [andb]. split; [now right|].
      intros [[H _]|H]; [contradiction | exact H].
Qed.

Lemma test_bare_LF (text : jsstring) :
  RegExp_test BARE_LF_REGEX text = true <-> has_bare_LF text.
Proof.
  unfold RegExp_test.
  assert (H : match_from BARE_LF_REGEX None O text <> [] <-> has_bare_LF text).
  { rewrite BARE_LF_matches. unfold bare_LF_after, has_bare_LF.
    split.
    - intros [a [b [H1 [_ H2]]]]. now exists a, b.
    - intros [a [b [H1 H2]]]. exists a, b. split; [exact H1|].
      split; [discriminate | exact H2]. }
  rewrite <- H.
  destruct (match_from BARE_LF_REGEX None O text); split;
    congruence.
Qed.

Lemma special_spaces_spec (text : jsstring) :
  forall entries total issues,
  exists found,
    special_spaces text entries total issues =
      {| Whitespace.total :=
           (total + list_sum (map Whitespace.count found))%nat;
         Whitespace.issues := issues ++ found |}
    /\ filter is_mixed_endings found = [].
Proof.
  induction entries as [|[ch info] rest IH]; intros total issues.
  - exists []. simpl. now rewrite Nat.add_0_r, app_nil_r.
  - cbn [special_spaces].
    destruct (String_match _ text) as [matches|]; [|apply IH].
    match goal with
    | |- context [special_spaces text rest ?t (issues ++ [?i])] =>
        destruct (IH t (issues ++ [i])) as [found [Heq Hf]];
        exists (i :: found)
    end.
    rewrite Heq. split.
    + cbn [map list_sum fold_right Whitespace.count].
      rewrite <- app_assoc. f_equal.
      change (fold_right Nat.add O (map Whitespace.count found))
        with (list_sum (map Whitespace.count found)).
      lia.
    + cbn [filter is_mixed_endings Whitespace.type]. exact Hf.
Qed.

(** C9. The total of [detectWhitespaceAnomalies] is the sum of the counts
    of its issues, and among them the mixed-endings check leaves exactly
    one issue, of count 1, when the text holds both a CRLF and a line feed
    not preceded by a carriage return, and none otherwise: it adds at most
    1 to the total however many such line ends there are. *)
Theorem mixed_endings_binary (text : jsstring) :
  let r := detectWhitespaceAnomalies text in
  Whitespace.total r = list_sum (map Whitespace.count (Whitespace.issues r))
  /\ (has_CRLF text /\ has_bare_LF text ->
      filter is_mixed_endings (Whitespace.issues r) = [mixed_endings_issue])
  /\ (~ (has_CRLF text /\ has_bare_LF text) ->
      filter is_mixed_endings (Whitespace.issues r) = []).
Proof.
  assert (Hdec : includes [CR; LF] text && RegExp_test BARE_LF_REGEX text
                 = true <-> has_CRLF text /\ has_bare_LF text).
  { now rewrite andb_true_iff, includes_CRLF, test_bare_LF. }
  unfold detectWhitespaceAnomalies.
  change [0x0D; 0x0A] with [CR; LF].
  destruct (String_match (no_context TRAILING_REGEX) text) as [tm|];
    destruct (String_match DOUBLE_SPACE_REGEX text) as [dm|];
    destruct (includes [CR; LF] text && RegExp_test BARE_LF_REGEX text)
      eqn:Hmixed;
    match goal with
    | |- context [special_spaces text spaceChars ?t ?i] =>
        destruct (special_spaces_spec text spaceChars t i)
          as [found [-> Hfound]]
    end;
    cbn [Whitespace.total Whitespace.issues app];
    (split; [rewrite ?map_app, ?list_sum_app; simpl; lia|]);
    rewrite ?filter_app, ?Hfound; simpl; rewrite ?Hfound;
    (split; [intros Hboth | intros Hnot]);
    try reflexivity;
    try (apply Hdec in Hboth; congruence);
    try (exfalso; apply Hnot, Hdec; reflexivity).
Qed.

(** ** Well-formed UTF-16 through the passes *)

Lemma well_formed_from_false (s : jsstring) :
  well_formed_from false s = well_formed s.
Proof.
  remember (List.length s) as k eqn:Hk. revert s Hk.
  induction k as [k IH] using lt_wf_ind. intros [|c s'] Hk; [reflexivity|].
  simpl. destruct (is_high_surrogate c).
  - destruct s' as [|d s'']; [reflexivity|]. simpl.
    destruct (is_low_surrogate d); [|reflexivity]. simpl.
    apply (IH (List.length s'')); [simpl in Hk; lia | reflexivity].
  - f_equal. apply (IH (List.length s')); [simpl in Hk; lia | reflexivity].
Qed.

Lemma surrogate_disjoint (c : code_unit) :
  is_high_surrogate c = true -> is_low_surrogate c = false.
Proof. unfold is_high_surrogate, is_low_surrogate, in_range. lia. Qed.

Lemma not_surrogate_high (c : code_unit) :
  is_surrogate c = false -> is_high_surrogate c = false.
Proof. unfold is_surrogate, is_high_surrogate, in_range. lia. Qed.

Lemma not_surrogate_low (c : code_unit) :
  is_surrogate c = false -> is_low_surrogate c = false.
Proof. unfold is_surrogate, is_low_surrogate, in_range. lia. Qed.

Lemma well_formed_after (t : jsstring) :
  forall c pending rest,
    well_formed_from pending ((c :: t) ++ rest) = true ->
    is_high_surrogate (last (c :: t) 0) = false ->
    well_formed_from false rest = true.
Proof.
  induction t as [|d t IH]; intros c pending rest Hwf Hlast.
  - simpl in Hwf, Hlast. destruct pending.
    + now apply andb_true_iff in Hwf.
    + rewrite Hlast in Hwf. now apply andb_true_iff in Hwf.
  - change (last (c :: d :: t) 0) with (last (d :: t) 0) in Hlast.
    change ((c :: d :: t) ++ rest) with (c :: ((d :: t) ++ rest)) in Hwf.
    cbn [well_formed_from] in Hwf.
    destruct pending.
    + apply andb_true_iff in Hwf. destruct Hwf as [_ Hwf].
      now apply (IH d false rest).
    + destruct (is_high_surrogate c).
      * now apply (IH d true rest).
      * apply andb_true_iff in Hwf. destruct Hwf as [_ Hwf].
        now apply (IH d false rest).
Qed.

Lemma pair_closed_split (t rest : jsstring) (pending : bool) :
  pair_closed t ->
  well_formed_from pending (t ++ rest) = true ->
  pending = false /\ well_formed_from false rest = true.
Proof.
  intros [Hfirst Hlast] Hwf.
  destruct t as [|c t]; [contradiction|]. split.
  - destruct pending; [|reflexivity].
    simpl in Hwf. rewrite Hfirst in Hwf. discriminate.
  - now apply (well_formed_after t c pending rest).
Qed.

Lemma no_surrogate_app (r out : jsstring) :
  no_surrogate r = true ->
  well_formed_from false out = true ->
  well_formed_from false (r ++ out) = true.
Proof.
  intros Hr Hout. induction r as [|c r IH]; [exact Hout|].
  simpl in Hr. apply andb_true_iff in Hr. destruct Hr as [Hc Hr].
  apply negb_true_iff in Hc. simpl.
  rewrite (not_surrogate_high c Hc), (not_surrogate_low c Hc). simpl.
  now apply IH.
Qed.

Lemma no_surrogate_pair_closed (t : jsstring) :
  t <> [] -> no_surrogate t = true -> pair_closed t.
Proof.
  intros Hne Hall. unfold no_surrogate in Hall.
  rewrite forallb_forall in Hall. split.
  - destruct t as [|c t]; [congruence|].
    apply not_surrogate_low, negb_true_iff, Hall. now left.
  - apply not_surrogate_high, negb_true_iff, Hall.
    destruct (exists_last Hne) as [u [x ->]].
    rewrite last_last. apply in_or_app. right. now left.
Qed.

(** A pass keeps the text well formed when its matches do not cut a pair and
    its replacements hold no surrogate. *)
Lemma replace_all_well_formed (m : matcher) (f : jsstring -> jsstring) :
  (forall t n, m t = Some (S n) ->
               pair_closed (firstn (S n) t)
               /\ no_surrogate (f (firstn (S n) t)) = true) ->
  forall s pending,
    well_formed_from pending s = true ->
    well_formed_from pending (replace_all m f s) = true.
Proof.
  intros Hm s.
  apply (replace_all_ind m f
           (fun s out => forall pending,
                well_formed_from pending s = true ->
                well_formed_from pending out = true)).
  - intros pending H. exact H.
  - intros c s' out _ IH pending Hwf. simpl in Hwf |- *.
    destruct pending.
    + apply andb_true_iff in Hwf. destruct Hwf as [Hc Hwf].
      rewrite Hc. simpl. now apply IH.
    + destruct (is_high_surrogate c); [now apply IH|].
      apply andb_true_iff in Hwf. destruct Hwf as [Hc Hwf].
      rewrite Hc. simpl. now apply IH.
  - intros c s' n out Hmatch IH pending Hwf.
    destruct (Hm _ _ Hmatch) as [Hclosed Hrepl].
    rewrite <- (firstn_skipn (S n) (c :: s')) in Hwf.
    destruct (pair_closed_split _ _ _ Hclosed Hwf) as [-> Hrest].
    apply no_surrogate_app; [exact Hrepl|].
    now apply IH.
Qed.

Lemma forallb_impl_In (p q : code_unit -> bool) (t : jsstring) :
  (forall c, p c = true -> q c = true) ->
  forallb p t = true -> forallb q t = true.
Proof.
  intros Hpq Hp. rewrite forallb_forall in *. auto.
Qed.

Lemma blank_no_surrogate (c : code_unit) :
  is_blank c = true -> negb (is_surrogate c) = true.
Proof. unfold is_blank, is_surrogate, in_range. lia. Qed.

Lemma space_no_surrogate (c : code_unit) :
  (0x20 =? c) = true -> negb (is_surrogate c) = true.
Proof. unfold is_surrogate, in_range. lia. Qed.

Lemma registry_no_surrogate :
  forallb (fun c => negb (is_surrogate c)) STRIPPABLE_CHARS = true.
Proof. vm_compute. reflexivity. Qed.

Lemma homoglyphs_no_surrogate :
  forallb (fun kv => negb (is_surrogate (fst kv))
                     && negb (is_surrogate (snd kv))) HOMOGLYPHS = true.
Proof. vm_compute. reflexivity. Qed.

Lemma invisible_no_surrogate (c : code_unit) :
  in_INVISIBLE_REGEX c = true -> is_surrogate c = false.
Proof.
  rewrite in_INVISIBLE_REGEX_split, orb_true_iff. intros [H|H].
  - apply existsb_eqb_In in H.
    pose proof registry_no_surrogate as Hreg.
    rewrite forallb_forall in Hreg. now apply negb_true_iff, Hreg.
  - unfold is_control_code, in_range in H.
    unfold is_surrogate, in_range. lia.
Qed.

Lemma homoglyph_no_surrogate (c : code_unit) :
  in_HOMOGLYPH_REGEX c = true -> is_surrogate c = false.
Proof.
  unfold in_HOMOGLYPH_REGEX. rewrite existsb_eqb_In, in_map_iff.
  intros [[k v] [Hk Hin]]. simpl in Hk. subst k.
  pose proof homoglyphs_no_surrogate as H.
  rewrite forallb_forall in H. specialize (H _ Hin). simpl in H.
  apply andb_true_iff in H. now apply negb_true_iff.
Qed.

Lemma single_pair_closed (c : code_unit) :
  is_surrogate c = false -> pair_closed [c].
Proof.
  intros H. split; [now apply not_surrogate_low | now apply not_surrogate_high].
Qed.

Lemma strip_invisible_well_formed (s : jsstring) (pending : bool) :
  well_formed_from pending s = true ->
  well_formed_from pending (remove_all INVISIBLE_REGEX s) = true.
Proof.
  apply replace_all_well_formed. intros t n Hm.
  apply class_match in Hm. destruct Hm as [c [-> Hc]].
  split; [|reflexivity].
  now apply single_pair_closed, invisible_no_surrogate.
Qed.

Lemma strip_supplementary_well_formed (s : jsstring) (pending : bool) :
  well_formed_from pending s = true ->
  well_formed_from pending (remove_all SUPPLEMENTARY_REGEX s) = true.
Proof.
  apply replace_all_well_formed. intros t n Hm.
  apply SUPPLEMENTARY_REGEX_match in Hm. destruct Hm as [hi [lo [-> Hp]]].
  split; [|reflexivity].
  unfold is_supplementary_hidden, in_range in Hp.
  split; simpl; unfold is_low_surrogate, is_high_surrogate, in_range; lia.
Qed.

Lemma fix_homoglyphs_well_formed (result s : jsstring) (pending : bool) :
  well_formed_from pending s = true ->
  well_formed_from pending
    (replace_all HOMOGLYPH_REGEX (fix_homoglyph result) s) = true.
Proof.
  apply replace_all_well_formed. intros t n Hm.
  apply class_match in Hm. destruct Hm as [c [-> Hc]].
  pose proof (homoglyph_no_surrogate c Hc) as Hns.
  split; [now apply single_pair_closed|].
  destruct (fix_homoglyph_single result c) as [r [-> Hr]].
  simpl. rewrite andb_true_r. destruct Hr as [->|Hr].
  - now rewrite Hns.
  - pose proof homoglyphs_no_surrogate as H.
    rewrite forallb_forall in H. specialize (H _ Hr). simpl in H.
    now apply andb_true_iff in H.
Qed.

Lemma strip_trailing_well_formed (s : jsstring) (pending : bool) :
  well_formed_from pending s = true ->
  well_formed_from pending (remove_all TRAILING_REGEX s) = true.
Proof.
  apply replace_all_well_formed. intros t n Hm.
  pose proof Hm as Hsome. apply TRAILING_REGEX_match in Hm.
  destruct Hm as [Hrun [Hall _]].
  split; [|reflexivity].
  apply no_surrogate_pair_closed.
  - destruct t; [discriminate Hrun | discriminate].
  - exact (forallb_impl_In _ _ _ blank_no_surrogate Hall).
Qed.

Lemma collapse_spaces_well_formed (s : jsstring) (pending : bool) :
  well_formed_from pending s = true ->
  well_formed_from pending
    (replace_all SPACES_REGEX (fun _ => lit " ") s) = true.
Proof.
  apply replace_all_well_formed. intros t n Hm.
  apply SPACES_REGEX_match in Hm. destruct Hm as [Hrun [_ Hall]].
  split; [|reflexivity].
  apply no_surrogate_pair_closed.
  - destruct t; [discriminate Hrun | discriminate].
  - exact (forallb_impl_In _ _ _ space_no_surrogate Hall).
Qed.

(** Matches of a literal made of ASCII hold no surrogate, also when case
    is ignored. *)
Lemma literal_match_no_surrogate (ci : bool) (l : jsstring) :
  forallb (fun a => a <? 128) l = true ->
  forall t, starts_with ci l t = true ->
            no_surrogate (firstn (List.length l) t) = true.
Proof.
  induction l as [|a l IH]; intros Hl t Hs; [reflexivity|].
  destruct t as [|c t]; [discriminate|].
  cbn [forallb] in Hl. apply andb_true_iff in Hl. destruct Hl as [Ha Hl].
  cbn [starts_with] in Hs. apply andb_true_iff in Hs. destruct Hs as [Hc Hs].
  cbn [List.length firstn no_surrogate forallb].
  apply andb_true_iff. split; [|now apply IH].
  assert (Hup : upper a = upper c \/ a = c).
  { destruct ci; apply Z.eqb_eq in Hc; tauto. }
  unfold upper, in_range in Hup. unfold is_surrogate, in_range.
  destruct ((97 <=? a) && (a <=? 122)) eqn:E1;
    destruct ((97 <=? c) && (c <=? 122)) eqn:E2; lia.
Qed.

Lemma literal_well_formed (l : jsstring) (r : code_unit) (s : jsstring)
    (pending : bool) :
  l <> [] ->
  forallb (fun a => a <? 128) l = true ->
  is_surrogate r = false ->
  well_formed_from pending s = true ->
  well_formed_from pending (replace_all (literal true l) (fun _ => [r]) s)
  = true.
Proof.
  intros Hne Hl Hr.
  apply replace_all_well_formed. intros t n Hm.
  unfold literal in Hm.
  destruct (starts_with true l t) eqn:Hs; [|discriminate].
  injection Hm as Hn. rewrite <- Hn. split.
  - apply no_surrogate_pair_closed.
    + destruct l as [|a l]; [congruence|].
      destruct t; [discriminate Hs | discriminate].
    + now apply (literal_match_no_surrogate true).
  - simpl. now rewrite Hr.
Qed.

Lemma run_length_stop (p : code_unit -> bool) (s : jsstring)
    (x : code_unit) (r : jsstring) :
  skipn (run_length p s) s = x :: r -> p x = false.
Proof.
  induction s as [|c s IH]; [discriminate|].
  simpl. destruct (p c) eqn:E.
  - exact IH.
  - simpl. now intros [= <- _].
Qed.

Lemma firstn_S_skipn {A} (k : nat) (s : list A) (x : A) (r : list A) :
  skipn k s = x :: r -> firstn (S k) s = firstn k s ++ [x].
Proof.
  revert s. induction k as [|k IH]; intros [|c s] H; try discriminate.
  - simpl in H. now injection H as -> _.
  - simpl in H. rewrite (firstn_cons (S k)), (firstn_cons k), (IH s H).
    reflexivity.
Qed.

Lemma TAG_REGEX_match (t : jsstring) (n : nat) :
  TAG_REGEX t = Some (S n) ->
  exists inner, firstn (S n) t = 0x3C :: inner ++ [0x3E].
Proof.
  unfold TAG_REGEX. destruct t as [|c s']; [discriminate|].
  destruct (c =? 0x3C) eqn:Ec; [|discriminate].
  apply Z.eqb_eq in Ec. subst c.
  set (k := run_length (fun d => negb (d =? 0x3E)) s').
  destruct (skipn k s') as [|x r] eqn:Hk; [discriminate|].
  intros [= <-].
  pose proof (run_length_stop _ _ _ _ Hk) as Hx.
  apply negb_false_iff, Z.eqb_eq in Hx. subst x.
  exists (firstn k s'). cbn [firstn]. f_equal.
  now apply firstn_S_skipn with (r := r).
Qed.

Lemma strip_tags_well_formed (s : jsstring) (pending : bool) :
  well_formed_from pending s = true ->
  well_formed_from pending (remove_all TAG_REGEX s) = true.
Proof.
  apply replace_all_well_formed. intros t n Hm.
  apply TAG_REGEX_match in Hm. destruct Hm as [inner ->].
  split; [|reflexivity]. split; [reflexivity|].
  change (0x3C :: inner ++ [0x3E]) with ((0x3C :: inner) ++ [0x3E]).
  rewrite last_last. reflexivity.
Qed.

Lemma strip_html_well_formed (s : jsstring) :
  well_formed s = true -> well_formed (strip_html s) = true.
Proof.
  rewrite <- !well_formed_from_false. intros H. unfold strip_html.
  repeat (apply literal_well_formed;
          [discriminate | reflexivity | reflexivity |]).
  now apply strip_tags_well_formed.
Qed.

Lemma clean_strip_well_formed (text : jsstring) (options : clean_options) :
  well_formed text = true -> well_formed (clean_strip text options) = true.
Proof.
  intros H. unfold clean_strip.
  rewrite <- well_formed_from_false.
  apply strip_supplementary_well_formed, strip_invisible_well_formed.
  rewrite well_formed_from_false.
  destruct (truthy (stripHTML options));
    [now apply strip_html_well_formed | exact H].
Qed.

Lemma clean_finish_well_formed (result : jsstring) (options : clean_options) :
  well_formed result = true -> well_formed (clean_finish result options) = true.
Proof.
  rewrite <- !well_formed_from_false. intros H. unfold clean_finish.
  apply collapse_spaces_well_formed, strip_trailing_well_formed.
  destruct (truthy (fixHomoglyphs options));
    [now apply fix_homoglyphs_well_formed | exact H].
Qed.

(** C4 fails on an unpaired surrogate: a lone U+D800 comes back as it
    went in (normalization is off here, so the normalizer plays no
    part). *)
Lemma clean_keeps_lone_surrogate :
  well_formed
    (clean (fun s => s) [0xD800]
       {| normalize := Some false; fixHomoglyphs := None;
          stripSpaces := None; stripHTML := None |})
  <> true.
Proof. vm_compute. discriminate. Qed.

(** On ill-formed input an unpaired surrogate is not always kept either:
    the two halves of a hidden pair around a zero-width space are removed
    once the space is gone, and two halves of any other pair come
    together. *)
Lemma clean_joins_separated_surrogates :
  clean (fun s => s) [0xDB40; 0x200B; 0xDC01]
    {| normalize := Some false; fixHomoglyphs := None;
       stripSpaces := None; stripHTML := None |}
  = []
  /\ clean (fun s => s) [0xD83D; 0x200B; 0xDE00]
       {| normalize := Some false; fixHomoglyphs := None;
          stripSpaces := None; stripHTML := None |}
     = [0xD83D; 0xDE00].
Proof. vm_compute. split; reflexivity. Qed.

Section WellFormed.

Variable normalize_NFC : jsstring -> jsstring.

(** NFC maps well-formed UTF-16 to well-formed UTF-16: it works on code
    points and encodes what it produces. *)
Hypothesis NFC_well_formed :
  forall s, well_formed s = true -> well_formed (normalize_NFC s) = true.

(** C4, amended. On a well-formed input (no unpaired surrogate), [clean]
    returns a well-formed text, whatever the options. *)
Theorem clean_well_formed (text : jsstring) (options : clean_options) :
  well_formed text = true ->
  well_formed (clean normalize_NFC text options) = true.
Proof.
  intros H. unfold clean. apply clean_finish_well_formed.
  pose proof (clean_strip_well_formed text options H) as Hs.
  destruct (not_false (normalize options)); [|exact Hs].
  now apply NFC_well_formed.
Qed.

End WellFormed.

(** The amended C4 at the identity normalizer, on markup holding an emoji
    (a surrogate pair), a Tag character, an entity and a homoglyph. *)
Lemma clean_well_formed_witness :
  well_formed
    (clean (fun s => s)
       (lit "<i>" ++ [0xD83D; 0xDE00; 0xDB40; 0xDC41; 0x0435]
        ++ lit " &amp; </i> ")
       {| normalize := None; fixHomoglyphs := Some true;
          stripSpaces := None; stripHTML := Some true |}) = true.
Proof.
  apply (clean_well_formed (fun s => s)).
  - intros s Hs. exact Hs.
  - vm_compute. reflexivity.
Defined.

(** ** Passes that find nothing to do *)

Lemma replace_all_never (m : matcher) (f : jsstring -> jsstring)
    (s : jsstring) :
  never_matches m s -> replace_all m f s = s.
Proof.
  induction s as [|c s' IH]; [reflexivity|].
  intros [Hm Hrest]. rewrite replace_all_cons.
  destruct Hm as [-> | ->]; now rewrite IH.
Qed.

Lemma remove_all_never (m : matcher) (s : jsstring) :
  never_matches m s -> remove_all m s = s.
Proof. apply replace_all_never. Qed.

Lemma never_matches_skipn (m : matcher) (n : nat) (s : jsstring) :
  never_matches m s -> never_matches m (skipn n s).
Proof.
  revert s. induction n as [|n IH]; intros [|c s] H; try exact H.
  simpl. apply IH. now destruct H.
Qed.

Lemma strip_invisible_nothing (s : jsstring) :
  strippable_free s -> remove_all INVISIBLE_REGEX s = s.
Proof.
  intros Hs. unfold INVISIBLE_REGEX. rewrite remove_all_class.
  induction s as [|c s IH]; [reflexivity|].
  simpl. rewrite (Hs c (or_introl eq_refl)). simpl. f_equal.
  apply IH. intros d Hd. apply Hs. now right.
Qed.

(** *** Hidden supplementary pairs *)

Lemma SUPPLEMENTARY_REGEX_hidden (hi lo : code_unit) (r : jsstring) :
  SUPPLEMENTARY_REGEX (hi :: lo :: r) =
  if is_supplementary_hidden hi lo then Some 2%nat else None.
Proof.
  unfold SUPPLEMENTARY_REGEX, is_supplementary_hidden.
  destruct (hi =? 0xDB40); [|reflexivity]. simpl.
  destruct (in_range 0xDC01 0xDC7F lo); [reflexivity|].
  now destruct (in_range 0xDD00 0xDDEF lo).
Qed.

Lemma SUPPLEMENTARY_REGEX_shape (s : jsstring) (n : nat) :
  SUPPLEMENTARY_REGEX s = Some (S n) ->
  n = 1%nat /\
  exists hi lo r, s = hi :: lo :: r /\ is_supplementary_hidden hi lo = true.
Proof.
  destruct s as [|hi [|lo r]]; try discriminate.
  rewrite SUPPLEMENTARY_REGEX_hidden.
  destruct (is_supplementary_hidden hi lo) eqn:E; [|discriminate].
  intros [= <-]. split; [reflexivity|]. now exists hi, lo, r.
Qed.

Lemma hidden_surrogates (hi lo : code_unit) :
  is_supplementary_hidden hi lo = true ->
  is_high_surrogate hi = true /\ is_low_surrogate lo = true.
Proof.
  unfold is_supplementary_hidden, is_high_surrogate, is_low_surrogate,
    in_range. lia.
Qed.

Lemma supplementary_free_cons (c : code_unit) (s : jsstring) :
  supplementary_free (c :: s) =
  match s with
  | lo :: _ => negb (is_supplementary_hidden c lo)
  | [] => true
  end && supplementary_free s.
Proof. reflexivity. Qed.

Lemma supplementary_free_nothing (s : jsstring) :
  supplementary_free s = true -> never_matches SUPPLEMENTARY_REGEX s.
Proof.
  induction s as [|c s IH]; [now intros _|].
  rewrite supplementary_free_cons. intros H.
  apply andb_true_iff in H. destruct H as [Hc Hs].
  split; [|now apply IH]. left.
  destruct s as [|lo r]; [reflexivity|].
  rewrite SUPPLEMENTARY_REGEX_hidden.
  apply negb_true_iff in Hc. now rewrite Hc.
Qed.

(** On well-formed text the supplementary pass leaves no hidden pair: the
    pairs it removes are whole characters, so no two halves meet. *)
Lemma strip_supplementary_free (s : jsstring) :
  forall pending,
    well_formed_from pending s = true ->
    supplementary_free (remove_all SUPPLEMENTARY_REGEX s) = true
    /\ (pending = true ->
        hd_error (remove_all SUPPLEMENTARY_REGEX s) = hd_error s).
Proof.
  unfold remove_all.
  apply (replace_all_ind SUPPLEMENTARY_REGEX (fun _ => [])
           (fun s out => forall pending,
                well_formed_from pending s = true ->
                supplementary_free out = true
                /\ (pending = true -> hd_error out = hd_error s))).
  - intros pending _. now split.
  - intros c s' out Hno IH pending Hwf.
    split; [|reflexivity].
    rewrite supplementary_free_cons.
    cbn [well_formed_from] in Hwf.
    destruct pending.
    + apply andb_true_iff in Hwf. destruct Hwf as [Hlow Hwf].
      destruct (IH false Hwf) as [Hfree _]. rewrite Hfree, andb_true_r.
      destruct out as [|lo out']; [reflexivity|].
      apply negb_true_iff, not_true_iff_false. intros Hh.
      apply hidden_surrogates in Hh. destruct Hh as [Hh _].
      apply surrogate_disjoint in Hh. congruence.
    + destruct (is_high_surrogate c) eqn:Hhigh.
      * destruct (IH true Hwf) as [Hfree Hhd].
        rewrite Hfree, andb_true_r.
        destruct out as [|lo out']; [reflexivity|].
        specialize (Hhd eq_refl).
        destruct s' as [|d s'']; [discriminate|].
        injection Hhd as <-.
        apply negb_true_iff, not_true_iff_false. intros Hh.
        rewrite SUPPLEMENTARY_REGEX_hidden, Hh in Hno.
        destruct Hno; discriminate.
      * apply andb_true_iff in Hwf. destruct Hwf as [_ Hwf].
        destruct (IH false Hwf) as [Hfree _]. rewrite Hfree, andb_true_r.
        destruct out as [|lo out']; [reflexivity|].
        apply negb_true_iff, not_true_iff_false. intros Hh.
        apply hidden_surrogates in Hh. destruct Hh as [Hh _]. congruence.
  - intros c s' n out Hm IH pending Hwf.
    apply SUPPLEMENTARY_REGEX_shape in Hm.
    destruct Hm as [-> [hi [lo [r [Heq Hh]]]]].
    injection Heq as -> ->.
    apply hidden_surrogates in Hh. destruct Hh as [Hhigh Hlow].
    cbn [well_formed_from] in Hwf.
    destruct pending.
    + rewrite (surrogate_disjoint _ Hhigh) in Hwf. discriminate.
    + rewrite Hhigh, Hlow in Hwf. simpl in Hwf.
      split; [|discriminate].
      now apply (IH false).
Qed.

Lemma supplementary_free_skipn (n : nat) (s : jsstring) :
  supplementary_free s = true -> supplementary_free (skipn n s) = true.
Proof.
  revert s. induction n as [|n IH]; intros [|c s] H; try exact H.
  rewrite supplementary_free_cons in H. apply andb_true_iff in H.
  simpl. apply IH. now destruct H.
Qed.

Lemma no_surrogate_free_app (r out : jsstring) :
  no_surrogate r = true ->
  supplementary_free out = true ->
  supplementary_free (r ++ out) = true.
Proof.
  intros Hr Hout. induction r as [|c r IH]; [exact Hout|].
  simpl in Hr. apply andb_true_iff in Hr. destruct Hr as [Hc Hr].
  change ((c :: r) ++ out) with (c :: (r ++ out)).
  rewrite supplementary_free_cons, (IH Hr), andb_true_r.
  destruct (r ++ out) as [|lo u]; [reflexivity|].
  apply negb_true_iff, not_true_iff_false. intros Hh.
  apply hidden_surrogates in Hh. destruct Hh as [Hh _].
  apply negb_true_iff, not_surrogate_high in Hc. congruence.
Qed.

(** A pass creates no hidden pair when its replacements hold no surrogate
    and what follows a deleted match is not a low surrogate. *)
Lemma replace_all_supplementary_free (m : matcher)
    (f : jsstring -> jsstring) :
  (forall t n, m t = Some (S n) ->
     no_surrogate (f (firstn (S n) t)) = true
     /\ (f (firstn (S n) t) = [] ->
         forall d, hd_error (skipn (S n) t) = Some d ->
                   is_low_surrogate d = false)) ->
  forall s, supplementary_free s = true ->
            supplementary_free (replace_all m f s) = true.
Proof.
  intros Hm s Hs.
  cut (supplementary_free (replace_all m f s) = true
       /\ forall d, hd_error (replace_all m f s) = Some d ->
                    is_low_surrogate d = true -> hd_error s = Some d).
  { now intros [H _]. }
  revert Hs.
  apply (replace_all_ind m f
           (fun s out => supplementary_free s = true ->
                supplementary_free out = true
                /\ forall d, hd_error out = Some d ->
                             is_low_surrogate d = true ->
                             hd_error s = Some d)).
  - intros _. split; [reflexivity | discriminate].
  - intros c s' out _ IH Hs.
    rewrite supplementary_free_cons in Hs.
    apply andb_true_iff in Hs. destruct Hs as [Hc Hs].
    destruct (IH Hs) as [Hfree Hhd].
    split; [|now intros d Hd _].
    rewrite supplementary_free_cons, Hfree, andb_true_r.
    destruct out as [|lo out']; [reflexivity|].
    apply negb_true_iff, not_true_iff_false. intros Hh.
    pose proof (hidden_surrogates _ _ Hh) as [_ Hlow].
    specialize (Hhd lo eq_refl Hlow).
    destruct s' as [|d s'']; [discriminate|].
    injection Hhd as ->. rewrite Hh in Hc. discriminate.
  - intros c s' n out Hmatch IH Hs.
    destruct (Hm _ _ Hmatch) as [Hrepl Hdel].
    pose proof (supplementary_free_skipn (S n) _ Hs) as Hrest.
    destruct (IH Hrest) as [Hfree Hhd].
    split; [now apply no_surrogate_free_app|].
    intros d Hd Hlow. exfalso.
    destruct (f (firstn (S n) (c :: s'))) as [|x r] eqn:Hf.
    + simpl in Hd. specialize (Hhd d Hd Hlow).
      specialize (Hdel eq_refl d Hhd). congruence.
    + simpl in Hd. injection Hd as ->.
      simpl in Hrepl. apply andb_true_iff in Hrepl.
      destruct Hrepl as [Hx _].
      apply negb_true_iff, not_surrogate_low in Hx. congruence.
Qed.

Lemma fix_homoglyphs_supplementary_free (result s : jsstring) :
  supplementary_free s = true ->
  supplementary_free (replace_all HOMOGLYPH_REGEX (fix_homoglyph result) s)
  = true.
Proof.
  apply replace_all_supplementary_free. intros t n Hm.
  apply class_match in Hm. destruct Hm as [c [-> Hc]].
  destruct (fix_homoglyph_single result c) as [r [-> Hr]].
  split; [|discriminate].
  simpl. rewrite andb_true_r. destruct Hr as [->|Hr].
  - now rewrite (homoglyph_no_surrogate c Hc).
  - pose proof homoglyphs_no_surrogate as H.
    rewrite forallb_forall in H. specialize (H _ Hr). simpl in H.
    now apply andb_true_iff in H.
Qed.

Lemma strip_trailing_supplementary_free (s : jsstring) :
  supplementary_free s = true ->
  supplementary_free (remove_all TRAILING_REGEX s) = true.
Proof.
  apply replace_all_supplementary_free. intros t n Hm.
  apply TRAILING_REGEX_match in Hm. destruct Hm as [_ [_ Hend]].
  split; [reflexivity|]. intros _ d Hd.
  destruct (skipn (S n) t) as [|x r]; [discriminate|].
  injection Hd as ->. simpl in Hend.
  unfold is_line_terminator in Hend.
  unfold is_low_surrogate, in_range. lia.
Qed.

Lemma collapse_spaces_supplementary_free (s : jsstring) :
  supplementary_free s = true ->
  supplementary_free (replace_all SPACES_REGEX (fun _ => lit " ") s) = true.
Proof.
  apply replace_all_supplementary_free. intros t n _.
  split; [reflexivity | discriminate].
Qed.

(** *** Homoglyph folding *)

Lemma homoglyph_values_not_flagged :
  forallb (fun kv => negb (flagged (snd kv))) HOMOGLYPHS = true.
Proof. vm_compute. reflexivity. Qed.

Lemma fix_homoglyphs_flagged_free (result s : jsstring) :
  flagged_free (replace_all HOMOGLYPH_REGEX (fix_homoglyph result) s).
Proof.
  intros c Hin. unfold HOMOGLYPH_REGEX in Hin.
  rewrite replace_all_class in Hin. apply in_flat_map in Hin.
  destruct Hin as [c0 [_ Hc]].
  destruct (in_HOMOGLYPH_REGEX c0) eqn:Hkey.
  - unfold fix_homoglyph in Hc.
    destruct (isExpectedChar result 0 c0) eqn:Hex.
    + destruct Hc as [<-|[]]. unfold flagged.
      change (isExpectedChar [] 0 c0) with (isExpectedChar result 0 c0).
      rewrite Hex. now rewrite andb_false_r.
    + destruct (lookup c0 HOMOGLYPHS) as [r|] eqn:Hl.
      * destruct Hc as [<-|[]]. apply lookup_In in Hl.
        pose proof homoglyph_values_not_flagged as H.
        rewrite forallb_forall in H. specialize (H _ Hl).
        now apply negb_true_iff in H.
      * unfold in_HOMOGLYPH_REGEX in Hkey.
        rewrite lookup_existsb, Hl in Hkey. discriminate.
  - destruct Hc as [<-|[]]. unfold flagged. now rewrite Hkey.
Qed.

Lemma fix_homoglyphs_nothing (result s : jsstring) :
  flagged_free s ->
  replace_all HOMOGLYPH_REGEX (fix_homoglyph result) s = s.
Proof.
  intros Hs. unfold HOMOGLYPH_REGEX. rewrite replace_all_class.
  induction s as [|c s IH]; [reflexivity|].
  cbn [flat_map].
  rewrite IH by (intros d Hd; apply Hs; now right).
  specialize (Hs c (or_introl eq_refl)). unfold flagged in Hs.
  destruct (in_HOMOGLYPH_REGEX c); [|reflexivity].
  simpl in Hs. apply negb_false_iff in Hs.
  unfold fix_homoglyph.
  change (isExpectedChar result 0 c) with (isExpectedChar [] 0 c).
  now rewrite Hs.
Qed.

Lemma whitespace_cleanup_flagged_free (s : jsstring) :
  flagged_free s ->
  flagged_free
    (replace_all SPACES_REGEX (fun _ => lit " ") (remove_all TRAILING_REGEX s)).
Proof.
  intros Hs c Hin.
  apply (replace_all_In _ _ (fun c => c = 0x20)) in Hin.
  - destruct Hin as [Hin | ->]; [|reflexivity].
    apply Hs. now apply remove_all_In in Hin.
  - intros t n d _ [<-|[]]. now right.
Qed.

(** *** Whitespace cleanup *)

Lemma TRAILING_REGEX_cons (c : code_unit) (s : jsstring) :
  TRAILING_REGEX (c :: s) =
  if is_blank c && blanks_reach_line_end (c :: s)
  then Some (run_length is_blank (c :: s)) else None.
Proof.
  unfold TRAILING_REGEX, blanks_reach_line_end. simpl.
  now destruct (is_blank c).
Qed.

Lemma blanks_reach_line_end_cons (c : code_unit) (s : jsstring) :
  blanks_reach_line_end (c :: s) =
  if is_blank c then blanks_reach_line_end s else is_line_terminator c.
Proof.
  unfold blanks_reach_line_end. simpl. now destruct (is_blank c).
Qed.

Lemma blank_not_line_terminator (c : code_unit) :
  is_line_terminator c = true -> is_blank c = false.
Proof. unfold is_line_terminator, is_blank. lia. Qed.

Lemma at_line_end_reach (s : jsstring) :
  at_line_end s = true -> blanks_reach_line_end s = true.
Proof.
  destruct s as [|c s]; [reflexivity|]. simpl. intros H.
  rewrite blanks_reach_line_end_cons.
  now rewrite (blank_not_line_terminator c H).
Qed.

Lemma TRAILING_REGEX_none (c : code_unit) (s : jsstring) :
  (TRAILING_REGEX (c :: s) = None \/ TRAILING_REGEX (c :: s) = Some O) <->
  is_blank c && blanks_reach_line_end (c :: s) = false.
Proof.
  rewrite TRAILING_REGEX_cons.
  destruct (is_blank c && blanks_reach_line_end (c :: s)) eqn:E.
  - apply andb_true_iff in E. destruct E as [E _].
    simpl. rewrite E. split; [|discriminate].
    intros [H|H]; discriminate.
  - split; [reflexivity | now left].
Qed.

(** The trailing-blank pass leaves nothing for itself, and the two
    strings reach a line end after their leading blanks alike. *)
Lemma strip_trailing_done (s : jsstring) :
  never_matches TRAILING_REGEX (remove_all TRAILING_REGEX s)
  /\ blanks_reach_line_end (remove_all TRAILING_REGEX s)
     = blanks_reach_line_end s.
Proof.
  unfold remove_all.
  apply (replace_all_ind TRAILING_REGEX (fun _ => [])
           (fun s out => never_matches TRAILING_REGEX out
                         /\ blanks_reach_line_end out
                            = blanks_reach_line_end s)).
  - now split.
  - intros c s' out Hno [IHn IHe].
    assert (He : blanks_reach_line_end (c :: out)
                 = blanks_reach_line_end (c :: s')).
    { rewrite !blanks_reach_line_end_cons. now rewrite IHe. }
    split; [|exact He]. split; [|exact IHn].
    apply TRAILING_REGEX_none. rewrite He.
    now apply TRAILING_REGEX_none.
  - intros c s' n out Hm [IHn IHe].
    pose proof Hm as Hsome.
    apply TRAILING_REGEX_match in Hm. destruct Hm as [_ [_ Hend]].
    split; [exact IHn|]. cbn [app]. rewrite IHe.
    rewrite TRAILING_REGEX_cons in Hsome.
    destruct (is_blank c && blanks_reach_line_end (c :: s')) eqn:E;
      [|discriminate].
    apply andb_true_iff in E. destruct E as [_ ->].
    now apply at_line_end_reach.
Qed.

Lemma run_length_le (p : code_unit -> bool) (s : jsstring) :
  (run_length p s <= List.length s)%nat.
Proof.
  induction s as [|c s IH]; [reflexivity|].
  simpl. destruct (p c); simpl; lia.
Qed.

Lemma run_length_all (p : code_unit -> bool) (t rest : jsstring) :
  forallb p t = true ->
  run_length p (t ++ rest) = (List.length t + run_length p rest)%nat.
Proof.
  intros H. induction t as [|c t IH]; [reflexivity|].
  simpl in H. apply andb_true_iff in H. destruct H as [Hc Ht].
  simpl. now rewrite Hc, IH.
Qed.

Lemma blanks_reach_line_end_app (t rest : jsstring) :
  forallb is_blank t = true ->
  blanks_reach_line_end (t ++ rest) = blanks_reach_line_end rest.
Proof.
  intros H. induction t as [|c t IH]; [reflexivity|].
  simpl in H. apply andb_true_iff in H. destruct H as [Hc Ht].
  change ((c :: t) ++ rest) with (c :: (t ++ rest)).
  rewrite blanks_reach_line_end_cons, Hc. now apply IH.
Qed.

Lemma space_is_blank (c : code_unit) :
  (0x20 =? c) = true -> is_blank c = true.
Proof. unfold is_blank. lia. Qed.

(** Collapsing spaces brings back no trailing blanks. *)
Lemma collapse_spaces_keeps_trailing (s : jsstring) :
  never_matches TRAILING_REGEX s ->
  never_matches TRAILING_REGEX
    (replace_all SPACES_REGEX (fun _ => lit " ") s).
Proof.
  intros Hs.
  cut (never_matches TRAILING_REGEX
         (replace_all SPACES_REGEX (fun _ => lit " ") s)
       /\ blanks_reach_line_end
            (replace_all SPACES_REGEX (fun _ => lit " ") s)
          = blanks_reach_line_end s).
  { now intros [H _]. }
  revert Hs.
  apply (replace_all_ind SPACES_REGEX (fun _ => lit " ")
           (fun s out => never_matches TRAILING_REGEX s ->
                         never_matches TRAILING_REGEX out
                         /\ blanks_reach_line_end out
                            = blanks_reach_line_end s)).
  - now split.
  - intros c s' out _ IH [Hc Hs'].
    destruct (IH Hs') as [IHn IHe].
    assert (He : blanks_reach_line_end (c :: out)
                 = blanks_reach_line_end (c :: s')).
    { rewrite !blanks_reach_line_end_cons. now rewrite IHe. }
    split; [|exact He]. split; [|exact IHn].
    apply TRAILING_REGEX_none. rewrite He.
    now apply TRAILING_REGEX_none.
  - intros c s' n out Hm IH Hs.
    apply SPACES_REGEX_match in Hm. destruct Hm as [_ [_ Hall]].
    pose proof (forallb_impl_In _ _ _ space_is_blank Hall) as Hblank.
    destruct (IH (never_matches_skipn _ (S n) _ Hs)) as [IHn IHe].
    assert (He : blanks_reach_line_end (lit " " ++ out)
                 = blanks_reach_line_end (c :: s')).
    { rewrite <- (firstn_skipn (S n) (c :: s')).
      rewrite (blanks_reach_line_end_app _ _ Hblank).
      change (skipn (S n) (c :: s')) with (skipn n s'). rewrite <- IHe.
      change (lit " " ++ out) with (0x20 :: out).
      now rewrite blanks_reach_line_end_cons. }
    split; [|exact He].
    change (lit " " ++ out) with (0x20 :: out) in He |- *.
    split; [|exact IHn].
    apply TRAILING_REGEX_none.
    transitivity (is_blank 0x20 && blanks_reach_line_end (c :: s'));
      [f_equal; exact He|].
    destruct Hs as [Hc _]. apply TRAILING_REGEX_none in Hc.
    assert (Hbc : is_blank c = true).
    { cbn [firstn forallb] in Hblank. now apply andb_true_iff in Hblank. }
    rewrite Hbc in Hc. exact Hc.
Qed.

Lemma SPACES_REGEX_none (s : jsstring) :
  (SPACES_REGEX s = None \/ SPACES_REGEX s = Some O) <->
  (run_length (Z.eqb 0x20) s < 2)%nat.
Proof.
  unfold SPACES_REGEX.
  destruct (2 <=? run_length (Z.eqb 32) s)%nat eqn:E.
  - apply Nat.leb_le in E. split; [|lia].
    intros [H|H]; [discriminate|]. injection H as H. lia.
  - apply Nat.leb_gt in E. split; [now intros _ | now left].
Qed.

(** The space-collapsing pass leaves nothing for itself. *)
Lemma collapse_spaces_done (s : jsstring) :
  never_matches SPACES_REGEX (replace_all SPACES_REGEX (fun _ => lit " ") s).
Proof.
  cut (never_matches SPACES_REGEX
         (replace_all SPACES_REGEX (fun _ => lit " ") s)
       /\ (run_length (Z.eqb 0x20) s = O ->
           run_length (Z.eqb 0x20)
             (replace_all SPACES_REGEX (fun _ => lit " ") s) = O)).
  { now intros [H _]. }
  apply (replace_all_ind SPACES_REGEX (fun _ => lit " ")
           (fun s out => never_matches SPACES_REGEX out
                         /\ (run_length (Z.eqb 0x20) s = O ->
                             run_length (Z.eqb 0x20) out = O))).
  - now split.
  - intros c s' out Hno [IHn IH0].
    apply SPACES_REGEX_none in Hno. cbn [run_length] in Hno.
    split.
    + split; [|exact IHn]. apply SPACES_REGEX_none. cbn [run_length].
      destruct (0x20 =? c); [|lia].
      rewrite IH0; lia.
    + cbn [run_length]. now destruct (0x20 =? c).
  - intros c s' n out Hm [IHn IH0].
    apply SPACES_REGEX_match in Hm. destruct Hm as [Hrun [_ Hall]].
    assert (Hrest : run_length (Z.eqb 0x20) (skipn n s') = O).
    { pose proof (run_length_le (Z.eqb 0x20) (c :: s')) as Hle.
      rewrite Hrun in Hle.
      rewrite <- (firstn_skipn (S n) (c :: s')) in Hrun.
      rewrite (run_length_all _ _ _ Hall) in Hrun.
      rewrite length_firstn in Hrun.
      change (skipn (S n) (c :: s')) with (skipn n s') in Hrun. lia. }
    change (lit " " ++ out) with (0x20 :: out).
    split.
    + split; [|exact IHn]. apply SPACES_REGEX_none.
      cbn [run_length]. rewrite Z.eqb_refl, (IH0 Hrest). lia.
    + cbn [run_length] in Hrun |- *.
      destruct (0x20 =? c) eqn:E; [|discriminate]. discriminate.
Qed.

(** *** Normal forms across the whitespace cleanup *)

Section Idempotence.

Variable normalize_NFC : jsstring -> jsstring.

Hypothesis NFC_adds_no_strippable :
  forall s, strippable_free s -> strippable_free (normalize_NFC s).

(** Normalizing twice is normalizing once. *)
Hypothesis NFC_idempotent :
  forall s, normalize_NFC (normalize_NFC s) = normalize_NFC s.

(** NFC produces no Tag or Variation Selectors Supplement character from a
    text that holds none: these characters take part in no canonical
    mapping. *)
Hypothesis NFC_adds_no_hidden_pair :
  forall s, supplementary_free s = true ->
            supplementary_free (normalize_NFC s) = true.

(** Space, tab and the line terminators neither decompose nor combine with
    a neighbour: a text around one of them is in normal form exactly when
    both sides are. *)
Hypothesis NFC_inert_boundary :
  forall a c b, inert c = true ->
    (in_normal_form normalize_NFC (a ++ c :: b) <-> in_normal_form normalize_NFC a /\ in_normal_form normalize_NFC b).

Lemma in_NFC_inert_run (run : jsstring) :
  forall pre rest,
    run <> [] -> forallb inert run = true ->
    in_normal_form normalize_NFC (pre ++ run ++ rest) -> in_normal_form normalize_NFC pre /\ in_normal_form normalize_NFC rest.
Proof.
  induction run as [|b run IH]; intros pre rest Hne Hall H; [congruence|].
  cbn [forallb] in Hall. apply andb_true_iff in Hall.
  destruct Hall as [Hb Hall].
  change (pre ++ (b :: run) ++ rest) with (pre ++ b :: (run ++ rest)) in H.
  apply (NFC_inert_boundary _ _ _ Hb) in H. destruct H as [Hpre Hrest].
  split; [exact Hpre|].
  destruct run as [|b' run']; [exact Hrest|].
  apply (IH [] rest); [discriminate | exact Hall | exact Hrest].
Qed.

Lemma blank_inert (c : code_unit) : is_blank c = true -> inert c = true.
Proof. unfold inert. now intros ->. Qed.

Lemma strip_trailing_in_NFC (s : jsstring) :
  forall pre, in_normal_form normalize_NFC (pre ++ s) ->
              in_normal_form normalize_NFC (pre ++ remove_all TRAILING_REGEX s).
Proof.
  unfold remove_all.
  apply (replace_all_ind TRAILING_REGEX (fun _ => [])
           (fun s out => forall pre, in_normal_form normalize_NFC (pre ++ s) -> in_normal_form normalize_NFC (pre ++ out))).
  - now intros pre H.
  - intros c s' out _ IH pre H.
    change (pre ++ c :: out) with (pre ++ [c] ++ out).
    rewrite app_assoc. apply IH. now rewrite <- app_assoc.
  - intros c s' n out Hm IH pre H.
    apply TRAILING_REGEX_match in Hm. destruct Hm as [_ [Hall Hend]].
    cbn [app]. apply IH.
    rewrite <- (firstn_skipn (S n) (c :: s')) in H.
    apply in_NFC_inert_run in H;
      [| discriminate | exact (forallb_impl_In _ _ _ blank_inert Hall)].
    destruct H as [Hpre Hrest].
    change (skipn (S n) (c :: s')) with (skipn n s') in Hrest, Hend.
    destruct (skipn n s') as [|x r].
    + now rewrite app_nil_r.
    + simpl in Hend.
      assert (Hx : inert x = true).
      { unfold inert. rewrite Hend. apply orb_true_r. }
      apply (NFC_inert_boundary _ _ _ Hx). split; [exact Hpre|].
      now apply (NFC_inert_boundary [] x r Hx) in Hrest.
Qed.

Lemma collapse_spaces_in_NFC (s : jsstring) :
  forall pre, in_normal_form normalize_NFC (pre ++ s) ->
              in_normal_form normalize_NFC (pre ++ replace_all SPACES_REGEX (fun _ => lit " ") s).
Proof.
  apply (replace_all_ind SPACES_REGEX (fun _ => lit " ")
           (fun s out => forall pre, in_normal_form normalize_NFC (pre ++ s) -> in_normal_form normalize_NFC (pre ++ out))).
  - now intros pre H.
  - intros c s' out _ IH pre H.
    change (pre ++ c :: out) with (pre ++ [c] ++ out).
    rewrite app_assoc. apply IH. now rewrite <- app_assoc.
  - intros c s' n out Hm IH pre H.
    apply SPACES_REGEX_match in Hm. destruct Hm as [_ [_ Hall]].
    rewrite app_assoc. apply IH.
    rewrite <- (firstn_skipn (S n) (c :: s')) in H.
    apply in_NFC_inert_run in H; [| discriminate |].
    + destruct H as [Hpre Hrest]. rewrite <- app_assoc.
      change (lit " " ++ skipn n s') with (0x20 :: skipn n s').
      now apply (NFC_inert_boundary pre 0x20 _ eq_refl).
    + apply (forallb_impl_In _ _ _ space_is_blank) in Hall.
      exact (forallb_impl_In _ _ _ blank_inert Hall).
Qed.

(** C1, amended. With [stripHTML] off, and normalization and homoglyph
    folding not both on, [clean] applied twice to a well-formed text (no
    unpaired surrogate) equals [clean] applied once. *)
Theorem clean_idempotent (text : jsstring) (options : clean_options) :
  truthy (stripHTML options) = false ->
  not_false (normalize options) && truthy (fixHomoglyphs options) = false ->
  well_formed text = true ->
  clean normalize_NFC (clean normalize_NFC text options) options
  = clean normalize_NFC text options.
Proof.
  intros Hhtml Hboth Hwf.
  pose proof (clean_free normalize_NFC NFC_adds_no_strippable text options)
    as Hfree.
  set (stripped := clean_strip text options).
  set (normal :=
         if not_false (normalize options)
         then normalize_NFC stripped else stripped).
  set (folded :=
         if truthy (fixHomoglyphs options)
         then replace_all HOMOGLYPH_REGEX (fix_homoglyph normal) normal
         else normal).
  assert (Hout : clean normalize_NFC text options =
                 replace_all SPACES_REGEX (fun _ => lit " ")
                   (remove_all TRAILING_REGEX folded)) by reflexivity.
  (* no hidden pair *)
  assert (Hsupp : supplementary_free (clean normalize_NFC text options) = true).
  { rewrite Hout.
    apply collapse_spaces_supplementary_free,
      strip_trailing_supplementary_free.
    assert (Hs : supplementary_free stripped = true).
    { unfold stripped, clean_strip. rewrite Hhtml.
      apply (strip_supplementary_free _ false).
      apply strip_invisible_well_formed.
      now rewrite well_formed_from_false. }
    assert (Hn : supplementary_free normal = true).
    { unfold normal. destruct (not_false (normalize options)); [|exact Hs].
      now apply NFC_adds_no_hidden_pair. }
    unfold folded. destruct (truthy (fixHomoglyphs options)); [|exact Hn].
    now apply fix_homoglyphs_supplementary_free. }
  (* normal form *)
  assert (Hnfc : not_false (normalize options) = true ->
                 in_normal_form normalize_NFC (clean normalize_NFC text options)).
  { intros Hon. rewrite Hon in Hboth. simpl in Hboth.
    rewrite Hout. unfold folded, normal. rewrite Hboth, Hon.
    apply (collapse_spaces_in_NFC _ []), (strip_trailing_in_NFC _ []).
    apply NFC_idempotent. }
  (* nothing left to fold *)
  assert (Hfold : truthy (fixHomoglyphs options) = true ->
                  flagged_free (clean normalize_NFC text options)).
  { intros Hon. rewrite Hout. apply whitespace_cleanup_flagged_free.
    unfold folded. rewrite Hon. apply fix_homoglyphs_flagged_free. }
  (* no trailing blanks, no double spaces *)
  assert (Htrail : never_matches TRAILING_REGEX
                     (clean normalize_NFC text options)).
  { rewrite Hout. apply collapse_spaces_keeps_trailing, strip_trailing_done. }
  assert (Hspaces : never_matches SPACES_REGEX
                      (clean normalize_NFC text options)).
  { rewrite Hout. apply collapse_spaces_done. }
  clearbody stripped normal folded.
  generalize dependent (clean normalize_NFC text options).
  intros once Hfree _ Hsupp Hnfc Hfold Htrail Hspaces.
  unfold clean, clean_strip, clean_finish. cbv zeta. rewrite Hhtml.
  rewrite (strip_invisible_nothing _ Hfree).
  rewrite (remove_all_never _ _ (supplementary_free_nothing _ Hsupp)).
  assert (Hn : (if not_false (normalize options)
                then normalize_NFC once else once) = once).
  { destruct (not_false (normalize options)); [|reflexivity].
    now apply Hnfc. }
  rewrite Hn.
  assert (Hf : (if truthy (fixHomoglyphs options)
                then replace_all HOMOGLYPH_REGEX (fix_homoglyph once) once
                else once) = once).
  { destruct (truthy (fixHomoglyphs options)); [|reflexivity].
    now apply fix_homoglyphs_nothing, Hfold. }
  rewrite Hf.
  now rewrite (remove_all_never _ _ Htrail),
    (replace_all_never _ _ _ Hspaces).
Qed.

End Idempotence.

(** The amended C1 at the identity normalizer and the default options, on
    two lines with a zero-width space, blanks to clean up, an emoji and a
    Tag character. *)
Lemma clean_idempotent_witness :
  clean (fun s => s)
    (clean (fun s => s)
       (lit "Hi" ++ [0x200B] ++ lit "  there  "
        ++ [LF; 0xD83D; 0xDE00; 0xDB40; 0xDC41] ++ lit " !")
       default_options)
    default_options
  = clean (fun s => s)
      (lit "Hi" ++ [0x200B] ++ lit "  there  "
       ++ [LF; 0xD83D; 0xDE00; 0xDB40; 0xDC41] ++ lit " !")
      default_options.
Proof.
  apply (clean_idempotent (fun s => s)).
  - intros s Hs. exact Hs.
  - intros s. reflexivity.
  - intros s Hs. exact Hs.
  - intros a c b _. unfold in_normal_form. split.
    + intros _. split; reflexivity.
    + intros _. reflexivity.
  - reflexivity.
  - reflexivity.
  - vm_compute. reflexivity.
Defined.

(** C1 fails with [stripHTML] on: decoding entities can produce a tag,
    which the second application strips.  [clean("&lt;b&gt;")] is ["<b>"],
    and [clean("<b>")] is empty (normalization is off here, so the
    normalizer plays no part). *)
Lemma clean_twice_differs :
  clean (fun s => s)
    (clean (fun s => s) (lit "&lt;b&gt;")
       {| normalize := Some false; fixHomoglyphs := None;
          stripSpaces := None; stripHTML := Some true |})
    {| normalize := Some false; fixHomoglyphs := None;
       stripSpaces := None; stripHTML := Some true |}
  <> clean (fun s => s) (lit "&lt;b&gt;")
       {| normalize := Some false; fixHomoglyphs := None;
          stripSpaces := None; stripHTML := Some true |}.
Proof. vm_compute. discriminate. Qed.

(** It also fails on unpaired surrogates: removing the inner pair of
    DB40 DB40 DC01 DC01 brings the outer halves together, a Tag character
    that only a second application removes. *)
Lemma clean_twice_differs_on_lone_surrogates :
  clean (fun s => s)
    (clean (fun s => s) [0xDB40; 0xDB40; 0xDC01; 0xDC01]
       {| normalize := Some false; fixHomoglyphs := None;
          stripSpaces := None; stripHTML := None |})
    {| normalize := Some false; fixHomoglyphs := None;
       stripSpaces := None; stripHTML := None |}
  <> clean (fun s => s) [0xDB40; 0xDB40; 0xDC01; 0xDC01]
       {| normalize := Some false; fixHomoglyphs := None;
          stripSpaces := None; stripHTML := None |}.
Proof. vm_compute. discriminate. Qed.

(** And with normalization and folding both on: Cyrillic U+0435 followed by
    the combining acute U+0301 is in normal form, folding gives Latin e
    followed by U+0301, which the second application composes to U+00E9.
    No normalizer that agrees with NFC on these two strings makes [clean]
    idempotent. *)
Lemma clean_twice_differs_when_folding :
  ~ exists normalize_NFC : jsstring -> jsstring,
      normalize_NFC [0x0435; 0x0301] = [0x0435; 0x0301] /\
      normalize_NFC [0x65; 0x0301] = [0xE9] /\
      forall text options,
        clean normalize_NFC (clean normalize_NFC text options) options
        = clean normalize_NFC text options.
Proof.
  intros [nfc [H1 [H2 Hidem]]].
  set (o := {| normalize := None; fixHomoglyphs := Some true;
               stripSpaces := None; stripHTML := None |}).
  specialize (Hidem [0x0435; 0x0301] o).
  assert (Honce : clean nfc [0x0435; 0x0301] o = [0x65; 0x0301]).
  { unfold clean.
    replace (clean_strip [0x0435; 0x0301] o) with [0x0435; 0x0301]
      by (vm_compute; reflexivity).
    simpl not_false. cbv iota. rewrite H1. vm_compute. reflexivity. }
  rewrite Honce in Hidem.
  unfold clean in Hidem.
  replace (clean_strip [0x65; 0x0301] o) with [0x65; 0x0301] in Hidem
    by (vm_compute; reflexivity).
  simpl not_false in Hidem. cbv iota in Hidem. rewrite H2 in Hidem.
  vm_compute in Hidem. discriminate.
Qed.

(** ** revealHTML: reading the rendering back *)

Lemma replace_all_match_prefix (m : matcher) (f : jsstring -> jsstring)
    (t rest : jsstring) :
  t <> [] ->
  m (t ++ rest) = Some (List.length t) ->
  replace_all m f (t ++ rest) = f t ++ replace_all m f rest.
Proof.
  destruct t as [|c t']; [congruence|]. intros _ Hm.
  change ((c :: t') ++ rest) with (c :: (t' ++ rest)) in Hm |- *.
  rewrite replace_all_cons, Hm. cbn [List.length].
  rewrite firstn_cons, skipn_app, firstn_app.
  rewrite Nat.sub_diag, firstn_all, skipn_all. simpl.
  now rewrite app_nil_r.
Qed.

Lemma replace_all_unmatched_head (m : matcher) (f : jsstring -> jsstring)
    (c : code_unit) (s : jsstring) :
  m (c :: s) = None ->
  replace_all m f (c :: s) = c :: replace_all m f s.
Proof. intros H. now rewrite replace_all_cons, H. Qed.

Lemma replace_all_unmatched_prefix (m : matcher) (f : jsstring -> jsstring)
    (q : code_unit -> bool) (t rest : jsstring) :
  (forall c s, q c = true -> m (c :: s) = None) ->
  forallb q t = true ->
  replace_all m f (t ++ rest) = t ++ replace_all m f rest.
Proof.
  intros Hq. induction t as [|c t IH]; intros Ht; [reflexivity|].
  cbn [forallb] in Ht. apply andb_true_iff in Ht. destruct Ht as [Hc Ht].
  change ((c :: t) ++ rest) with (c :: (t ++ rest)).
  rewrite replace_all_unmatched_head by now apply Hq.
  now rewrite (IH Ht).
Qed.

Lemma ANNOTATION_SPAN_not_lt (c : code_unit) (s : jsstring) :
  not_lt c = true -> ANNOTATION_SPAN (c :: s) = None.
Proof.
  unfold not_lt, ANNOTATION_SPAN. intros H. apply negb_true_iff in H.
  cbn [lit list_ascii_of_string map app starts_with].
  change (Z.of_N (N_of_ascii "<")) with 0x3C.
  rewrite (Z.eqb_sym 0x3C c), H. reflexivity.
Qed.

Lemma TAG_REGEX_not_lt (c : code_unit) (s : jsstring) :
  not_lt c = true -> TAG_REGEX (c :: s) = None.
Proof.
  unfold not_lt, TAG_REGEX. intros H. apply negb_true_iff in H.
  now rewrite H.
Qed.

Lemma ENTITY_not_amp (c : code_unit) (s : jsstring) :
  (c =? 0x26) = false -> ENTITY (c :: s) = None.
Proof.
  intros H. unfold ENTITY, entity_at, entities.
  cbn [find fst lit list_ascii_of_string map starts_with].
  change (Z.of_N (N_of_ascii "&")) with 0x26.
  rewrite (Z.eqb_sym 0x26 c), H. reflexivity.
Qed.

(** *** escapeHTML, character by character *)

Lemma flat_map_flat_map {A B C} (f : A -> list B) (g : B -> list C)
    (l : list A) :
  flat_map g (flat_map f l) = flat_map (fun x => flat_map g (f x)) l.
Proof.
  induction l as [|x l IH]; [reflexivity|].
  simpl. now rewrite flat_map_app, IH.
Qed.

Lemma escapeHTML_chars (str : jsstring) :
  escapeHTML str = flat_map escape_char str.
Proof.
  unfold escapeHTML. rewrite !replace_all_class, !flat_map_flat_map.
  apply flat_map_ext. intros c. unfold escape_char.
  destruct (c =? 0x26) eqn:E1.
  { apply Z.eqb_eq in E1. subst c. vm_compute. reflexivity. }
  destruct (c =? 0x3C) eqn:E2.
  { apply Z.eqb_eq in E2. subst c. vm_compute. reflexivity. }
  destruct (c =? 0x3E) eqn:E3.
  { apply Z.eqb_eq in E3. subst c. vm_compute. reflexivity. }
  destruct (c =? 0x22) eqn:E4.
  { apply Z.eqb_eq in E4. subst c. vm_compute. reflexivity. }
  destruct (c =? 0x27) eqn:E5.
  { apply Z.eqb_eq in E5. subst c. vm_compute. reflexivity. }
  rewrite (Z.eqb_sym 0x26 c), E1. cbn [flat_map app].
  rewrite (Z.eqb_sym 0x3C c), E2. cbn [flat_map app].
  rewrite (Z.eqb_sym 0x3E c), E3. cbn [flat_map app].
  rewrite (Z.eqb_sym 0x22 c), E4. cbn [flat_map app].
  rewrite (Z.eqb_sym 0x27 c), E5. reflexivity.
Qed.

Lemma escape_char_not_lt (c : code_unit) :
  forallb not_lt (escape_char c) = true.
Proof.
  unfold escape_char.
  repeat match goal with
         | |- context [if ?b then _ else _] => destruct b eqn:?
         end; try reflexivity.
  cbn [forallb]. unfold not_lt.
  now rewrite andb_true_r, negb_true_iff.
Qed.

Lemma escapeHTML_not_lt (str : jsstring) :
  forallb not_lt (escapeHTML str) = true.
Proof.
  rewrite escapeHTML_chars.
  induction str as [|c str IH]; [reflexivity|].
  cbn [flat_map]. now rewrite forallb_app, escape_char_not_lt, IH.
Qed.

Lemma unescapeHTML_escape_char (c : code_unit) (rest : jsstring) :
  unescapeHTML (escape_char c ++ rest) = c :: unescapeHTML rest.
Proof.
  unfold unescapeHTML, escape_char.
  destruct (c =? 0x26) eqn:E1.
  { apply Z.eqb_eq in E1. subst c.
    now rewrite replace_all_match_prefix by (discriminate || reflexivity). }
  destruct (c =? 0x3C) eqn:E2.
  { apply Z.eqb_eq in E2. subst c.
    now rewrite replace_all_match_prefix by (discriminate || reflexivity). }
  destruct (c =? 0x3E) eqn:E3.
  { apply Z.eqb_eq in E3. subst c.
    now rewrite replace_all_match_prefix by (discriminate || reflexivity). }
  destruct (c =? 0x22) eqn:E4.
  { apply Z.eqb_eq in E4. subst c.
    now rewrite replace_all_match_prefix by (discriminate || reflexivity). }
  destruct (c =? 0x27) eqn:E5.
  { apply Z.eqb_eq in E5. subst c.
    now rewrite replace_all_match_prefix by (discriminate || reflexivity). }
  cbn [app]. now rewrite replace_all_unmatched_head by now apply ENTITY_not_amp.
Qed.

Lemma unescapeHTML_escapeHTML (str rest : jsstring) :
  unescapeHTML (escapeHTML str ++ rest) = str ++ unescapeHTML rest.
Proof.
  rewrite escapeHTML_chars.
  induction str as [|c str IH]; [reflexivity|].
  cbn [flat_map]. rewrite <- app_assoc, unescapeHTML_escape_char, IH.
  reflexivity.
Qed.

(** *** Spans *)

Lemma visible_span_shape (buf : jsstring) :
  visible_span buf = open_visible ++ escapeHTML buf ++ close_span.
Proof. unfold visible_span, open_visible, close_span.
       now rewrite <- !app_assoc. Qed.

(** Removing annotation spans passes over a visible span. *)
Lemma annotations_skip_visible (buf rest : jsstring) :
  remove_all ANNOTATION_SPAN (visible_span buf ++ rest)
  = visible_span buf ++ remove_all ANNOTATION_SPAN rest.
Proof.
  rewrite visible_span_shape. unfold remove_all.
  rewrite <- !app_assoc.
  change (open_visible ++ escapeHTML buf ++ close_span ++ rest)
    with (0x3C :: (tl open_visible ++ escapeHTML buf ++ close_span ++ rest)).
  rewrite replace_all_unmatched_head by reflexivity.
  rewrite (replace_all_unmatched_prefix _ _ not_lt (tl open_visible));
    [| exact ANNOTATION_SPAN_not_lt | reflexivity].
  rewrite (replace_all_unmatched_prefix _ _ not_lt (escapeHTML buf));
    [| exact ANNOTATION_SPAN_not_lt | apply escapeHTML_not_lt].
  change (close_span ++ rest) with (0x3C :: (tl close_span ++ rest)).
  rewrite replace_all_unmatched_head by reflexivity.
  rewrite (replace_all_unmatched_prefix _ _ not_lt (tl close_span));
    [| exact ANNOTATION_SPAN_not_lt | reflexivity].
  reflexivity.
Qed.

(** Dropping the tags of a visible span leaves its escaped content. *)
Lemma tags_of_visible (buf rest : jsstring) :
  remove_all TAG_REGEX (visible_span buf ++ rest)
  = escapeHTML buf ++ remove_all TAG_REGEX rest.
Proof.
  rewrite visible_span_shape. unfold remove_all.
  rewrite <- !app_assoc.
  rewrite (replace_all_match_prefix _ _ open_visible)
    by (discriminate || reflexivity).
  rewrite (replace_all_unmatched_prefix _ _ not_lt (escapeHTML buf));
    [| exact TAG_REGEX_not_lt | apply escapeHTML_not_lt].
  rewrite (replace_all_match_prefix _ _ close_span)
    by (discriminate || reflexivity).
  reflexivity.
Qed.

Lemma index_after_found (needle x rest : jsstring) (q : code_unit -> bool) :
  (forall c s, q c = true -> starts_with false needle (c :: s) = false) ->
  forallb q x = true ->
  starts_with false needle (needle ++ rest) = true ->
  index_after needle (x ++ needle ++ rest)
  = Some (List.length x + List.length needle)%nat.
Proof.
  intros Hq Hx Hn. induction x as [|c x IH].
  - destruct needle, rest; simpl in *; now rewrite ?Hn.
  - cbn [forallb] in Hx. apply andb_true_iff in Hx. destruct Hx as [Hc Hx].
    change ((c :: x) ++ needle ++ rest) with (c :: (x ++ needle ++ rest)).
    cbn [index_after]. rewrite (Hq c _ Hc), (IH Hx). reflexivity.
Qed.

Lemma close_span_not_lt (c : code_unit) (s : jsstring) :
  not_lt c = true -> starts_with false close_span (c :: s) = false.
Proof.
  unfold not_lt. intros H. apply negb_true_iff in H.
  cbn [close_span lit list_ascii_of_string map starts_with].
  change (Z.of_N (N_of_ascii "<")) with 0x3C.
  now rewrite (Z.eqb_sym 0x3C c), H.
Qed.

Lemma lit_app (a b : string) : lit (a ++ b) = lit a ++ lit b.
Proof.
  unfold lit. induction a as [|x a IH]; [reflexivity|].
  simpl. now rewrite IH.
Qed.

Lemma annotations_drop_annotation (cssClass charName label : string)
    (rest : jsstring) :
  tame cssClass charName label ->
  remove_all ANNOTATION_SPAN (annotation_span cssClass charName label ++ rest)
  = remove_all ANNOTATION_SPAN rest.
Proof.
  intros [Hclass [Hname Hlabel]]. unfold remove_all.
  rewrite replace_all_match_prefix; [reflexivity | | ].
  { unfold annotation_span. discriminate. }
  set (body :=
         lit "span class=" ++ dq ++ lit cssClass ++ dq ++ lit " title=" ++ dq
         ++ lit charName ++ lit " (" ++ lit label ++ lit ")" ++ dq ++ lit ">["
         ++ lit label ++ lit "]").
  assert (Hshape : annotation_span cssClass charName label
                   = 0x3C :: body ++ close_span).
  { unfold annotation_span, body, close_span.
    rewrite <- !app_assoc. reflexivity. }
  assert (Hbody : forallb not_lt body = true).
  { unfold body. rewrite !forallb_app, Hname, Hlabel.
    destruct Hclass as [-> | ->]; reflexivity. }
  assert (Hprefix :
            starts_with false
              (lit "<span class=" ++ dq ++ lit "char-hidden" ++ dq)
              (annotation_span cssClass charName label ++ rest)
            || starts_with false
                 (lit "<span class=" ++ dq ++ lit "char-formatting" ++ dq)
                 (annotation_span cssClass charName label ++ rest) = true).
  { unfold annotation_span.
    destruct Hclass as [-> | ->]; reflexivity. }
  unfold ANNOTATION_SPAN. rewrite Hprefix, Hshape.
  change ((0x3C :: body ++ close_span) ++ rest)
    with (0x3C :: ((body ++ close_span) ++ rest)).
  rewrite <- app_assoc.
  assert (Hhead : starts_with false (lit "</span>")
                    (0x3C :: body ++ close_span ++ rest) = false)
    by reflexivity.
  cbn [index_after]. rewrite Hhead.
  change (lit "</span>") with close_span.
  rewrite (index_after_found close_span body rest not_lt);
    [| exact close_span_not_lt | exact Hbody | reflexivity].
  cbn [option_map List.length]. rewrite length_app. reflexivity.
Qed.

(** *** The parts pushed by the loop *)

Lemma registry_tame :
  forallb (fun kv => forallb not_lt (lit (name (snd kv)))
                     && forallb not_lt (lit (code (snd kv))))
    INVISIBLE_CHARS = true.
Proof. vm_compute. reflexivity. Qed.

Lemma control_labels_tame :
  forallb (fun k => forallb not_lt (lit (hex_label (Z.of_nat k))))
    (seq 0 160) = true.
Proof. vm_compute. reflexivity. Qed.

Lemma control_label_tame (ch : code_unit) :
  is_control_code ch = true -> forallb not_lt (lit (hex_label ch)) = true.
Proof.
  intros H.
  assert (Hr : 0 <= ch < 160).
  { unfold is_control_code, in_range in H. lia. }
  pose proof control_labels_tame as Hall.
  rewrite forallb_forall in Hall.
  specialize (Hall (Z.to_nat ch)).
  rewrite Z2Nat.id in Hall by lia.
  apply Hall. apply in_seq. lia.
Qed.

Lemma revealHTML_loop_parts (includeFormatting : bool) (text : jsstring) :
  forall parts visibleBuffer,
  exists ps,
    revealHTML_loop includeFormatting text parts visibleBuffer
    = parts ++ map render_part ps
    /\ Forall part_tame ps
    /\ concat (map part_text ps)
       = visibleBuffer
         ++ filter (fun ch => negb (shouldAnnotate includeFormatting ch)) text.
Proof.
  induction text as [|ch rest IH]; intros parts buf.
  - destruct buf as [|b buf].
    + exists []. cbn. now rewrite app_nil_r.
    + exists [VisiblePart (b :: buf)]. cbn. rewrite !app_nil_r.
      repeat split. now constructor.
  - cbn [revealHTML_loop filter].
    destruct (shouldAnnotate includeFormatting ch) eqn:Hann; cbn [negb].
    + set (label := match lookup ch INVISIBLE_CHARS with
                    | Some i => code i
                    | None => hex_label ch
                    end).
      set (charName := match lookup ch INVISIBLE_CHARS with
                       | Some i => name i
                       | None => "Control Character"%string
                       end).
      set (cssClass := match lookup ch INVISIBLE_CHARS with
                       | Some i =>
                           if set_has FORMATTING_CATEGORIES (category i)
                           then "char-formatting"%string
                           else "char-hidden"%string
                       | None => "char-hidden"%string
                       end).
      assert (Htame : tame cssClass charName label).
      { unfold tame, cssClass, charName, label.
        unfold shouldAnnotate in Hann.
        destruct (lookup ch INVISIBLE_CHARS) as [i|] eqn:Hl.
        - apply lookup_In in Hl.
          pose proof registry_tame as Hreg.
          rewrite forallb_forall in Hreg. specialize (Hreg _ Hl).
          cbn [snd] in Hreg. apply andb_true_iff in Hreg.
          split; [|exact Hreg].
          destruct (set_has FORMATTING_CATEGORIES (category i)); tauto.
        - split; [now left|]. split; [reflexivity|].
          now apply control_label_tame. }
      match goal with
      | |- context [revealHTML_loop _ rest ?p []] =>
          destruct (IH p []) as [ps [Heq [Hall Htext]]]
      end.
      rewrite Heq.
      destruct buf as [|b buf].
      * exists (AnnotationPart cssClass charName label :: ps).
        cbn [map render_part part_text concat app].
        rewrite <- app_assoc. repeat split.
        -- now constructor.
        -- exact Htext.
      * exists (VisiblePart (b :: buf)
                :: AnnotationPart cssClass charName label :: ps).
        cbn [map render_part part_text concat app].
        rewrite <- !app_assoc. repeat split.
        -- constructor; [exact I|]. now constructor.
        -- cbn [app] in Htext. now rewrite Htext.
    + destruct (IH parts (buf ++ [ch])) as [ps [Heq [Hall Htext]]].
      exists ps. repeat split; [exact Heq | exact Hall |].
      now rewrite Htext, <- app_assoc.
Qed.

Lemma visible_text_parts (ps : list part) :
  Forall part_tame ps ->
  visible_text (concat (map render_part ps)) = concat (map part_text ps).
Proof.
  intros Hall. unfold visible_text.
  assert (H1 : remove_all ANNOTATION_SPAN (concat (map render_part ps))
               = concat (map (fun p => match p with
                                       | VisiblePart b => visible_span b
                                       | _ => []
                                       end) ps)).
  { induction Hall as [|p ps Hp _ IH]; [reflexivity|].
    destruct p as [b|c n l]; cbn [map concat render_part].
    - now rewrite annotations_skip_visible, IH.
    - now rewrite annotations_drop_annotation, IH. }
  rewrite H1. clear H1 Hall.
  assert (H2 : remove_all TAG_REGEX
                 (concat (map (fun p => match p with
                                        | VisiblePart b => visible_span b
                                        | _ => []
                                        end) ps))
               = concat (map (fun p => escapeHTML (part_text p)) ps)).
  { induction ps as [|p ps IH]; [reflexivity|].
    destruct p as [b|c n l]; cbn [map concat part_text].
    - now rewrite tags_of_visible, IH.
    - cbn [app]. now rewrite IH. }
  rewrite H2. clear H2.
  induction ps as [|p ps IH]; [reflexivity|].
  cbn [map concat]. now rewrite unescapeHTML_escapeHTML, IH.
Qed.

(** The renderer annotates exactly the characters [detect] counts under
    the same [includeFormatting]. *)
Lemma shouldAnnotate_counted (includeFormatting : bool) (ch : code_unit) :
  shouldAnnotate includeFormatting ch = counted includeFormatting ch.
Proof.
  unfold shouldAnnotate, counted.
  destruct (lookup ch INVISIBLE_CHARS) as [info|]; [|reflexivity].
  destruct (set_has FORMATTING_CATEGORIES (category info)),
    includeFormatting; reflexivity.
Qed.

(** C8. Reading back the rendering of [revealHTML] (annotation spans
    removed, the contents of the visible spans concatenated, escaping
    undone) gives the non-hidden characters of the text, in order: those
    that are neither registry characters (the formatting ones unless
    [includeFormatting] is [false]) nor C0/C1 controls, which is the
    complement of what [detect] counts. *)
Theorem revealHTML_round_trip (text : jsstring) (options : Detect.options) :
  visible_text (revealHTML text options)
  = filter
      (fun ch =>
         negb (counted (not_false (Detect.includeFormatting options)) ch))
      text.
Proof.
  unfold revealHTML.
  destruct (revealHTML_loop_parts
              (not_false (Detect.includeFormatting options)) text [] [])
    as [ps [Heq [Hall Htext]]].
  rewrite Heq. cbn [app].
  rewrite (visible_text_parts ps Hall), Htext.
  apply filter_ext. intros ch. now rewrite shouldAnnotate_counted.
Qed.

(** ** The public API *)

Lemma Get_returns (v : js_value) (key : string) :
  v <> JsUndefined -> v <> JsNull -> exists x, Get v key = Normal x.
Proof.
  intros Hu Hn. destruct v; try congruence; eexists; reflexivity.
Qed.

Lemma default_parameter_object (v : js_value) :
  v <> JsNull ->
  default_parameter v <> JsUndefined /\ default_parameter v <> JsNull.
Proof. intros H. destruct v; split; cbn; congruence. Qed.

(** What [option_value] keeps of a value is what the code tests. *)
Lemma option_value_tests (v : js_value) :
  truthy (option_value v) = ToBoolean v
  /\ not_false (option_value v)
     = match v with JsBoolean false => false | _ => true end.
Proof.
  destruct v as [| |[|]|[|neg|neg d]|[|c s]|props]; cbn;
    try (split; reflexivity).
  destruct (mant d =? 0); split; reflexivity.
Qed.

(** Escaping makes any single code unit a literal pattern, the backslash
    included: the constructor accepts every source the loop builds. *)
Lemma escaped_is_pattern (ch : code_unit) :
  is_literal_pattern
    (replace_all (class is_regexp_special) (fun m => 0x5C :: m) [ch])
  = true.
Proof.
  rewrite replace_all_class. cbn [flat_map].
  destruct (is_regexp_special ch) eqn:E; cbn [app is_literal_pattern].
  - now rewrite Z.eqb_refl, E.
  - destruct (ch =? 0x5C) eqn:E'.
    + apply Z.eqb_eq in E'. subst ch. vm_compute in E. discriminate.
    + now rewrite E.
Qed.

Lemma construct_all_returns (entries : list (code_unit * char_info)) :
  construct_all
    (map (fun kv =>
            replace_all (class is_regexp_special)
              (fun m => 0x5C :: m) [fst kv])
       entries)
  = Normal tt.
Proof.
  induction entries as [|[ch info] rest IH]; [reflexivity|].
  cbn [map construct_all fst]. unfold RegExp_new.
  rewrite escaped_is_pattern. cbn [bind]. exact IH.
Qed.

(** C7 fails when [null] is passed as the options: the default parameter
    only replaces [undefined], and the first read of an option throws. *)
Lemma clean_throws_on_null_options :
  run (fun s => s) (fun _ => {| mant := 1; expo := -2 |})
    (call_clean (lit "some text") JsNull)
  = Throw TypeError.
Proof. reflexivity. Qed.

(** So do the other three operations that take options. *)
Lemma operations_throw_on_null_options
    (normalize_NFC : jsstring -> jsstring) (Math_random : nat -> double)
    (text : jsstring) :
  run normalize_NFC Math_random (call_detect text JsNull) = Throw TypeError
  /\ run normalize_NFC Math_random (call_clean text JsNull)
     = Throw TypeError
  /\ run normalize_NFC Math_random (call_revealHTML text JsNull)
     = Throw TypeError
  /\ run normalize_NFC Math_random (call_inject text JsNull)
     = Throw TypeError.
Proof. repeat split. Qed.

(** C7, amended. Every public operation returns on every string and every
    options argument other than [null] (left out, [undefined], a
    primitive, or an object, whatever its keys), whatever the normalizer
    and the random draws: the reads of the options find an object or a
    primitive, the entry that [detect] and [detectHomoglyphs] fetch from
    their map is always there, and no other step can throw. *)
Theorem public_operations_return (normalize_NFC : jsstring -> jsstring)
    (Math_random : nat -> double) (c : api_call) :
  options_argument c <> JsNull ->
  exists v, run normalize_NFC Math_random c = Normal v.
Proof.
  intros Hnull.
  destruct c as [text options | text | text | text options | text options
                 | text types | ch]; cbn [run options_argument] in *.
  - unfold WatermarkDetector.detect.
    destruct (default_parameter_object options Hnull) as [Hu Hn].
    destruct (Get_returns _ "includeFormatting" Hu Hn) as [x ->].
    cbn [bind].
    destruct (detect_returns text
                {| Detect.includeFormatting := option_value x |})
      as [r [-> _]].
    eexists. reflexivity.
  - unfold WatermarkDetector.detectHomoglyphs.
    destruct (detectHomoglyphs_returns text) as [r [-> _]].
    eexists. reflexivity.
  - unfold WatermarkDetector.detectWhitespaceAnomalies.
    rewrite construct_all_returns. eexists. reflexivity.
  - unfold WatermarkDetector.clean.
    destruct (default_parameter_object options Hnull) as [Hu Hn].
    destruct (Get_returns _ "stripHTML" Hu Hn) as [x1 ->].
    destruct (Get_returns _ "normalize" Hu Hn) as [x2 ->].
    destruct (Get_returns _ "fixHomoglyphs" Hu Hn) as [x3 ->].
    eexists. reflexivity.
  - unfold WatermarkDetector.revealHTML.
    destruct (default_parameter_object options Hnull) as [Hu Hn].
    destruct (Get_returns _ "includeFormatting" Hu Hn) as [x ->].
    eexists. reflexivity.
  - unfold WatermarkDetector.inject.
    destruct (default_parameter_object types Hnull) as [Hu Hn].
    destruct (Get_returns _ "zwsp" Hu Hn) as [x1 ->].
    destruct (Get_returns _ "zwnj" Hu Hn) as [x2 ->].
    destruct (Get_returns _ "bom" Hu Hn) as [x3 ->].
    destruct (Get_returns _ "invisSep" Hu Hn) as [x4 ->].
    eexists. reflexivity.
  - eexists. reflexivity.
Qed.

(** The hypothesis of C7 at an options object with a non-boolean value and
    an unrecognized key. *)
Lemma public_operations_return_witness :
  exists v,
    run (fun s => s) (fun _ => {| mant := 1; expo := -2 |})
      (call_clean (lit "some" ++ [0x200B] ++ lit " text")
         (JsObject
            (Property "stripHTML" (JsString (lit "yes"))
               (Property "verbose" (JsBoolean true) NoProperty))))
    = Normal v.
Proof.
  apply public_operations_return. discriminate.
Defined.


(** * Further properties *)

(** ** Maps, positions and first occurrences *)

Lemma map_set_keys {V} (k : code_unit) (v : V) (m : list (code_unit * V)) :
  map fst (map_set k v m) =
  if map_has k m then map fst m else map fst m ++ [k].
Proof.
  unfold map_has, map_get.
  induction m as [|[k' v'] m IH]; [reflexivity|].
  cbn [map_set]. unfold lookup; fold (@lookup V).
  destruct (k' =? k) eqn:E.
  - apply Z.eqb_eq in E. now subst k'.
  - cbn [map fst]. rewrite IH.
    now destruct (lookup k m).
Qed.

Lemma map_set_sum {V} (g : V -> nat) (k : code_unit) (v : V)
    (m : list (code_unit * V)) :
  (list_sum (map (fun kv => g (snd kv)) (map_set k v m))
   + match map_get k m with Some e => g e | None => O end
   = list_sum (map (fun kv => g (snd kv)) m) + g v)%nat.
Proof.
  unfold map_get.
  induction m as [|[k' v'] m IH]; [simpl; lia|].
  cbn [map_set]. unfold lookup; fold (@lookup V).
  destruct (k' =? k) eqn:E.
  - cbn [map list_sum fold_right snd]. lia.
  - cbn [map list_sum fold_right snd] in IH |- *.
    change (fold_right Nat.add O) with list_sum in IH |- *. lia.
Qed.

Lemma positions_from_app (c : code_unit) (a b : jsstring) :
  forall i,
    positions_from c i (a ++ b)
    = positions_from c i a ++ positions_from c (i + List.length a) b.
Proof.
  induction a as [|d a IH]; intros i.
  - simpl. now rewrite Nat.add_0_r.
  - cbn [app positions_from List.length]. rewrite IH.
    replace (S i + List.length a)%nat with (i + S (List.length a))%nat by lia.
    now destruct (d =? c).
Qed.

Lemma positions_from_absent (c : code_unit) (s : jsstring) :
  forall i, ~ In c s -> positions_from c i s = [].
Proof.
  induction s as [|d s IH]; intros i Hn; [reflexivity|].
  cbn [positions_from]. destruct (d =? c) eqn:E.
  - apply Z.eqb_eq in E. exfalso. apply Hn. now left.
  - apply IH. intros H. apply Hn. now right.
Qed.

Lemma positions_from_length (c : code_unit) (s : jsstring) :
  forall i, List.length (positions_from c i s) = occurrences c s.
Proof.
  unfold occurrences.
  induction s as [|d s IH]; intros i; [reflexivity|].
  cbn [positions_from count_occ].
  destruct (Z.eq_dec d c) as [->|Hne].
  - rewrite Z.eqb_refl. simpl. now rewrite IH.
  - apply Z.eqb_neq in Hne. now rewrite Hne, IH.
Qed.

Lemma distinct_snoc (s : jsstring) (c : code_unit) :
  distinct (s ++ [c]) =
  if existsb (Z.eqb c) (distinct s) then distinct s else distinct s ++ [c].
Proof. unfold distinct. now rewrite fold_left_app. Qed.

Lemma distinct_In (s : jsstring) (c : code_unit) :
  In c (distinct s) <-> In c s.
Proof.
  induction s as [|d s IH] using rev_ind; [reflexivity|].
  rewrite distinct_snoc, in_app_iff.
  destruct (existsb (Z.eqb d) (distinct s)) eqn:E.
  - apply existsb_eqb_In in E. rewrite IH in *. split; [tauto|].
    intros [H|[<-|[]]]; tauto.
  - rewrite in_app_iff, IH. reflexivity.
Qed.

(** ** detect: the inventory *)

Lemma filter_snoc {A} (p : A -> bool) (l : list A) (x : A) :
  filter p (l ++ [x]) = if p x then filter p l ++ [x] else filter p l.
Proof.
  rewrite filter_app. simpl. destruct (p x); [reflexivity | apply app_nil_r].
Qed.

Lemma inventory_key_counted (incl : bool) (seen : jsstring) (total : nat)
    (chars : list (code_unit * Detect.entry)) (ch : code_unit) :
  detect_inventory_inv incl seen total chars ->
  map_has ch chars = true <-> (In ch seen /\ counted incl ch = true).
Proof.
  intros [_ [Hkeys _]]. unfold map_has, map_get.
  rewrite <- lookup_existsb, existsb_eqb_In, Hkeys, distinct_In, filter_In.
  reflexivity.
Qed.

Lemma detect_inventory_skip (incl : bool) (seen : jsstring) (ch : code_unit)
    (total : nat) (chars : list (code_unit * Detect.entry)) :
  counted incl ch = false ->
  detect_inventory_inv incl seen total chars ->
  detect_inventory_inv incl (seen ++ [ch]) total chars.
Proof.
  intros Hc Hinv. pose proof Hinv as [Htot [Hkeys [Hsum Hent]]].
  unfold detect_inventory_inv. rewrite filter_snoc, Hc.
  repeat split; try assumption.
  - destruct (Hent ch0 e H) as [Hpos _].
    rewrite positions_from_app, <- Hpos. cbn [positions_from].
    destruct (ch =? ch0) eqn:E; [|now rewrite app_nil_r].
    apply Z.eqb_eq in E. subst ch0.
    assert (Hhas : map_has ch chars = true).
    { unfold map_has. now rewrite H. }
    apply (inventory_key_counted _ _ _ _ _ Hinv) in Hhas.
    destruct Hhas as [_ Hhas]. congruence.
  - now destruct (Hent ch0 e H) as [_ [Hcount _]].
  - now destruct (Hent ch0 e H) as [_ [_ Hinfo]].
Qed.

Lemma detect_inventory_record (incl : bool) (seen : jsstring)
    (ch : code_unit) (total : nat)
    (chars : list (code_unit * Detect.entry)) :
  counted incl ch = true ->
  detect_inventory_inv incl seen total chars ->
  exists chars',
    detect_record ch (List.length seen) (descriptor ch) chars = Normal chars'
    /\ detect_inventory_inv incl (seen ++ [ch]) (S total) chars'.
Proof.
  intros Hc Hinv. pose proof Hinv as [Htot [Hkeys [Hsum Hent]]].
  pose proof (inventory_key_counted _ _ _ _ ch Hinv) as Hkey.
  assert (Hother : forall chars' k e,
            (forall k0, k0 <> ch -> map_get k0 chars' = map_get k0 chars) ->
            k <> ch -> map_get k chars' = Some e ->
            detect_entry_ok (seen ++ [ch]) k e).
  { intros chars' k e Hsame Hk Hget. rewrite Hsame in Hget by exact Hk.
    destruct (Hent k e Hget) as [Hpos [Hcount Hinfo]].
    repeat split; [|exact Hcount | exact Hinfo].
    rewrite positions_from_app, <- Hpos. cbn [positions_from].
    destruct (ch =? k) eqn:E; [|now rewrite app_nil_r].
    apply Z.eqb_eq in E. congruence. }
  unfold detect_record.
  destruct (map_has ch chars) eqn:Hhas; cbn [negb].
  - unfold map_has in Hhas.
    destruct (map_get ch chars) as [e|] eqn:Hget; [|discriminate].
    destruct (Hent ch e Hget) as [Hpos [Hcount Hinfo]].
    eexists. split; [reflexivity|].
    unfold detect_inventory_inv. rewrite filter_snoc, Hc, distinct_snoc.
    repeat split.
    + rewrite length_app. simpl. lia.
    + rewrite map_set_keys. unfold map_has. rewrite Hget.
      rewrite <- Hkeys, lookup_existsb.
      unfold map_get in Hget. now rewrite Hget.
    + pose proof (map_set_sum Detect.count ch
                    {| Detect.info := Detect.info e;
                       Detect.count := S (Detect.count e);
                       Detect.positions :=
                         Detect.positions e ++ [List.length seen] |}
                    chars) as Hs.
      rewrite Hget in Hs. cbn [Detect.count] in Hs.
      unfold detect_counts in *. lia.
    + destruct (Z.eq_dec ch0 ch) as [->|Hne].
      * rewrite map_get_set_same in H. injection H as <-.
        cbn [Detect.positions].
        rewrite positions_from_app, <- Hpos. cbn [positions_from].
        now rewrite Z.eqb_refl.
      * destruct (Hother _ ch0 e0 (fun k0 Hk => map_get_set_other ch k0 _ chars Hk)
                    Hne H) as [Hp _]. exact Hp.
    + destruct (Z.eq_dec ch0 ch) as [->|Hne].
      * rewrite map_get_set_same in H. injection H as <-.
        cbn [Detect.positions Detect.count].
        rewrite length_app. simpl. lia.
      * destruct (Hother _ ch0 e0 (fun k0 Hk => map_get_set_other ch k0 _ chars Hk)
                    Hne H) as [_ [Hp _]]. exact Hp.
    + destruct (Z.eq_dec ch0 ch) as [->|Hne].
      * rewrite map_get_set_same in H. injection H as <-. exact Hinfo.
      * destruct (Hother _ ch0 e0 (fun k0 Hk => map_get_set_other ch k0 _ chars Hk)
                    Hne H) as [_ [_ Hp]]. exact Hp.
  - assert (Hnew : ~ In ch seen).
    { intros Hin. destruct Hkey as [_ Hk].
      specialize (Hk (conj Hin Hc)). congruence. }
    assert (Hget : map_get ch chars = None).
    { unfold map_has in Hhas. now destruct (map_get ch chars). }
    rewrite map_get_set_same. cbn [Detect.info Detect.count Detect.positions].
    eexists. split; [reflexivity|].
    set (e0 := {| Detect.info := descriptor ch; Detect.count := 0;
                  Detect.positions := [] |}).
    set (e1 := {| Detect.info := descriptor ch; Detect.count := 1;
                  Detect.positions := [] ++ [List.length seen] |}).
    assert (Hsame : forall k0, k0 <> ch ->
              map_get k0 (map_set ch e1 (map_set ch e0 chars))
              = map_get k0 chars).
    { intros k0 Hk. now rewrite !map_get_set_other. }
    unfold detect_inventory_inv. rewrite filter_snoc, Hc, distinct_snoc.
    repeat split.
    + rewrite length_app. simpl. lia.
    + rewrite !map_set_keys. unfold map_has at 1.
      rewrite map_get_set_same, Hhas.
      rewrite <- Hkeys, lookup_existsb.
      unfold map_get in Hget. now rewrite Hget.
    + pose proof (map_set_sum Detect.count ch e0 chars) as Hs0.
      pose proof (map_set_sum Detect.count ch e1 (map_set ch e0 chars)) as Hs1.
      rewrite Hget in Hs0. rewrite map_get_set_same in Hs1.
      cbn [Detect.count e0 e1] in Hs0, Hs1.
      unfold detect_counts in *. lia.
    + destruct (Z.eq_dec ch0 ch) as [->|Hne].
      * rewrite map_get_set_same in H. injection H as <-.
        cbn [Detect.positions e1].
        rewrite positions_from_app, (positions_from_absent _ _ _ Hnew).
        cbn [positions_from]. now rewrite Z.eqb_refl.
      * destruct (Hother _ ch0 e Hsame Hne H) as [Hp _]. exact Hp.
    + destruct (Z.eq_dec ch0 ch) as [->|Hne].
      * rewrite map_get_set_same in H. now injection H as <-.
      * destruct (Hother _ ch0 e Hsame Hne H) as [_ [Hp _]]. exact Hp.
    + destruct (Z.eq_dec ch0 ch) as [->|Hne].
      * rewrite map_get_set_same in H. now injection H as <-.
      * destruct (Hother _ ch0 e Hsame Hne H) as [_ [_ Hp]]. exact Hp.
Qed.

Lemma detect_loop_inventory (incl : bool) :
  forall (rest seen : jsstring) (total : nat)
         (chars : list (code_unit * Detect.entry)),
    detect_inventory_inv incl seen total chars ->
    exists r,
      detect_loop incl (List.length seen) rest total chars = Normal r /\
      detect_inventory_inv incl (seen ++ rest)
        (Detect.total r) (Detect.chars r).
Proof.
  induction rest as [|ch rest IH]; intros seen total chars Hinv.
  - simpl. eexists. split; [reflexivity|]. now rewrite app_nil_r.
  - replace (seen ++ ch :: rest) with ((seen ++ [ch]) ++ rest)
      by now rewrite <- app_assoc.
    assert (Hlen : S (List.length seen) = List.length (seen ++ [ch])).
    { rewrite length_app. simpl. lia. }
    cbn [detect_loop]. rewrite Hlen.
    assert (Hcounted : counted incl ch = true ->
              exists r,
                (chars' <- detect_record ch (List.length seen)
                             (descriptor ch) chars ;;
                 detect_loop incl (List.length (seen ++ [ch])) rest
                   (S total) chars') = Normal r
                /\ detect_inventory_inv incl ((seen ++ [ch]) ++ rest)
                     (Detect.total r) (Detect.chars r)).
    { intros Hc.
      destruct (detect_inventory_record incl seen ch total chars Hc Hinv)
        as [chars' [-> Hinv']].
      cbn [bind]. now apply IH. }
    destruct (lookup ch INVISIBLE_CHARS) as [info|] eqn:Hl.
    + destruct (negb incl && set_has FORMATTING_CATEGORIES (category info))
        eqn:Hfmt.
      * apply IH. apply detect_inventory_skip; [|exact Hinv].
        unfold counted. now rewrite Hl, Hfmt.
      * replace info with (descriptor ch)
          by (unfold descriptor; now rewrite Hl).
        apply Hcounted. unfold counted. now rewrite Hl, Hfmt.
    + destruct (is_control_code ch) eqn:Hctl.
      * change {| name := "Control Character"; code := hex_label ch;
                  category := control |}
          with (match @None char_info with
                | Some info => info
                | None => {| name := "Control Character";
                             code := hex_label ch; category := control |}
                end).
        rewrite <- Hl. fold (descriptor ch).
        apply Hcounted. unfold counted. now rewrite Hl.
      * apply IH. apply detect_inventory_skip; [|exact Hinv].
        unfold counted. now rewrite Hl.
Qed.

Lemma detect_inventory (text : jsstring) (options : Detect.options) :
  exists r,
    detect text options = Normal r /\
    detect_inventory_inv (truthy (Detect.includeFormatting options)) text
      (Detect.total r) (Detect.chars r).
Proof.
  unfold detect.
  apply (detect_loop_inventory _ text [] 0 []).
  do 3 (split; [reflexivity|]). intros ch e H. discriminate.
Qed.

Lemma registry_labels :
  forallb (fun kv => String.eqb (code (snd kv)) (hex_label (fst kv)))
    INVISIBLE_CHARS = true.
Proof. vm_compute. reflexivity. Qed.

Lemma descriptor_label (ch : code_unit) :
  code (descriptor ch) = hex_label ch.
Proof.
  unfold descriptor.
  destruct (lookup ch INVISIBLE_CHARS) as [info|] eqn:Hl; [|reflexivity].
  apply lookup_In in Hl.
  pose proof registry_labels as H. rewrite forallb_forall in H.
  specialize (H _ Hl). now apply String.eqb_eq in H.
Qed.

(** X1. Every entry of the inventory of [detect] is exact: its positions
    are the indices of the character in the text, in increasing order, its
    count is their number (at least 1), and its descriptor is the registry
    entry or the generic control descriptor, labelled with the code point
    of the character. *)
Theorem detect_entries_exact (text : jsstring) (options : Detect.options) :
  exists r,
    detect text options = Normal r /\
    forall ch e,
      map_get ch (Detect.chars r) = Some e ->
      Detect.positions e = positions_from ch 0 text
      /\ Detect.count e = occurrences ch text
      /\ (1 <= Detect.count e)%nat
      /\ Detect.info e = descriptor ch
      /\ code (Detect.info e) = hex_label ch.
Proof.
  destruct (detect_inventory text options) as [r [Hr Hinv]].
  exists r. split; [exact Hr|]. intros ch e Hget.
  pose proof Hinv as [_ [_ [_ Hent]]].
  destruct (Hent ch e Hget) as [Hpos [Hcount Hinfo]].
  assert (Hocc : Detect.count e = occurrences ch text).
  { now rewrite Hcount, Hpos, positions_from_length. }
  repeat split; try assumption.
  - rewrite Hocc.
    assert (Hhas : map_has ch (Detect.chars r) = true).
    { unfold map_has. now rewrite Hget. }
    apply (inventory_key_counted _ _ _ _ _ Hinv) in Hhas.
    destruct Hhas as [Hin _].
    apply (count_occ_In Z.eq_dec) in Hin. exact Hin.
  - rewrite Hinfo. apply descriptor_label.
Qed.

(** X2. The total of [detect] is the sum of the counts of its entries and
    the number of code units of the text it counts, and the keys of its
    map are the distinct counted characters in the order in which they
    first occur. *)
Theorem detect_total_is_sum (text : jsstring) (options : Detect.options) :
  exists r,
    detect text options = Normal r /\
    Detect.total r = detect_counts (Detect.chars r) /\
    Detect.total r =
      List.length
        (filter (counted (truthy (Detect.includeFormatting options))) text) /\
    map fst (Detect.chars r) =
      distinct
        (filter (counted (truthy (Detect.includeFormatting options))) text).
Proof.
  destruct (detect_inventory text options) as [r [Hr [Htot [Hkeys [Hsum _]]]]].
  exists r. repeat split; [exact Hr | now symmetry | exact Htot | exact Hkeys].
Qed.

Lemma filter_partition_length {A} (p : A -> bool) (l : list A) :
  List.length l =
  (List.length (filter p l) + List.length (filter (fun x => negb (p x)) l))%nat.
Proof.
  induction l as [|x l IH]; [reflexivity|].
  simpl. destruct (p x); simpl; lia.
Qed.

(** X3. Without [includeFormatting], the total of [detect] is exactly the
    number of code units the invisible-character pass of [clean] removes:
    the length of the text is the total plus the length of the stripped
    text. *)
Theorem detect_total_is_stripped (text : jsstring) (options : Detect.options) :
  truthy (Detect.includeFormatting options) = false ->
  exists r,
    detect text options = Normal r /\
    List.length text =
      (Detect.total r + List.length (remove_all INVISIBLE_REGEX text))%nat.
Proof.
  intros Hopt.
  destruct (detect_inventory text options) as [r [Hr [Htot _]]].
  exists r. split; [exact Hr|].
  rewrite Htot, Hopt. unfold INVISIBLE_REGEX. rewrite remove_all_class.
  rewrite (filter_ext _ _ counted_strippable).
  apply filter_partition_length.
Qed.

Lemma detect_total_is_stripped_witness :
  exists r,
    detect (lit "a" ++ [0x200B; 0x0A; 0x01] ++ lit "b")
      {| Detect.includeFormatting := None |} = Normal r /\
    List.length (lit "a" ++ [0x200B; 0x0A; 0x01] ++ lit "b") =
      Nat.add (Detect.total r)
        (List.length
           (remove_all INVISIBLE_REGEX
              (lit "a" ++ [0x200B; 0x0A; 0x01] ++ lit "b"))).
Proof.
  apply detect_total_is_stripped. reflexivity.
Defined.

Lemma registry_formatting :
  forallb (fun kv => Bool.eqb (category_eqb (category (snd kv)) formatting)
                       (is_formatting_char (fst kv)))
    INVISIBLE_CHARS = true.
Proof. vm_compute. reflexivity. Qed.

Lemma counted_with_formatting (ch : code_unit) :
  counted true ch = counted false ch || is_formatting_char ch
  /\ counted false ch && is_formatting_char ch = false.
Proof.
  unfold counted.
  destruct (lookup ch INVISIBLE_CHARS) as [info|] eqn:Hl.
  - apply lookup_In in Hl.
    pose proof registry_formatting as H. rewrite forallb_forall in H.
    specialize (H _ Hl). cbn [fst snd] in H. apply Bool.eqb_prop in H.
    replace (set_has FORMATTING_CATEGORIES (category info))
      with (category_eqb (category info) formatting)
      by (unfold FORMATTING_CATEGORIES, set_has; simpl;
          now rewrite orb_false_r).
    rewrite H. now destruct (is_formatting_char ch).
  - assert (Hf : is_formatting_char ch = false).
    { apply not_true_iff_false. unfold is_formatting_char.
      rewrite existsb_eqb_In. intros Hin.
      assert (Hex : existsb (Z.eqb ch) (map fst INVISIBLE_CHARS) = true).
      { apply existsb_eqb_In.
        destruct Hin as [<-|[<-|[<-|[<-|[]]]]]; vm_compute; tauto. }
      rewrite lookup_existsb, Hl in Hex. discriminate. }
    rewrite Hf. now rewrite orb_false_r, andb_false_r.
Qed.

Lemma filter_disjoint_or_length {A} (p q : A -> bool) (l : list A) :
  (forall x, p x && q x = false) ->
  List.length (filter (fun x => p x || q x) l) =
  (List.length (filter p l) + List.length (filter q l))%nat.
Proof.
  intros H. induction l as [|x l IH]; [reflexivity|].
  simpl. specialize (H x).
  destruct (p x), (q x); simpl in *; try discriminate; lia.
Qed.

(** X4. Asking [detect] for the formatting characters adds exactly the
    tabs, line feeds, form feeds and carriage returns of the text to the
    total. *)
Theorem detect_formatting_difference (text : jsstring) :
  exists r1 r0,
    detect text {| Detect.includeFormatting := Some true |} = Normal r1 /\
    detect text {| Detect.includeFormatting := Some false |} = Normal r0 /\
    Detect.total r1 =
      (Detect.total r0 + List.length (filter is_formatting_char text))%nat.
Proof.
  destruct (detect_inventory text {| Detect.includeFormatting := Some true |})
    as [r1 [Hr1 [Ht1 _]]].
  destruct (detect_inventory text {| Detect.includeFormatting := Some false |})
    as [r0 [Hr0 [Ht0 _]]].
  exists r1, r0. repeat split; [exact Hr1 | exact Hr0 |].
  rewrite Ht1, Ht0. cbn [truthy Detect.includeFormatting].
  rewrite <- filter_disjoint_or_length
    by (intros c; apply counted_with_formatting).
  f_equal. apply filter_ext. intros c. apply counted_with_formatting.
Qed.

Lemma filter_nothing {A} (p : A -> bool) (l : list A) :
  (forall x, In x l -> p x = false) -> filter p l = [].
Proof.
  intros H. induction l as [|x l IH]; [reflexivity|].
  simpl. rewrite (H x (or_introl eq_refl)). apply IH.
  intros y Hy. apply H. now right.
Qed.

Section DetectAfterClean.

Variable normalize_NFC : jsstring -> jsstring.

Hypothesis NFC_adds_no_strippable :
  forall s, strippable_free s -> strippable_free (normalize_NFC s).

(** X5. After [clean], whatever its options, [detect] without
    [includeFormatting] finds nothing: total 0 and an empty map. *)
Theorem detect_after_clean (text : jsstring) (options : clean_options)
    (detectOptions : Detect.options) :
  truthy (Detect.includeFormatting detectOptions) = false ->
  detect (clean normalize_NFC text options) detectOptions
  = Normal {| Detect.total := 0; Detect.chars := [] |}.
Proof.
  intros Hopt.
  destruct (detect_inventory (clean normalize_NFC text options) detectOptions)
    as [r [Hr [Htot [Hkeys _]]]].
  rewrite Hr. f_equal.
  pose proof (clean_free normalize_NFC NFC_adds_no_strippable text options)
    as Hfree.
  rewrite Hopt in Htot, Hkeys.
  rewrite (filter_nothing (counted false)) in Htot, Hkeys
    by (intros c Hc; rewrite counted_strippable; now apply Hfree).
  destruct r as [total chars]. cbn in Htot, Hkeys.
  subst total. destruct chars; [reflexivity | discriminate].
Qed.

End DetectAfterClean.

Lemma detect_after_clean_witness :
  detect
    (clean (fun s => s)
       (lit "<b>Hi" ++ [0x200B; 0x01; 0xFEFF] ++ lit "</b> there")
       {| normalize := None; fixHomoglyphs := Some true;
          stripSpaces := None; stripHTML := Some true |})
    {| Detect.includeFormatting := None |}
  = Normal {| Detect.total := 0; Detect.chars := [] |}.
Proof.
  apply (detect_after_clean (fun s => s)).
  - intros s Hs. exact Hs.
  - reflexivity.
Defined.

(** ** detectHomoglyphs: the inventory *)

Lemma homoglyph_key_flagged (seen : jsstring) (total : nat)
    (chars : list (code_unit * Homoglyph.entry)) (ch : code_unit) :
  homoglyph_inventory_inv seen total chars ->
  map_has ch chars = true <-> (In ch seen /\ flagged ch = true).
Proof.
  intros [_ [Hkeys _]]. unfold map_has, map_get.
  rewrite <- lookup_existsb, existsb_eqb_In, Hkeys, distinct_In, filter_In.
  reflexivity.
Qed.

Lemma homoglyph_inventory_skip (seen : jsstring) (ch : code_unit)
    (total : nat) (chars : list (code_unit * Homoglyph.entry)) :
  flagged ch = false ->
  homoglyph_inventory_inv seen total chars ->
  homoglyph_inventory_inv (seen ++ [ch]) total chars.
Proof.
  intros Hf Hinv. pose proof Hinv as [Htot [Hkeys [Hsum Hent]]].
  unfold homoglyph_inventory_inv. rewrite filter_snoc, Hf.
  do 3 (split; [assumption|]).
  intros k e Hget. destruct (Hent k e Hget) as [Ho [Hr [Hc Hn]]].
  repeat split; try assumption.
  rewrite occurrences_snoc, Hn.
  destruct (ch =? k) eqn:E; [|lia].
  apply Z.eqb_eq in E. rewrite <- E in Hget.
  assert (Hhas : map_has ch chars = true).
  { unfold map_has. now rewrite Hget. }
  apply (homoglyph_key_flagged _ _ _ _ Hinv) in Hhas.
  destruct Hhas as [_ Hhas]. congruence.
Qed.

Lemma detectHomoglyphs_loop_inventory (whole : jsstring) :
  forall (rest seen : jsstring) (i total : nat)
         (chars : list (code_unit * Homoglyph.entry)),
    homoglyph_inventory_inv seen total chars ->
    exists r,
      detectHomoglyphs_loop whole i rest total chars = Normal r /\
      homoglyph_inventory_inv (seen ++ rest)
        (Homoglyph.total r) (Homoglyph.chars r).
Proof.
  induction rest as [|ch rest IH]; intros seen i total chars Hinv.
  - simpl. eexists. split; [reflexivity|]. now rewrite app_nil_r.
  - replace (seen ++ ch :: rest) with ((seen ++ [ch]) ++ rest)
      by now rewrite <- app_assoc.
    assert (Hfl : flagged ch =
                  match lookup ch HOMOGLYPHS with
                  | Some _ => negb (isExpectedChar whole i ch)
                  | None => false
                  end).
    { unfold flagged, in_HOMOGLYPH_REGEX. rewrite lookup_existsb.
      destruct (lookup ch HOMOGLYPHS); reflexivity. }
    cbn [detectHomoglyphs_loop].
    destruct (lookup ch HOMOGLYPHS) as [replacement|] eqn:Hl.
    2:{ apply IH. now apply homoglyph_inventory_skip. }
    destruct (isExpectedChar whole i ch) eqn:Hex; cbn [negb] in Hfl |- *.
    { apply IH. now apply homoglyph_inventory_skip. }
    pose proof Hinv as [Htot [Hkeys [Hsum Hent]]].
    pose proof (homoglyph_key_flagged _ _ _ ch Hinv) as Hkey.
    assert (Hother : forall chars' k e,
              (forall k0, k0 <> ch -> map_get k0 chars' = map_get k0 chars) ->
              k <> ch -> map_get k chars' = Some e ->
              homoglyph_entry_ok (seen ++ [ch]) k e).
    { intros chars' k e Hsame Hk Hget. rewrite Hsame in Hget by exact Hk.
      destruct (Hent k e Hget) as [Ho [Hr [Hc Hn]]].
      repeat split; try assumption.
      rewrite occurrences_snoc, Hn.
      destruct (ch =? k) eqn:E; [|lia].
      apply Z.eqb_eq in E. congruence. }
    destruct (map_has ch chars) eqn:Hhas; cbn [negb].
    + unfold map_has in Hhas.
      destruct (map_get ch chars) as [e|] eqn:Hget; [|discriminate].
      destruct (Hent ch e Hget) as [Ho [Hr [Hc Hn]]].
      apply IH.
      unfold homoglyph_inventory_inv. rewrite filter_snoc, Hfl, distinct_snoc.
      split; [rewrite length_app; simpl; lia|].
      split.
      { rewrite map_set_keys. unfold map_has. rewrite Hget.
        rewrite <- Hkeys, lookup_existsb.
        unfold map_get in Hget. now rewrite Hget. }
      split.
      { match goal with
        | |- context [map_set ch ?v chars] =>
            pose proof (map_set_sum Homoglyph.count ch v chars) as Hs
        end.
        rewrite Hget in Hs. cbn [Homoglyph.count] in Hs.
        unfold homoglyph_counts in *. lia. }
      intros k e0 Hk.
      destruct (Z.eq_dec k ch) as [->|Hne].
      * rewrite map_get_set_same in Hk. injection Hk as <-.
        repeat split; cbn [Homoglyph.original Homoglyph.replacement
                             Homoglyph.code Homoglyph.count];
          try assumption.
        rewrite occurrences_snoc, Z.eqb_refl. lia.
      * apply (Hother _ k e0
                 (fun k0 Hk0 => map_get_set_other ch k0 _ chars Hk0) Hne Hk).
    + assert (Hnew : ~ In ch seen).
      { intros Hin. destruct Hkey as [_ Hk].
        specialize (Hk (conj Hin Hfl)). congruence. }
      assert (Hget : map_get ch chars = None).
      { unfold map_has in Hhas. now destruct (map_get ch chars). }
      rewrite map_get_set_same.
      cbn [Homoglyph.original Homoglyph.replacement Homoglyph.code
             Homoglyph.count].
      apply IH.
      set (e0 := {| Homoglyph.original := ch; Homoglyph.code := hex_label ch;
                    Homoglyph.replacement := replacement;
                    Homoglyph.count := 0 |}).
      set (e1 := {| Homoglyph.original := ch; Homoglyph.code := hex_label ch;
                    Homoglyph.replacement := replacement;
                    Homoglyph.count := 1 |}).
      unfold homoglyph_inventory_inv. rewrite filter_snoc, Hfl, distinct_snoc.
      split; [rewrite length_app; simpl; lia|].
      split.
      { rewrite !map_set_keys. unfold map_has at 1.
        rewrite map_get_set_same, Hhas.
        rewrite <- Hkeys, lookup_existsb.
        unfold map_get in Hget. now rewrite Hget. }
      split.
      { pose proof (map_set_sum Homoglyph.count ch e0 chars) as Hs0.
        pose proof (map_set_sum Homoglyph.count ch e1 (map_set ch e0 chars))
          as Hs1.
        rewrite Hget in Hs0. rewrite map_get_set_same in Hs1.
        cbn [Homoglyph.count e0 e1] in Hs0, Hs1.
        unfold homoglyph_counts in *. lia. }
      intros k e Hk.
      destruct (Z.eq_dec k ch) as [->|Hne].
      * rewrite map_get_set_same in Hk. injection Hk as <-.
        repeat split; cbn [Homoglyph.original Homoglyph.replacement
                             Homoglyph.code Homoglyph.count e1];
          try assumption; try reflexivity.
        rewrite occurrences_snoc, Z.eqb_refl.
        unfold occurrences. rewrite (count_occ_not_In Z.eq_dec) in Hnew.
        rewrite Hnew. reflexivity.
      * apply (Hother (map_set ch e1 (map_set ch e0 chars)) k e).
        -- intros k0 Hk0. now rewrite !map_get_set_other.
        -- exact Hne.
        -- exact Hk.
Qed.

Lemma detectHomoglyphs_inventory (text : jsstring) :
  exists r,
    detectHomoglyphs text = Normal r /\
    homoglyph_inventory_inv text (Homoglyph.total r) (Homoglyph.chars r).
Proof.
  apply (detectHomoglyphs_loop_inventory text text [] 0 0 []).
  do 3 (split; [reflexivity|]). intros ch e H. discriminate.
Qed.

Lemma homoglyph_values_ascii :
  forallb (fun kv => (0x20 <=? snd kv) && (snd kv <=? 0x7E)) HOMOGLYPHS
  = true.
Proof. vm_compute. reflexivity. Qed.

(** X6. The homoglyph inventory is exact: [total] is the sum of the counts
    of the entries, the keys are the distinct flagged characters in the
    order in which they first occur, and each entry names its character,
    the replacement the table gives for it (a printable ASCII character),
    the character's code point label and its number of occurrences. *)
Theorem detectHomoglyphs_inventory_exact (text : jsstring) :
  exists r,
    detectHomoglyphs text = Normal r /\
    Homoglyph.total r = homoglyph_counts (Homoglyph.chars r) /\
    map fst (Homoglyph.chars r) = distinct (filter flagged text) /\
    forall ch e,
      map_get ch (Homoglyph.chars r) = Some e ->
      Homoglyph.original e = ch
      /\ lookup ch HOMOGLYPHS = Some (Homoglyph.replacement e)
      /\ 0x20 <= Homoglyph.replacement e <= 0x7E
      /\ Homoglyph.code e = hex_label ch
      /\ Homoglyph.count e = occurrences ch text.
Proof.
  destruct (detectHomoglyphs_inventory text)
    as [r [Hr [Htot [Hkeys [Hsum Hent]]]]].
  exists r. split; [exact Hr|]. split; [now symmetry|].
  split; [exact Hkeys|].
  intros ch e Hget. destruct (Hent ch e Hget) as [Ho [Hl [Hc Hn]]].
  repeat split; try assumption.
  - pose proof homoglyph_values_ascii as H. rewrite forallb_forall in H.
    specialize (H _ (lookup_In _ _ _ Hl)). cbn [snd] in H. lia.
  - pose proof homoglyph_values_ascii as H. rewrite forallb_forall in H.
    specialize (H _ (lookup_In _ _ _ Hl)). cbn [snd] in H. lia.
Qed.

(** X7. After [clean] with [fixHomoglyphs] on, [detectHomoglyphs] finds
    nothing, whatever the other options and the normalizer: folding comes
    after normalization and no later step brings a homoglyph back. *)
Theorem no_homoglyph_after_clean (normalize_NFC : jsstring -> jsstring)
    (text : jsstring) (options : clean_options) :
  truthy (fixHomoglyphs options) = true ->
  detectHomoglyphs (clean normalize_NFC text options)
  = Normal {| Homoglyph.total := 0; Homoglyph.chars := [] |}.
Proof.
  intros Hfix.
  assert (Hfree : flagged_free (clean normalize_NFC text options)).
  { unfold clean, clean_finish. rewrite Hfix.
    apply whitespace_cleanup_flagged_free, fix_homoglyphs_flagged_free. }
  destruct (detectHomoglyphs_inventory (clean normalize_NFC text options))
    as [r [Hr [Htot [Hkeys _]]]].
  rewrite Hr. f_equal.
  rewrite (filter_nothing flagged) in Htot, Hkeys by exact Hfree.
  destruct r as [total chars]. cbn in Htot, Hkeys.
  subst total. destruct chars; [reflexivity | discriminate].
Qed.

Lemma no_homoglyph_after_clean_witness :
  detectHomoglyphs
    (clean (fun s => s) (lit "H" ++ [0x0435; 0x2019; 0xFF4C] ++ lit "lo")
       {| normalize := None; fixHomoglyphs := Some true;
          stripSpaces := None; stripHTML := None |})
  = Normal {| Homoglyph.total := 0; Homoglyph.chars := [] |}.
Proof.
  apply (no_homoglyph_after_clean (fun s => s)). reflexivity.
Defined.

(** ** clean: whitespace of the output *)

Lemma never_matches_suffix (m : matcher) (a b : jsstring) :
  never_matches m (a ++ b) -> never_matches m b.
Proof.
  induction a as [|c a IH]; [now intros H|].
  intros [_ H]. now apply IH.
Qed.

Lemma clean_whitespace_done (normalize_NFC : jsstring -> jsstring)
    (text : jsstring) (options : clean_options) :
  never_matches TRAILING_REGEX (clean normalize_NFC text options)
  /\ never_matches SPACES_REGEX (clean normalize_NFC text options).
Proof.
  unfold clean, clean_finish. split.
  - apply collapse_spaces_keeps_trailing, strip_trailing_done.
  - apply collapse_spaces_done.
Qed.

(** X8. Whatever the options, the output of [clean] holds no two adjacent
    spaces, and no space or tab stands right before a line terminator or
    at the end of the output. *)
Theorem clean_whitespace_normal (normalize_NFC : jsstring -> jsstring)
    (text : jsstring) (options : clean_options) :
  (forall a b,
      clean normalize_NFC text options <> a ++ [0x20; 0x20] ++ b)
  /\ (forall a c b,
         clean normalize_NFC text options = a ++ c :: b ->
         is_blank c = true -> at_line_end b = false).
Proof.
  destruct (clean_whitespace_done normalize_NFC text options)
    as [Htrail Hspaces].
  split.
  - intros a b Heq. rewrite Heq in Hspaces.
    apply never_matches_suffix in Hspaces. destruct Hspaces as [H _].
    apply SPACES_REGEX_none in H. cbn [app run_length] in H.
    rewrite !Z.eqb_refl in H. lia.
  - intros a c b Heq Hc. rewrite Heq in Htrail.
    apply never_matches_suffix in Htrail. destruct Htrail as [H _].
    apply TRAILING_REGEX_none in H.
    rewrite Hc, blanks_reach_line_end_cons, Hc in H. cbn [andb] in H.
    apply not_true_iff_false. intros Hend.
    apply at_line_end_reach in Hend. congruence.
Qed.

(** ** clean: only deletions *)

Lemma subsequence_refl (s : jsstring) : subsequence s s.
Proof. induction s; now constructor. Qed.

Lemma subsequence_app (a a' b b' : jsstring) :
  subsequence a a' -> subsequence b b' -> subsequence (a ++ b) (a' ++ b').
Proof.
  intros Ha Hb. induction Ha; [exact Hb | |]; simpl; now constructor.
Qed.

Lemma subsequence_trans (a b c : jsstring) :
  subsequence a b -> subsequence b c -> subsequence a c.
Proof.
  intros Hab Hbc. revert a Hab.
  induction Hbc as [|x b c Hbc IH|x b c Hbc IH]; intros a Hab.
  - exact Hab.
  - inversion Hab; subst.
    + constructor. now apply IH.
    + apply subsequence_drop. now apply IH.
  - apply subsequence_drop. now apply IH.
Qed.

Lemma subsequence_nil_l (s : jsstring) : subsequence [] s.
Proof. induction s; now constructor. Qed.

(** A pass whose replacements are subsequences of its matches only
    deletes. *)
Lemma replace_all_subsequence (m : matcher) (f : jsstring -> jsstring) :
  (forall t n, m t = Some (S n) ->
               subsequence (f (firstn (S n) t)) (firstn (S n) t)) ->
  forall s, subsequence (replace_all m f s) s.
Proof.
  intros Hf s.
  apply (replace_all_ind m f (fun s out => subsequence out s)).
  - constructor.
  - intros c s' out _ IH. now constructor.
  - intros c s' n out Hm IH.
    rewrite <- (firstn_skipn (S n) (c :: s')) at 2.
    apply subsequence_app; [now apply Hf | exact IH].
Qed.

Lemma remove_all_subsequence (m : matcher) (s : jsstring) :
  subsequence (remove_all m s) s.
Proof.
  apply replace_all_subsequence. intros t n _. apply subsequence_nil_l.
Qed.

(** X9. With [stripHTML], normalization and homoglyph folding all off,
    [clean] only deletes: its output is a subsequence of the text. *)
Theorem clean_only_deletes (normalize_NFC : jsstring -> jsstring)
    (text : jsstring) (options : clean_options) :
  truthy (stripHTML options) = false ->
  not_false (normalize options) = false ->
  truthy (fixHomoglyphs options) = false ->
  subsequence (clean normalize_NFC text options) text.
Proof.
  intros Hhtml Hnorm Hfix.
  unfold clean, clean_strip, clean_finish. rewrite Hhtml, Hnorm, Hfix.
  eapply subsequence_trans.
  { apply replace_all_subsequence. intros t n Hm.
    apply SPACES_REGEX_match in Hm. destruct Hm as [Hrun [_ Hall]].
    destruct t as [|c t]; [discriminate Hrun|].
    cbn [firstn forallb] in Hall |- *.
    apply andb_true_iff in Hall. destruct Hall as [Hc _].
    apply Z.eqb_eq in Hc. subst c.
    constructor. apply subsequence_nil_l. }
  eapply subsequence_trans; [apply remove_all_subsequence|].
  eapply subsequence_trans; apply remove_all_subsequence.
Qed.

Lemma clean_only_deletes_witness :
  subsequence
    (clean (fun s => s) (lit "a " ++ [0x200B] ++ lit "  b  ")
       {| normalize := Some false; fixHomoglyphs := None;
          stripSpaces := None; stripHTML := None |})
    (lit "a " ++ [0x200B] ++ lit "  b  ").
Proof.
  apply (clean_only_deletes (fun s => s)); reflexivity.
Defined.

(** ** clean: hidden supplementary characters *)

Section HiddenPairs.

Variable normalize_NFC : jsstring -> jsstring.

Hypothesis NFC_adds_no_hidden_pair :
  forall s, supplementary_free s = true ->
            supplementary_free (normalize_NFC s) = true.

(** X10. On well-formed text, whatever the options, the output of [clean]
    holds no Tag character (U+E0001..U+E007F) and no character of the
    Variation Selectors Supplement (U+E0100..U+E01EF). *)
Theorem clean_leaves_no_hidden_pair (text : jsstring)
    (options : clean_options) :
  well_formed text = true ->
  supplementary_free (clean normalize_NFC text options) = true.
Proof.
  intros Hwf. unfold clean, clean_finish.
  apply collapse_spaces_supplementary_free,
    strip_trailing_supplementary_free.
  assert (Hs : supplementary_free (clean_strip text options) = true).
  { unfold clean_strip.
    apply (strip_supplementary_free _ false).
    apply strip_invisible_well_formed.
    rewrite well_formed_from_false.
    destruct (truthy (stripHTML options));
      [now apply strip_html_well_formed | exact Hwf]. }
  assert (Hn : supplementary_free
                 (if not_false (normalize options)
                  then normalize_NFC (clean_strip text options)
                  else clean_strip text options) = true).
  { destruct (not_false (normalize options)); [|exact Hs].
    now apply NFC_adds_no_hidden_pair. }
  destruct (truthy (fixHomoglyphs options)); [|exact Hn].
  now apply fix_homoglyphs_supplementary_free.
Qed.

End HiddenPairs.

Lemma clean_leaves_no_hidden_pair_witness :
  supplementary_free
    (clean (fun s => s)
       (lit "<i>x" ++ [0xDB40; 0xDC41; 0xD83D; 0xDE00; 0xDB40; 0xDD10]
        ++ lit "</i>")
       {| normalize := None; fixHomoglyphs := None;
          stripSpaces := None; stripHTML := Some true |}) = true.
Proof.
  apply (clean_leaves_no_hidden_pair (fun s => s)).
  - intros s Hs. exact Hs.
  - vm_compute. reflexivity.
Defined.

(** ** detectWhitespaceAnomalies: special spaces, and after clean *)

Lemma escaped_pattern_literal (ch : code_unit) :
  unescape_pattern
    (replace_all (class is_regexp_special) (fun m => 0x5C :: m) [ch])
  = [ch].
Proof.
  rewrite replace_all_class. cbn [flat_map].
  destruct (is_regexp_special ch) eqn:E; cbn [app unescape_pattern].
  - now rewrite Z.eqb_refl.
  - destruct (ch =? 0x5C) eqn:E'; [|reflexivity].
    apply Z.eqb_eq in E'. subst ch. vm_compute in E. discriminate.
Qed.

Lemma match_single_count (ch : code_unit) (s : jsstring) :
  forall prev,
    List.length (match_from (no_context (literal false [ch])) prev O s)
    = occurrences ch s.
Proof.
  unfold occurrences.
  induction s as [|c s IH]; intros prev; [reflexivity|].
  assert (Hm : no_context (literal false [ch]) prev (c :: s)
               = if ch =? c then Some 1%nat else None).
  { unfold no_context, literal. cbn [starts_with List.length].
    now rewrite andb_true_r. }
  cbn [match_from count_occ]. rewrite Hm.
  destruct (Z.eq_dec c ch) as [->|Hne].
  - rewrite Z.eqb_refl. cbn [List.length]. now rewrite IH.
  - apply Z.eqb_neq in Hne. rewrite Z.eqb_sym, Hne. apply IH.
Qed.

Lemma special_space_match (ch : code_unit) (text : jsstring) :
  match
    String_match
      (RegExp_of_source
         (replace_all (class is_regexp_special) (fun m => 0x5C :: m) [ch]))
      text
  with
  | Some matches =>
      List.length matches = occurrences ch text
      /\ (0 <? occurrences ch text)%nat = true
  | None => (0 <? occurrences ch text)%nat = false
  end.
Proof.
  unfold String_match, RegExp_of_source. rewrite escaped_pattern_literal.
  pose proof (match_single_count ch text None) as H.
  destruct (match_from (no_context (literal false [ch])) None O text)
    as [|x ms].
  - simpl in H. now rewrite <- H.
  - rewrite <- H. split; [reflexivity|]. reflexivity.
Qed.

Lemma special_spaces_exact (text : jsstring) :
  forall entries total issues,
    special_spaces text entries total issues =
    {| Whitespace.total :=
         (total
          + list_sum (map Whitespace.count
                        (special_space_issues text entries)))%nat;
       Whitespace.issues := issues ++ special_space_issues text entries |}.
Proof.
  induction entries as [|[ch info] rest IH]; intros total issues.
  - cbn. now rewrite Nat.add_0_r, app_nil_r.
  - cbn [special_spaces special_space_issues flat_map fst snd].
    pose proof (special_space_match ch text) as Hm.
    destruct (String_match _ text) as [matches|].
    + destruct Hm as [Hlen Hpos]. rewrite Hpos, IH, Hlen.
      cbn [app map list_sum fold_right Whitespace.count].
      rewrite <- app_assoc. f_equal.
      change (fold_right Nat.add O) with list_sum.
      unfold special_space_issues. lia.
    + rewrite Hm, IH. reflexivity.
Qed.

Lemma special_space_issues_typed (text : jsstring)
    (entries : list (code_unit * char_info)) :
  filter is_special_space_issue (special_space_issues text entries)
  = special_space_issues text entries.
Proof.
  induction entries as [|[ch info] rest IH]; [reflexivity|].
  cbn [special_space_issues flat_map fst snd].
  destruct (0 <? occurrences ch text)%nat; [|exact IH].
  cbn [app filter is_special_space_issue Whitespace.type].
  f_equal. exact IH.
Qed.

Lemma occurrences_sum (keys : list code_unit) (text : jsstring) :
  NoDup keys ->
  list_sum (map (fun k => occurrences k text) keys)
  = List.length (filter (fun c => existsb (Z.eqb c) keys) text).
Proof.
  intros Hnd. induction text as [|c text IH].
  - cbn. induction keys as [|k keys IHk]; [reflexivity|].
    inversion Hnd; subst. cbn. now apply IHk.
  - cbn [filter]. 
    assert (Hstep : list_sum (map (fun k => occurrences k (c :: text)) keys)
                    = ((if existsb (Z.eqb c) keys then 1 else 0)
                       + list_sum (map (fun k => occurrences k text) keys))%nat).
    { clear IH. induction Hnd as [|k keys Hk Hnd IHk]; [reflexivity|].
      cbn [map list_sum fold_right existsb].
      change (fold_right Nat.add O) with list_sum. rewrite IHk.
      unfold occurrences at 1. cbn [count_occ].
      destruct (Z.eq_dec c k) as [->|Hne].
      - rewrite Z.eqb_refl. cbn [orb].
        assert (Hex : existsb (Z.eqb k) keys = false).
        { apply not_true_iff_false. now rewrite existsb_eqb_In. }
        rewrite Hex. unfold occurrences. lia.
      - apply Z.eqb_neq in Hne. rewrite Hne. cbn [orb].
        unfold occurrences. lia. }
    rewrite Hstep, IH.
    now destruct (existsb (Z.eqb c) keys).
Qed.

Lemma special_space_issues_sum (text : jsstring)
    (entries : list (code_unit * char_info)) :
  list_sum (map Whitespace.count (special_space_issues text entries))
  = list_sum (map (fun k => occurrences k text) (map fst entries)).
Proof.
  induction entries as [|[ch info] rest IH]; [reflexivity|].
  cbn [special_space_issues flat_map fst snd map list_sum fold_right].
  change (fold_right Nat.add O) with list_sum.
  destruct (0 <? occurrences ch text)%nat eqn:E.
  - cbn [app map list_sum fold_right Whitespace.count].
    change (fold_right Nat.add O) with list_sum.
    unfold special_space_issues in IH. now rewrite IH.
  - apply Nat.ltb_ge in E. cbn [app].
    unfold special_space_issues in IH. rewrite IH. lia.
Qed.

Lemma spaceChars_distinct : NoDup (map fst spaceChars).
Proof.
  assert (H : nodup Z.eq_dec (map fst spaceChars) = map fst spaceChars)
    by (vm_compute; reflexivity).
  rewrite <- H. apply NoDup_nodup.
Qed.

(** X11. The special-space issues of [detectWhitespaceAnomalies] are, in
    registry order, one issue for each character of category [space] that
    occurs in the text, counting its occurrences and described by its name
    and label; together they count every special space of the text once. *)
Theorem special_space_issues_exact (text : jsstring) :
  filter is_special_space_issue
    (Whitespace.issues (detectWhitespaceAnomalies text))
  = special_space_issues text spaceChars
  /\ list_sum (map Whitespace.count (special_space_issues text spaceChars))
     = List.length (filter is_special_space text).
Proof.
  split.
  - unfold detectWhitespaceAnomalies.
    destruct (String_match (no_context TRAILING_REGEX) text) as [tm|];
      destruct (String_match DOUBLE_SPACE_REGEX text) as [dm|];
      destruct (includes [0x0D; 0x0A] text
                && RegExp_test BARE_LF_REGEX text);
      cbv zeta; rewrite special_spaces_exact;
      cbn [Whitespace.issues app];
      rewrite ?filter_app; cbn [filter is_special_space_issue
                                  Whitespace.type app];
      apply special_space_issues_typed.
  - rewrite special_space_issues_sum.
    apply (occurrences_sum _ _ spaceChars_distinct).
Qed.

Lemma match_from_never (m : matcher) (s : jsstring) :
  never_matches m s ->
  forall prev, match_from (no_context m) prev O s = [].
Proof.
  induction s as [|c s IH]; intros Hn prev; [reflexivity|].
  destruct Hn as [Hc Hs]. cbn [match_from].
  change (no_context m prev (c :: s)) with (m (c :: s)).
  destruct Hc as [-> | ->]; now apply IH.
Qed.

Lemma DOUBLE_SPACE_needs_run (prev : option code_unit) (s : jsstring)
    (n : nat) :
  DOUBLE_SPACE_REGEX prev s = Some n -> SPACES_REGEX s = Some n /\ (2 <= n)%nat.
Proof.
  unfold DOUBLE_SPACE_REGEX, SPACES_REGEX.
  destruct prev as [p|]; [|discriminate].
  destruct (negb (is_js_whitespace p)); [|discriminate].
  destruct (skipn (run_length (Z.eqb 32) s) s) as [|d r]; [discriminate|].
  destruct (2 <=? run_length (Z.eqb 32) s)%nat eqn:E; [|discriminate].
  cbn [andb]. destruct (negb (is_js_whitespace d)); [|discriminate].
  intros [= <-]. apply Nat.leb_le in E. now split.
Qed.

Lemma match_double_space_never (s : jsstring) :
  never_matches SPACES_REGEX s ->
  forall prev, match_from DOUBLE_SPACE_REGEX prev O s = [].
Proof.
  induction s as [|c s IH]; intros Hn prev; [reflexivity|].
  destruct Hn as [Hc Hs]. cbn [match_from].
  destruct (DOUBLE_SPACE_REGEX prev (c :: s)) as [[|n]|] eqn:E;
    try now apply IH.
  apply DOUBLE_SPACE_needs_run in E. destruct E as [E _].
  rewrite E in Hc. destruct Hc; discriminate.
Qed.

Lemma spaceChars_strippable :
  forallb (fun kv => in_INVISIBLE_REGEX (fst kv)) spaceChars = true.
Proof. vm_compute. reflexivity. Qed.

Lemma special_space_issues_none (text : jsstring)
    (entries : list (code_unit * char_info)) :
  (forall kv, In kv entries -> ~ In (fst kv) text) ->
  special_space_issues text entries = [].
Proof.
  intros H. induction entries as [|kv rest IH]; [reflexivity|].
  cbn [special_space_issues flat_map].
  assert (Hocc : occurrences (fst kv) text = O).
  { apply count_occ_not_In, H. now left. }
  rewrite Hocc. cbn [Nat.ltb Nat.leb app].
  apply IH. intros kv' Hin. apply H. now right.
Qed.

Section WhitespaceAfterClean.

Variable normalize_NFC : jsstring -> jsstring.

Hypothesis NFC_adds_no_strippable :
  forall s, strippable_free s -> strippable_free (normalize_NFC s).

(** X12. After [clean], whatever its options, the only whitespace anomaly
    [detectWhitespaceAnomalies] can still report is mixed line endings:
    the result is empty with total 0, or the single mixed-endings issue
    with total 1. *)
Theorem whitespace_after_clean (text : jsstring) (options : clean_options) :
  detectWhitespaceAnomalies (clean normalize_NFC text options)
  = {| Whitespace.total := 0; Whitespace.issues := [] |}
  \/ detectWhitespaceAnomalies (clean normalize_NFC text options)
     = {| Whitespace.total := 1; Whitespace.issues := [mixed_endings_issue] |}.
Proof.
  destruct (clean_whitespace_done normalize_NFC text options)
    as [Htrail Hspaces].
  pose proof (clean_free normalize_NFC NFC_adds_no_strippable text options)
    as Hfree.
  set (out := clean normalize_NFC text options) in *.
  assert (Hspecial : special_space_issues out spaceChars = []).
  { apply special_space_issues_none. intros kv Hin Hocc.
    pose proof spaceChars_strippable as H. rewrite forallb_forall in H.
    specialize (H _ Hin). rewrite (Hfree _ Hocc) in H. discriminate. }
  unfold detectWhitespaceAnomalies, String_match.
  rewrite (match_from_never _ _ Htrail), (match_double_space_never _ Hspaces).
  cbv zeta.
  destruct (includes [0x0D; 0x0A] out && RegExp_test BARE_LF_REGEX out);
    rewrite special_spaces_exact, Hspecial; [right | left]; reflexivity.
Qed.

End WhitespaceAfterClean.

Lemma whitespace_after_clean_witness :
  detectWhitespaceAnomalies
    (clean (fun s => s)
       (lit "a  b " ++ [0x0D; 0x0A; 0xA0] ++ lit "c" ++ [0x09; 0x0A])
       default_options)
  = {| Whitespace.total := 0; Whitespace.issues := [] |}
  \/ detectWhitespaceAnomalies
       (clean (fun s => s)
          (lit "a  b " ++ [0x0D; 0x0A; 0xA0] ++ lit "c" ++ [0x09; 0x0A])
          default_options)
     = {| Whitespace.total := 1; Whitespace.issues := [mixed_endings_issue] |}.
Proof.
  apply (whitespace_after_clean (fun s => s)).
  intros s Hs. exact Hs.
Defined.

(** ** escapeHTML *)

Lemma escape_char_markup (c : code_unit) :
  forallb (fun d => negb (is_markup_char d)) (escape_char c) = true.
Proof.
  unfold escape_char.
  destruct (c =? 0x26) eqn:E1; [reflexivity|].
  destruct (c =? 0x3C) eqn:E2; [reflexivity|].
  destruct (c =? 0x3E) eqn:E3; [reflexivity|].
  destruct (c =? 0x22) eqn:E4; [reflexivity|].
  destruct (c =? 0x27) eqn:E5; [reflexivity|].
  cbn [forallb is_markup_char existsb].
  now rewrite E2, E3, E4, E5.
Qed.

Lemma escape_char_plain (c : code_unit) :
  is_html_special c = false -> escape_char c = [c].
Proof.
  unfold is_html_special, escape_char. cbn [existsb].
  rewrite !orb_false_iff. intros [-> [-> [-> [-> [-> _]]]]]. reflexivity.
Qed.

Lemma escape_char_length (c : code_unit) :
  (1 <= List.length (escape_char c))%nat.
Proof.
  unfold escape_char.
  repeat match goal with
         | |- context [if ?b then _ else _] => destruct b
         end; simpl; lia.
Qed.

(** X13. The output of [escapeHTML] holds none of the characters [<],
    [>], double quote and single quote; a text without the five special
    characters comes back unchanged; and escaping never shortens. *)
Theorem escapeHTML_safe (str : jsstring) :
  (forall c, In c (escapeHTML str) -> is_markup_char c = false)
  /\ (forallb (fun c => negb (is_html_special c)) str = true ->
      escapeHTML str = str)
  /\ (List.length str <= List.length (escapeHTML str))%nat.
Proof.
  rewrite escapeHTML_chars. repeat split.
  - intros c Hin. apply in_flat_map in Hin. destruct Hin as [d [_ Hc]].
    pose proof (escape_char_markup d) as H. rewrite forallb_forall in H.
    now apply negb_true_iff, H.
  - induction str as [|c str IH]; [reflexivity|].
    cbn [forallb flat_map]. intros H. apply andb_true_iff in H.
    destruct H as [Hc Hs]. apply negb_true_iff in Hc.
    now rewrite (escape_char_plain c Hc), (IH Hs).
  - induction str as [|c str IH]; [reflexivity|].
    cbn [flat_map List.length]. rewrite length_app.
    pose proof (escape_char_length c). lia.
Qed.

(** X14. [escapeHTML] loses nothing: decoding its five entities gives the
    text back, so two texts with the same escaping are equal. *)
Theorem escapeHTML_invertible (str : jsstring) :
  unescapeHTML (escapeHTML str) = str
  /\ forall other, escapeHTML other = escapeHTML str -> other = str.
Proof.
  assert (H : forall t, unescapeHTML (escapeHTML t) = t).
  { intros t. rewrite <- (app_nil_r (escapeHTML t)).
    rewrite unescapeHTML_escapeHTML. apply app_nil_r. }
  split; [apply H|].
  intros other Heq. rewrite <- (H other), Heq. apply H.
Qed.

(** ** revealHTML: structure of the rendering *)

Lemma markup_safe_nil : markup_safe [].
Proof. intros [|x a] b H; discriminate. Qed.

Lemma markup_safe_plain (x rest : jsstring) :
  forallb not_lt x = true -> markup_safe rest -> markup_safe (x ++ rest).
Proof.
  intros Hx Hrest. induction x as [|c x IH]; [exact Hrest|].
  cbn [forallb] in Hx. apply andb_true_iff in Hx. destruct Hx as [Hc Hx].
  intros a b Heq. destruct a as [|d a].
  - injection Heq as -> _. discriminate.
  - injection Heq as _ Heq. exact (IH Hx a b Heq).
Qed.

Lemma markup_safe_tag (y : jsstring) :
  span_tag_follows y = true -> markup_safe y -> markup_safe (0x3C :: y).
Proof.
  intros Hy Hs a b Heq. destruct a as [|d a].
  - injection Heq as <-. exact Hy.
  - injection Heq as _ Heq. exact (Hs a b Heq).
Qed.

Lemma markup_safe_visible (buf rest : jsstring) :
  markup_safe rest -> markup_safe (visible_span buf ++ rest).
Proof.
  intros Hrest. rewrite visible_span_shape, <- !app_assoc.
  change (open_visible ++ escapeHTML buf ++ close_span ++ rest)
    with (0x3C :: (tl open_visible ++ escapeHTML buf
                   ++ 0x3C :: (tl close_span ++ rest))).
  apply markup_safe_tag; [reflexivity|].
  apply markup_safe_plain; [reflexivity|].
  apply markup_safe_plain; [apply escapeHTML_not_lt|].
  apply markup_safe_tag; [reflexivity|].
  apply markup_safe_plain; [reflexivity | exact Hrest].
Qed.

Lemma markup_safe_annotation (cssClass charName label : string)
    (rest : jsstring) :
  tame cssClass charName label ->
  markup_safe rest ->
  markup_safe (annotation_span cssClass charName label ++ rest).
Proof.
  intros [Hclass [Hname Hlabel]] Hrest.
  set (body :=
         lit "span class=" ++ dq ++ lit cssClass ++ dq ++ lit " title=" ++ dq
         ++ lit charName ++ lit " (" ++ lit label ++ lit ")" ++ dq ++ lit ">["
         ++ lit label ++ lit "]").
  assert (Hshape : annotation_span cssClass charName label ++ rest
                   = 0x3C :: (body ++ 0x3C :: (tl close_span ++ rest))).
  { unfold annotation_span, body. rewrite <- !app_assoc. reflexivity. }
  rewrite Hshape.
  apply markup_safe_tag.
  - unfold body. destruct Hclass as [-> | ->]; reflexivity.
  - apply markup_safe_plain.
    + unfold body. rewrite !forallb_app, Hname, Hlabel.
      destruct Hclass as [-> | ->]; reflexivity.
    + apply markup_safe_tag; [reflexivity|].
      apply markup_safe_plain; [reflexivity | exact Hrest].
Qed.

(** X15. Every opening angle bracket in the output of [revealHTML] starts
    one of the renderer's own span tags (an opening span of a char- class
    or a closing span): no character of the text opens markup. *)
Theorem revealHTML_markup_safe (text : jsstring) (options : Detect.options) :
  markup_safe (revealHTML text options).
Proof.
  unfold revealHTML.
  destruct (revealHTML_loop_parts
              (not_false (Detect.includeFormatting options)) text [] [])
    as [ps [Heq [Hall _]]].
  rewrite Heq. cbn [app]. clear Heq.
  induction Hall as [|p ps Hp _ IH]; [exact markup_safe_nil|].
  cbn [map concat]. destruct p as [b|c n l]; cbn [render_part].
  - now apply markup_safe_visible.
  - now apply markup_safe_annotation.
Qed.

(** *** Matching without lookbehind *)

Lemma match_from_no_context_prev (m : matcher) (s : jsstring) :
  forall prev prev' skip,
    match_from (no_context m) prev skip s
    = match_from (no_context m) prev' skip s.
Proof.
  induction s as [|c s IH]; intros prev prev' skip; reflexivity.
Qed.

Lemma match_from_skip (m : matcher) (x rest : jsstring) :
  forall prev,
    match_from (no_context m) prev (List.length x) (x ++ rest)
    = match_from (no_context m) None O rest.
Proof.
  induction x as [|c x IH]; intros prev.
  - cbn [List.length app]. apply match_from_no_context_prev.
  - cbn [List.length app match_from]. apply IH.
Qed.

Lemma match_from_unmatched_prefix (m : matcher) (q : code_unit -> bool)
    (t rest : jsstring) :
  (forall c s, q c = true -> m (c :: s) = None) ->
  forallb q t = true ->
  forall prev,
    match_from (no_context m) prev O (t ++ rest)
    = match_from (no_context m) None O rest.
Proof.
  intros Hq. induction t as [|c t IH]; intros Ht prev.
  - apply match_from_no_context_prev.
  - cbn [forallb] in Ht. apply andb_true_iff in Ht. destruct Ht as [Hc Ht].
    cbn [app match_from].
    change (no_context m prev (c :: t ++ rest)) with (m (c :: t ++ rest)).
    rewrite (Hq c _ Hc). now apply IH.
Qed.

Lemma match_from_unmatched_head (m : matcher) (c : code_unit)
    (s : jsstring) (prev : option code_unit) :
  m (c :: s) = None ->
  match_from (no_context m) prev O (c :: s)
  = match_from (no_context m) None O s.
Proof.
  intros H. cbn [match_from].
  change (no_context m prev (c :: s)) with (m (c :: s)).
  rewrite H. apply match_from_no_context_prev.
Qed.

Lemma match_from_match_prefix (m : matcher) (t rest : jsstring)
    (prev : option code_unit) :
  t <> [] ->
  m (t ++ rest) = Some (List.length t) ->
  match_from (no_context m) prev O (t ++ rest)
  = t :: match_from (no_context m) None O rest.
Proof.
  destruct t as [|c t']; [congruence|]. intros _ Hm.
  change ((c :: t') ++ rest) with (c :: (t' ++ rest)) in Hm |- *.
  cbn [match_from].
  change (no_context m prev (c :: t' ++ rest)) with (m (c :: t' ++ rest)).
  rewrite Hm. cbn [List.length].
  rewrite firstn_cons, firstn_app, Nat.sub_diag, firstn_all.
  cbn [firstn]. rewrite app_nil_r, match_from_skip. reflexivity.
Qed.

Lemma ANNOTATION_SPAN_annotation (cssClass charName label : string)
    (rest : jsstring) :
  tame cssClass charName label ->
  ANNOTATION_SPAN (annotation_span cssClass charName label ++ rest)
  = Some (List.length (annotation_span cssClass charName label)).
Proof.
  intros [Hclass [Hname Hlabel]].
  set (body :=
         lit "span class=" ++ dq ++ lit cssClass ++ dq ++ lit " title=" ++ dq
         ++ lit charName ++ lit " (" ++ lit label ++ lit ")" ++ dq ++ lit ">["
         ++ lit label ++ lit "]").
  assert (Hshape : annotation_span cssClass charName label
                   = 0x3C :: body ++ close_span).
  { unfold annotation_span, body, close_span.
    rewrite <- !app_assoc. reflexivity. }
  assert (Hbody : forallb not_lt body = true).
  { unfold body. rewrite !forallb_app, Hname, Hlabel.
    destruct Hclass as [-> | ->]; reflexivity. }
  assert (Hprefix :
            starts_with false
              (lit "<span class=" ++ dq ++ lit "char-hidden" ++ dq)
              (annotation_span cssClass charName label ++ rest)
            || starts_with false
                 (lit "<span class=" ++ dq ++ lit "char-formatting" ++ dq)
                 (annotation_span cssClass charName label ++ rest) = true).
  { unfold annotation_span.
    destruct Hclass as [-> | ->]; reflexivity. }
  unfold ANNOTATION_SPAN. rewrite Hprefix, Hshape.
  change ((0x3C :: body ++ close_span) ++ rest)
    with (0x3C :: ((body ++ close_span) ++ rest)).
  rewrite <- app_assoc.
  assert (Hhead : starts_with false (lit "</span>")
                    (0x3C :: body ++ close_span ++ rest) = false)
    by reflexivity.
  cbn [index_after]. rewrite Hhead.
  change (lit "</span>") with close_span.
  rewrite (index_after_found close_span body rest not_lt);
    [| exact close_span_not_lt | exact Hbody | reflexivity].
  cbn [option_map List.length]. rewrite length_app. reflexivity.
Qed.

Lemma annotation_matches_visible (buf rest : jsstring) :
  match_from (no_context ANNOTATION_SPAN) None O (visible_span buf ++ rest)
  = match_from (no_context ANNOTATION_SPAN) None O rest.
Proof.
  rewrite visible_span_shape, <- !app_assoc.
  change (open_visible ++ escapeHTML buf ++ close_span ++ rest)
    with (0x3C :: (tl open_visible ++ escapeHTML buf ++ close_span ++ rest)).
  rewrite match_from_unmatched_head by reflexivity.
  rewrite (match_from_unmatched_prefix _ not_lt (tl open_visible));
    [| exact ANNOTATION_SPAN_not_lt | reflexivity].
  rewrite (match_from_unmatched_prefix _ not_lt (escapeHTML buf));
    [| exact ANNOTATION_SPAN_not_lt | apply escapeHTML_not_lt].
  change (close_span ++ rest) with (0x3C :: (tl close_span ++ rest)).
  rewrite match_from_unmatched_head by reflexivity.
  rewrite (match_from_unmatched_prefix _ not_lt (tl close_span));
    [| exact ANNOTATION_SPAN_not_lt | reflexivity].
  reflexivity.
Qed.

Lemma annotation_matches_parts (ps : list part) :
  Forall part_tame ps ->
  match_from (no_context ANNOTATION_SPAN) None O (concat (map render_part ps))
  = map render_part (filter is_annotation_part ps).
Proof.
  intros Hall. induction Hall as [|p ps Hp _ IH]; [reflexivity|].
  destruct p as [b|c n l];
    cbn [map concat render_part filter is_annotation_part].
  - now rewrite annotation_matches_visible.
  - rewrite match_from_match_prefix;
      [now rewrite IH | unfold annotation_span; discriminate
      | now apply ANNOTATION_SPAN_annotation].
Qed.

(** *** The parts, counted *)

Lemma coalesced_after_visible (b : jsstring) (p : part) (ps : list part) :
  b <> [] -> is_annotation_part p = true -> coalesced (p :: ps) ->
  coalesced (VisiblePart b :: p :: ps).
Proof.
  intros Hb Hp Hps. destruct p; [discriminate|].
  cbn [coalesced] in *. tauto.
Qed.

Lemma revealHTML_loop_structure (includeFormatting : bool)
    (text : jsstring) :
  forall parts visibleBuffer,
  exists ps,
    revealHTML_loop includeFormatting text parts visibleBuffer
    = parts ++ map render_part ps
    /\ Forall part_tame ps
    /\ coalesced ps
    /\ List.length (filter is_annotation_part ps)
       = List.length (filter (shouldAnnotate includeFormatting) text).
Proof.
  induction text as [|ch rest IH]; intros parts buf.
  - destruct buf as [|b buf].
    + exists []. cbn. rewrite app_nil_r. repeat split. constructor.
    + exists [VisiblePart (b :: buf)].
      split; [reflexivity|]. split; [now constructor|].
      split; [|reflexivity]. cbn. repeat split. discriminate.
  - cbn [revealHTML_loop filter].
    destruct (shouldAnnotate includeFormatting ch) eqn:Hann.
    + set (label := match lookup ch INVISIBLE_CHARS with
                    | Some i => code i
                    | None => hex_label ch
                    end).
      set (charName := match lookup ch INVISIBLE_CHARS with
                       | Some i => name i
                       | None => "Control Character"%string
                       end).
      set (cssClass := match lookup ch INVISIBLE_CHARS with
                       | Some i =>
                           if set_has FORMATTING_CATEGORIES (category i)
                           then "char-formatting"%string
                           else "char-hidden"%string
                       | None => "char-hidden"%string
                       end).
      assert (Htame : tame cssClass charName label).
      { unfold tame, cssClass, charName, label.
        unfold shouldAnnotate in Hann.
        destruct (lookup ch INVISIBLE_CHARS) as [i|] eqn:Hl.
        - apply lookup_In in Hl.
          pose proof registry_tame as Hreg.
          rewrite forallb_forall in Hreg. specialize (Hreg _ Hl).
          cbn [snd] in Hreg. apply andb_true_iff in Hreg.
          split; [|exact Hreg].
          destruct (set_has FORMATTING_CATEGORIES (category i)); tauto.
        - split; [now left|]. split; [reflexivity|].
          now apply control_label_tame. }
      match goal with
      | |- context [revealHTML_loop _ rest ?p []] =>
          destruct (IH p []) as [ps [Heq [Hall [Hco Hcount]]]]
      end.
      rewrite Heq.
      destruct buf as [|b buf].
      * exists (AnnotationPart cssClass charName label :: ps).
        cbn [map render_part app filter is_annotation_part List.length
             coalesced].
        rewrite <- app_assoc.
        split; [reflexivity|]. split; [now constructor|].
        split; [exact Hco | now rewrite Hcount].
      * exists (VisiblePart (b :: buf)
                :: AnnotationPart cssClass charName label :: ps).
        cbn [map render_part app filter is_annotation_part List.length].
        rewrite <- !app_assoc.
        split; [reflexivity|].
        split; [constructor; [exact I|]; now constructor|].
        split; [|now rewrite Hcount].
        apply coalesced_after_visible;
          [discriminate | reflexivity | exact Hco].
    + destruct (IH parts (buf ++ [ch])) as [ps [Heq [Hall [Hco Hcount]]]].
      exists ps. split; [exact Heq|]. split; [exact Hall|].
      split; [exact Hco | exact Hcount].
Qed.

(** X16. The rendering of [revealHTML] holds one annotation span for each
    character [detect] counts when [includeFormatting] is given to it as
    the boolean [revealHTML] works with (its default there is [true]). *)
Theorem revealHTML_annotation_count (text : jsstring)
    (options : Detect.options) :
  exists r,
    detect text
      {| Detect.includeFormatting :=
           Some (not_false (Detect.includeFormatting options)) |}
    = Normal r
    /\ List.length
         (match_from (no_context ANNOTATION_SPAN) None O
            (revealHTML text options))
       = Detect.total r.
Proof.
  set (incl := not_false (Detect.includeFormatting options)).
  destruct (detect_inventory text {| Detect.includeFormatting := Some incl |})
    as [r [Hr [Htot _]]].
  exists r. split; [exact Hr|].
  unfold revealHTML. fold incl.
  destruct (revealHTML_loop_structure incl text [] [])
    as [ps [Heq [Hall [_ Hcount]]]].
  rewrite Heq. cbn [app].
  rewrite (annotation_matches_parts ps Hall), length_map, Hcount, Htot.
  cbn [Detect.includeFormatting]. 
  replace (truthy (Some incl)) with incl by now destruct incl.
  f_equal. apply filter_ext. intros c. apply shouldAnnotate_counted.
Qed.

(** X17. The parts [revealHTML] joins alternate: it never pushes an empty
    visible span, and never two visible spans in a row, so consecutive
    unannotated characters always share one span. *)
Theorem revealHTML_spans_coalesced (text : jsstring)
    (options : Detect.options) :
  exists ps,
    revealHTML_loop (not_false (Detect.includeFormatting options)) text [] []
    = map render_part ps
    /\ coalesced ps
    /\ revealHTML text options = concat (map render_part ps).
Proof.
  destruct (revealHTML_loop_structure
              (not_false (Detect.includeFormatting options)) text [] [])
    as [ps [Heq [_ [Hco _]]]].
  exists ps. unfold revealHTML. rewrite Heq.
  split; [reflexivity|]. split; [exact Hco | reflexivity].
Qed.

(** ** inject *)

Lemma split_spaces_join (s : jsstring) :
  forall word sep,
    concat (split_spaces word sep s)
    = word ++ match sep with None => [] | Some sp => sp end ++ s.
Proof.
  induction s as [|c s IH]; intros word sep.
  - destruct sep as [sp|]; cbn; now rewrite ?app_nil_r.
  - cbn [split_spaces]. destruct (is_js_whitespace c).
    + rewrite IH. destruct sep as [sp|]; [|reflexivity].
      now rewrite <- !app_assoc.
    + destruct sep as [sp|].
      * cbn [concat]. rewrite IH. reflexivity.
      * rewrite IH. cbn [app]. now rewrite <- app_assoc.
Qed.

Lemma slice_split (k : Z) (r : jsstring) :
  slice 0 k r ++ slice k (Z.of_nat (List.length r)) r = r.
Proof.
  unfold slice.
  set (len := Z.of_nat (List.length r)).
  assert (Hlen : 0 <= len) by (unfold len; lia).
  set (t := if k <? 0 then Z.max (len + k) 0 else Z.min k len).
  assert (Ht : 0 <= t <= len).
  { unfold t. destruct (k <? 0) eqn:E; [lia|].
    apply Z.ltb_ge in E. lia. }
  replace (if 0 <? 0 then Z.max (len + 0) 0 else Z.min 0 len) with 0
    by (cbn; lia).
  replace (if len <? 0 then Z.max (len + len) 0 else Z.min len len) with len
    by (destruct (len <? 0) eqn:E; [apply Z.ltb_lt in E|]; lia).
  rewrite Z.sub_0_r. cbn [Z.to_nat skipn].
  rewrite (firstn_all2 (n := Z.to_nat (len - t))).
  - apply firstn_skipn.
  - rewrite length_skipn. unfold len. lia.
Qed.

Lemma injected_code_unit (c : code_unit) :
  existsb (Z.eqb c) [0x200B; 0x200C; 0xFEFF; 0x2061; 0x2062; 0x2063; 0x2064]
  = true ->
  injected [c].
Proof.
  intros H. exists c. split; [reflexivity|].
  cbn [existsb] in H. rewrite !orb_true_iff in H.
  repeat destruct H as [H | H]; try discriminate;
    apply Z.eqb_eq in H; subst c; vm_compute; reflexivity.
Qed.

Lemma inject_chars_injected (types : Inject.types) :
  Forall injected (inject_chars types).
Proof.
  unfold inject_chars.
  destruct (truthy (Inject.zwsp types)), (truthy (Inject.zwnj types)),
    (truthy (Inject.bom types)), (truthy (Inject.invisSep types));
    cbn [app]; repeat constructor; now apply injected_code_unit.
Qed.

(** *** Numbers *)

(** The literals are the Numbers nearest to 6/10 and 3/10: the distance
    is at most half a unit in the last place. *)
Lemma double_literals_nearest :
  is_double double_0_6 /\ is_double double_0_3
  /\ 2 ^ 52 <= mant double_0_6 /\ 2 ^ 52 <= mant double_0_3
  /\ 2 * Z.abs (6 * 2 ^ 53 - 10 * mant double_0_6) <= 10
  /\ 2 * Z.abs (3 * 2 ^ 54 - 10 * mant double_0_3) <= 10.
Proof.
  unfold is_double. cbn [mant expo double_0_6 double_0_3].
  repeat split;
    (apply Z.leb_le || apply Z.ltb_lt); vm_compute; reflexivity.
Qed.

Lemma round_to_nearest_even_spec (m : Z) :
  0 <= m ->
  forall q s, round_to_nearest_even m = (q, s) ->
  0 <= q
  /\ (s = 0 /\ q = m
      \/ 0 < s /\ 2 ^ (s - 1) * 2 ^ 53 <= m
         /\ q * 2 ^ s <= m + 2 ^ (s - 1)).
Proof.
  intros Hm q s. unfold round_to_nearest_even.
  set (t := Z.log2 m + 1 - 53).
  destruct (t <=? 0) eqn:Et.
  - intros E. injection E as <- <-. split; [exact Hm | now left].
  - apply Z.leb_gt in Et.
    assert (Hpos : 0 < m).
    { destruct (Z.eq_dec m 0) as [-> | Hne]; [|lia].
      unfold t in Et. cbn in Et. lia. }
    pose proof (Z.log2_spec m Hpos) as [Hlow _].
    assert (Hexp : 2 ^ (t - 1) * 2 ^ 53 <= m).
    { rewrite <- Z.pow_add_r by lia.
      replace (t - 1 + 53) with (Z.log2 m) by (unfold t; lia).
      exact Hlow. }
    assert (Hpow : 2 ^ t = 2 * 2 ^ (t - 1)).
    { rewrite <- (Z.pow_succ_r 2 (t - 1)) by lia. f_equal. lia. }
    assert (Hhalf : 0 < 2 ^ (t - 1)) by (apply Z.pow_pos_nonneg; lia).
    pose proof (Z.div_mod m (2 ^ t) ltac:(lia)) as Hdm.
    pose proof (Z.mod_pos_bound m (2 ^ t) ltac:(lia)) as Hrem.
    assert (Hq : 0 <= m / 2 ^ t) by (apply Z.div_pos; lia).
    destruct ((2 ^ (t - 1) <? m mod 2 ^ t)
              || ((m mod 2 ^ t =? 2 ^ (t - 1)) && Z.odd (m / 2 ^ t)))
      eqn:Eup.
    + intros E. injection E as <- <-. split; [lia|]. right.
      split; [lia|]. split; [exact Hexp|].
      assert (Hge : 2 ^ (t - 1) <= m mod 2 ^ t).
      { apply orb_true_iff in Eup. destruct Eup as [E | E].
        - apply Z.ltb_lt in E. lia.
        - apply andb_true_iff in E. destruct E as [E _].
          apply Z.eqb_eq in E. lia. }
      nia.
    + intros E. injection E as <- <-. split; [lia|]. right.
      split; [lia|]. split; [exact Hexp|]. nia.
Qed.

Lemma below_one (r : double) :
  0 <= mant r ->
  double_lt r double_1 = true ->
  mant r = 0 \/ expo r < 0 /\ mant r < 2 ^ (- expo r).
Proof.
  intros Hm. unfold double_lt. cbn [expo mant double_1]. intros H.
  apply Z.ltb_lt in H.
  destruct (Z.le_gt_cases 0 (expo r)) as [He | He].
  - rewrite Z.min_r in H by lia.
    rewrite Z.sub_0_r, Z.sub_diag, Z.pow_0_r in H.
    left. assert (0 < 2 ^ expo r) by (apply Z.pow_pos_nonneg; lia). nia.
  - rewrite Z.min_l in H by lia.
    rewrite Z.sub_diag, Z.pow_0_r, Z.sub_0_l in H.
    right. split; [exact He | lia].
Qed.

(** The rounded product of a Number below 1 and a positive length [n],
    floored, is an index below [n]: rounding to nearest cannot reach [n],
    which lies more than half a unit in the last place above the exact
    product. *)
Lemma floor_mul_bound (r : double) (n : Z) :
  0 <= mant r < 2 ^ 53 ->
  double_lt r double_1 = true ->
  0 < n ->
  0 <= Math_floor (double_mul r n) < n.
Proof.
  intros Hm Hlt Hn.
  destruct (below_one r (proj1 Hm) Hlt) as [H0 | [He Hunit]].
  - unfold double_mul. rewrite H0. cbn. unfold Math_floor. cbn [mant expo].
    destruct (0 <=? expo r + 0); cbn; lia.
  - unfold double_mul.
    destruct (round_to_nearest_even (mant r * n)) as [q s] eqn:Er.
    apply round_to_nearest_even_spec in Er; [|nia].
    destruct Er as [Hq Hr]. unfold Math_floor. cbn [mant expo].
    set (P := 2 ^ (- expo r)) in *.
    assert (HP : 0 < P) by (apply Z.pow_pos_nonneg; lia).
    destruct Hr as [[-> ->] | [Hs [Hbig Hnear]]].
    + rewrite Z.add_0_r.
      destruct (0 <=? expo r) eqn:E; [apply Z.leb_le in E; lia|].
      fold P. split; [apply Z.div_pos; nia|].
      apply Z.div_lt_upper_bound; [exact HP | nia].
    + assert (Hhalf : 0 < 2 ^ (s - 1)) by (apply Z.pow_pos_nonneg; lia).
      assert (Hn' : 2 ^ (s - 1) < n) by nia.
      assert (Hstar : q * 2 ^ s < P * n) by nia.
      destruct (0 <=? expo r + s) eqn:E.
      * apply Z.leb_le in E.
        assert (Hsplit : 2 ^ s = 2 ^ (expo r + s) * P).
        { unfold P. rewrite <- Z.pow_add_r by lia. f_equal. lia. }
        assert (0 < 2 ^ (expo r + s)) by (apply Z.pow_pos_nonneg; lia).
        split; [nia|].
        rewrite Hsplit in Hstar.
        apply (Z.mul_lt_mono_pos_r P); [exact HP | nia].
      * apply Z.leb_gt in E.
        set (D := 2 ^ (- (expo r + s))).
        assert (HD : 0 < D) by (apply Z.pow_pos_nonneg; lia).
        assert (Hsplit : P = D * 2 ^ s).
        { unfold P, D. rewrite <- Z.pow_add_r by lia. f_equal. lia. }
        split; [apply Z.div_pos; lia|].
        apply Z.div_lt_upper_bound; [exact HD|].
        rewrite Hsplit in Hstar.
        assert (0 < 2 ^ s) by (apply Z.pow_pos_nonneg; lia).
        apply (Z.mul_lt_mono_pos_r (2 ^ s)); [lia | nia].
Qed.

(** The product is rounded as a product of Numbers is: at the draw
    0x1.2492492492492p-1 (0.5714285714285714) seven characters give the
    product 4, and the fifth character is picked, where the exact product
    lies below 4. A draw equal to the Number 0.6 is not below it. *)
Lemma pick_rounds_to_nearest :
  pick [[0x200B]; [0x200C]; [0xFEFF]; [0x2061]; [0x2062]; [0x2063]; [0x2064]]
    {| mant := 2573485501354569; expo := -52 |}
  = [0x2062]
  /\ 2573485501354569 * 7 < 4 * 2 ^ 52
  /\ double_lt double_0_6 double_0_6 = false.
Proof. vm_compute. repeat split. Qed.

Lemma pick_injected (chars : list jsstring) (r : double) :
  chars <> [] ->
  Forall injected chars ->
  is_double r -> double_lt r double_1 = true ->
  injected (pick chars r).
Proof.
  intros Hne Hall [Hm _] H1. unfold pick.
  set (n := Z.of_nat (List.length chars)).
  assert (Hn : 0 < n).
  { unfold n. destruct chars; [congruence|]. cbn [List.length]. lia. }
  pose proof (floor_mul_bound r n Hm H1 Hn) as [Hk0 Hk1].
  destruct (Math_floor (double_mul r n) <? 0) eqn:E;
    [apply Z.ltb_lt in E; lia|].
  rewrite Forall_forall in Hall. apply Hall.
  apply nth_In. unfold n in *. lia.
Qed.

Lemma inject_loop_cons (Math_random : nat -> double) (chars : list jsstring)
    (w : jsstring) (rest : list jsstring) (result : jsstring)
    (count calls : nat) :
  inject_loop Math_random chars (w :: rest) result count calls
  = let '(r1, c1, k1) :=
      between_words Math_random chars rest (result ++ w) count calls in
    let '(r2, c2, k2) := within_word Math_random chars w r1 c1 k1 in
    inject_loop Math_random chars rest r2 c2 k2.
Proof. reflexivity. Qed.

Lemma inject_unfold (Math_random : nat -> double) (text : jsstring)
    (types : Inject.types) :
  inject Math_random text types
  = match inject_chars types with
    | [] => {| Inject.text := text; Inject.count := 0 |}
    | _ => inject_loop Math_random (inject_chars types)
             (split_spaces [] None text) [] 0 0
    end.
Proof. reflexivity. Qed.

Section InjectProperties.

Variable Math_random : nat -> double.
Hypothesis Math_random_unit : unit_interval Math_random.

Variable chars : list jsstring.
Hypothesis chars_nonempty : chars <> [].
Hypothesis chars_injected : Forall injected chars.

Let kept (s : jsstring) : jsstring :=
  filter (fun c => negb (in_INVISIBLE_REGEX c)) s.

Lemma kept_insert (a b char : jsstring) :
  injected char ->
  kept (a ++ char ++ b) = kept (a ++ b)
  /\ List.length (a ++ char ++ b) = S (List.length (a ++ b)).
Proof.
  intros H. destruct H as [c [-> Hc]].
  unfold kept. rewrite !filter_app, !length_app. cbn [filter List.length].
  rewrite Hc. cbn [negb app]. split; [reflexivity | lia].
Qed.

Lemma between_words_inserts (rest : list jsstring) (result : jsstring)
    (count calls : nat) (r1 : jsstring) (c1 k1 : nat) :
  between_words Math_random chars rest result count calls = (r1, c1, k1) ->
  kept r1 = kept result
  /\ (List.length r1 + count = List.length result + c1)%nat.
Proof.
  unfold between_words. destruct rest as [|w' rest].
  - intros E. injection E as <- <- <-. now split.
  - destruct (double_lt (Math_random calls) double_0_6).
    + intros E. injection E as <- <- <-.
      destruct (kept_insert result [] (pick chars (Math_random (S calls))))
        as [Hk Hl].
      { apply pick_injected; try assumption; apply Math_random_unit. }
      rewrite !app_nil_r in Hk, Hl. split; [exact Hk | lia].
    + intros E. injection E as <- <- <-. now split.
Qed.

Lemma within_word_inserts (w result : jsstring) (count calls : nat)
    (r2 : jsstring) (c2 k2 : nat) :
  within_word Math_random chars w result count calls = (r2, c2, k2) ->
  kept r2 = kept result
  /\ (List.length r2 + count = List.length result + c2)%nat.
Proof.
  unfold within_word. destruct (4 <? List.length w)%nat.
  - destruct (double_lt (Math_random calls) double_0_3).
    + intros E. injection E as <- <- <-.
      match goal with
      | |- context [slice 0 ?k result ++ ?char ++ slice ?k ?len result] =>
          destruct (kept_insert (slice 0 k result) (slice k len result) char)
            as [Hk Hl];
          [apply pick_injected; try assumption; apply Math_random_unit|];
          rewrite (slice_split k result) in Hk, Hl
      end.
      split; [exact Hk | lia].
    + intros E. injection E as <- <- <-. now split.
  - intros E. injection E as <- <- <-. now split.
Qed.

Lemma inject_loop_inserts (words : list jsstring) :
  forall result count calls,
    let r := inject_loop Math_random chars words result count calls in
    kept (Inject.text r) = kept (result ++ concat words)
    /\ (List.length (Inject.text r) + count
        = List.length (result ++ concat words) + Inject.count r)%nat.
Proof.
  induction words as [|w rest IH]; intros result count calls.
  - cbn. rewrite app_nil_r. now split.
  - cbv zeta. rewrite inject_loop_cons.
    destruct (between_words Math_random chars rest (result ++ w) count calls)
      as [[r1 c1] k1] eqn:E1.
    destruct (within_word Math_random chars w r1 c1 k1)
      as [[r2 c2] k2] eqn:E2.
    apply between_words_inserts in E1. destruct E1 as [Hk1 Hl1].
    apply within_word_inserts in E2. destruct E2 as [Hk2 Hl2].
    specialize (IH r2 c2 k2). cbv zeta in IH. destruct IH as [Hk Hl].
    cbn [concat]. rewrite app_assoc. split.
    + rewrite Hk. unfold kept in *.
      rewrite (filter_app _ r2), Hk2, Hk1, <- filter_app. reflexivity.
    + rewrite !length_app in *. lia.
Qed.

End InjectProperties.

Lemma inject_inserts (Math_random : nat -> double) (text : jsstring)
    (types : Inject.types) :
  unit_interval Math_random ->
  filter (fun c => negb (in_INVISIBLE_REGEX c))
    (Inject.text (inject Math_random text types))
  = filter (fun c => negb (in_INVISIBLE_REGEX c)) text
  /\ List.length (Inject.text (inject Math_random text types))
     = (List.length text + Inject.count (inject Math_random text types))%nat.
Proof.
  intros Hrnd. rewrite inject_unfold.
  pose proof (inject_chars_injected types) as Hall.
  destruct (inject_chars types) as [|x chars] eqn:Hchars.
  - cbn. split; [reflexivity | lia].
  - pose proof (inject_loop_inserts Math_random Hrnd (x :: chars)
                  ltac:(discriminate) Hall (split_spaces [] None text) [] 0%nat
                  0%nat) as H.
    cbv zeta in H. rewrite split_spaces_join in H. cbn [app] in H.
    destruct H as [Hk Hl]. split; [exact Hk | lia].
Qed.

(** X18. When [Math.random] keeps to the unit interval, [inject] only
    inserts characters the invisible-character pass removes: stripping the
    injected text gives the stripped original, and the text grows by
    exactly the reported count. *)
Theorem inject_only_inserts_strippable (Math_random : nat -> double)
    (text : jsstring) (types : Inject.types) :
  unit_interval Math_random ->
  remove_all INVISIBLE_REGEX (Inject.text (inject Math_random text types))
  = remove_all INVISIBLE_REGEX text
  /\ List.length (Inject.text (inject Math_random text types))
     = (List.length text + Inject.count (inject Math_random text types))%nat.
Proof.
  intros Hrnd. unfold INVISIBLE_REGEX. rewrite !remove_all_class.
  now apply inject_inserts.
Qed.

Lemma inject_only_inserts_strippable_witness :
  remove_all INVISIBLE_REGEX
    (Inject.text
       (inject (fun _ => {| mant := 1; expo := -2 |}) (lit "hello brave world")
          {| Inject.zwsp := Some true; Inject.zwnj := None;
             Inject.bom := None; Inject.invisSep := Some true |}))
  = remove_all INVISIBLE_REGEX (lit "hello brave world")
  /\ List.length
       (Inject.text
          (inject (fun _ => {| mant := 1; expo := -2 |}) (lit "hello brave world")
             {| Inject.zwsp := Some true; Inject.zwnj := None;
                Inject.bom := None; Inject.invisSep := Some true |}))
     = Nat.add (List.length (lit "hello brave world"))
         (Inject.count
            (inject (fun _ => {| mant := 1; expo := -2 |}) (lit "hello brave world")
               {| Inject.zwsp := Some true; Inject.zwnj := None;
                  Inject.bom := None; Inject.invisSep := Some true |})).
Proof.
  apply inject_only_inserts_strippable.
  intros k. split; [unfold is_double; cbn; lia | reflexivity].
Defined.

(** X19. When [Math.random] keeps to the unit interval, [detect] finds
    every injected character: its total on the injected text is its total
    on the original plus the count [inject] reports, with or without
    [includeFormatting]. *)
Theorem inject_raises_detect_total (Math_random : nat -> double)
    (text : jsstring) (types : Inject.types) (options : Detect.options) :
  unit_interval Math_random ->
  exists before after,
    detect text options = Normal before
    /\ detect (Inject.text (inject Math_random text types)) options
       = Normal after
    /\ Detect.total after
       = (Detect.total before
          + Inject.count (inject Math_random text types))%nat.
Proof.
  intros Hrnd.
  destruct (inject_inserts Math_random text types Hrnd) as [Hk Hl].
  set (injected := Inject.text (inject Math_random text types)) in *.
  destruct (detect_inventory text options) as [r0 [Hr0 [Ht0 _]]].
  destruct (detect_inventory injected options) as [r1 [Hr1 [Ht1 _]]].
  exists r0, r1. split; [exact Hr0|]. split; [exact Hr1|].
  rewrite Ht0, Ht1.
  assert (Hstrip : forall s,
             List.length (filter (counted false) s)
             = (List.length s
                - List.length
                    (filter (fun c => negb (in_INVISIBLE_REGEX c)) s))%nat).
  { intros s. rewrite (filter_ext _ _ counted_strippable).
    pose proof (filter_partition_length in_INVISIBLE_REGEX s). lia. }
  assert (Hle : forall s : jsstring,
             (List.length (filter (fun c => negb (in_INVISIBLE_REGEX c)) s)
              <= List.length s)%nat)
    by (intros s; apply filter_length_le).
  assert (Hfalse : List.length (filter (counted false) injected)
                   = (List.length (filter (counted false) text)
                      + Inject.count (inject Math_random text types))%nat).
  { rewrite !Hstrip, Hk, Hl. pose proof (Hle text). lia. }
  destruct (truthy (Detect.includeFormatting options)); [|exact Hfalse].
  assert (Hfmt : forall s,
             filter is_formatting_char s
             = filter is_formatting_char
                 (filter (fun c => negb (in_INVISIBLE_REGEX c)) s)).
  { intros s. induction s as [|c s IH]; [reflexivity|].
    cbn [filter].
    destruct (counted_with_formatting c) as [_ Hd].
    rewrite counted_strippable in Hd.
    destruct (in_INVISIBLE_REGEX c), (is_formatting_char c) eqn:Ef;
      cbn [negb filter]; rewrite ?Ef; try discriminate; now rewrite IH. }
  assert (Htrue : forall s,
             List.length (filter (counted true) s)
             = (List.length (filter (counted false) s)
                + List.length (filter is_formatting_char s))%nat).
  { intros s.
    rewrite (filter_ext (counted true)
               (fun c => counted false c || is_formatting_char c))
      by (intros c; apply counted_with_formatting).
    apply filter_disjoint_or_length.
    intros c. apply counted_with_formatting. }
  rewrite !Htrue, Hfalse, (Hfmt injected), Hk, <- (Hfmt text). lia.
Qed.

Lemma inject_raises_detect_total_witness :
  exists before after,
    detect (lit "hello brave world") {| Detect.includeFormatting := None |}
    = Normal before
    /\ detect
         (Inject.text
            (inject (fun _ => {| mant := 1; expo := -2 |}) (lit "hello brave world")
               {| Inject.zwsp := None; Inject.zwnj := Some true;
                  Inject.bom := Some true; Inject.invisSep := None |}))
         {| Detect.includeFormatting := None |}
       = Normal after
    /\ Detect.total after
       = Nat.add (Detect.total before)
           (Inject.count
              (inject (fun _ => {| mant := 1; expo := -2 |}) (lit "hello brave world")
                 {| Inject.zwsp := None; Inject.zwnj := Some true;
                    Inject.bom := Some true; Inject.invisSep := None |})).
Proof.
  apply inject_raises_detect_total.
  intros k. split; [unfold is_double; cbn; lia | reflexivity].
Defined.

(** X20. [clean] undoes [inject]: when [Math.random] keeps to the unit
    interval and [stripHTML] is off, cleaning the injected text gives
    exactly what cleaning the original gives, whatever the normalizer and
    the other options. *)
Theorem clean_undoes_inject (normalize_NFC : jsstring -> jsstring)
    (Math_random : nat -> double) (text : jsstring) (types : Inject.types)
    (options : clean_options) :
  unit_interval Math_random ->
  truthy (stripHTML options) = false ->
  clean normalize_NFC (Inject.text (inject Math_random text types)) options
  = clean normalize_NFC text options.
Proof.
  intros Hrnd Hhtml.
  destruct (inject_inserts Math_random text types Hrnd) as [Hk _].
  unfold clean, clean_strip. rewrite Hhtml.
  unfold INVISIBLE_REGEX. rewrite !remove_all_class, Hk. reflexivity.
Qed.

Lemma clean_undoes_inject_witness :
  clean (fun s => s)
    (Inject.text
       (inject (fun _ => {| mant := 1; expo := -2 |}) (lit "hello brave world")
          {| Inject.zwsp := Some true; Inject.zwnj := None;
             Inject.bom := None; Inject.invisSep := None |}))
    default_options
  = clean (fun s => s) (lit "hello brave world") default_options.
Proof.
  apply clean_undoes_inject; [|reflexivity].
  intros k. split; [unfold is_double; cbn; lia | reflexivity].
Defined.

(** ** detectWhitespaceAnomalies: the report as a whole *)

Lemma String_match_nonempty (m : ctx_matcher) (text : jsstring)
    (matches : list jsstring) :
  String_match m text = Some matches -> (1 <= List.length matches)%nat.
Proof.
  unfold String_match.
  destruct (match_from m None 0 text) as [|x xs]; [discriminate|].
  intros H. injection H as <-. cbn [List.length]. lia.
Qed.

Lemma special_space_issues_positive (text : jsstring)
    (entries : list (code_unit * char_info)) (i : Whitespace.issue) :
  In i (special_space_issues text entries) ->
  (1 <= Whitespace.count i)%nat.
Proof.
  unfold special_space_issues. intros H. apply in_flat_map in H.
  destruct H as [kv [_ H]].
  destruct (0 <? occurrences (fst kv) text)%nat eqn:E; [|contradiction].
  destruct H as [<- | []]. cbn [Whitespace.count].
  apply Nat.ltb_lt in E. lia.
Qed.

(** X21. The report of [detectWhitespaceAnomalies] is consistent: its
    total is the sum of the counts of its issues, and no issue it lists
    has a count of zero. *)
Theorem whitespace_report_consistent (text : jsstring) :
  Whitespace.total (detectWhitespaceAnomalies text)
  = list_sum (map Whitespace.count
                (Whitespace.issues (detectWhitespaceAnomalies text)))
  /\ forall i,
       In i (Whitespace.issues (detectWhitespaceAnomalies text)) ->
       (1 <= Whitespace.count i)%nat.
Proof.
  unfold detectWhitespaceAnomalies.
  destruct (String_match (no_context TRAILING_REGEX) text) as [tm|] eqn:Et;
    destruct (String_match DOUBLE_SPACE_REGEX text) as [dm|] eqn:Ed;
    destruct (includes [0x0D; 0x0A] text
              && RegExp_test BARE_LF_REGEX text);
    cbv zeta; rewrite special_spaces_exact;
    cbn [Whitespace.issues Whitespace.total app];
    (split;
     [ cbn [map list_sum fold_right Whitespace.count];
       change (fold_right Nat.add O) with list_sum; lia
     | intros i Hin; cbn [In] in Hin;
       repeat (destruct Hin as [<- | Hin]; cbn [Whitespace.count];
               [first [ exact (String_match_nonempty _ _ _ Et)
                      | exact (String_match_nonempty _ _ _ Ed)
                      | lia ] | ]);
       exact (special_space_issues_positive _ _ _ Hin) ]).
Qed.

(** ** clean: the options that matter *)

Lemma never_matches_head (m : matcher) (q : code_unit -> bool)
    (s : jsstring) :
  (forall c t, q c = true -> m (c :: t) = None) ->
  forallb q s = true -> never_matches m s.
Proof.
  intros Hq. induction s as [|c s IH]; intros Hs; [exact I|].
  cbn [forallb] in Hs. apply andb_true_iff in Hs. destruct Hs as [Hc Hs].
  split; [left; now apply Hq | now apply IH].
Qed.

Lemma entity_needs_ampersand (rest : jsstring) (c : code_unit)
    (t : jsstring) :
  no_markup c = true -> literal true (0x26 :: rest) (c :: t) = None.
Proof.
  unfold no_markup, literal. intros H. apply andb_true_iff in H.
  destruct H as [_ H]. apply negb_true_iff, Z.eqb_neq in H.
  cbn [starts_with].
  assert (E : (upper 0x26 =? upper c) = false).
  { apply Z.eqb_neq. change (upper 0x26) with 0x26.
    unfold upper, in_range.
    destruct ((0x61 <=? c) && (c <=? 0x7A)) eqn:Er; [|congruence].
    apply andb_true_iff in Er. lia. }
  now rewrite E.
Qed.

Lemma tag_needs_bracket (c : code_unit) (t : jsstring) :
  no_markup c = true -> TAG_REGEX (c :: t) = None.
Proof.
  unfold no_markup. intros H. apply andb_true_iff in H.
  destruct H as [H _]. apply TAG_REGEX_not_lt. exact H.
Qed.

Lemma strip_html_plain (text : jsstring) :
  forallb no_markup text = true -> strip_html text = text.
Proof.
  intros H. unfold strip_html.
  rewrite (remove_all_never TAG_REGEX text)
    by (apply (never_matches_head _ no_markup);
        [exact tag_needs_bracket | exact H]).
  repeat (rewrite (replace_all_never _ _ text);
          [| apply (never_matches_head _ no_markup);
             [exact (entity_needs_ampersand _) | exact H]]).
  reflexivity.
Qed.

(** X22. On a text with no opening angle bracket and no ampersand, the
    result of [clean] depends on its options only through [normalize] and
    [fixHomoglyphs]: [stripHTML] changes nothing there, and [stripSpaces]
    is never read. *)
Theorem clean_options_that_matter (normalize_NFC : jsstring -> jsstring)
    (text : jsstring) (options options' : clean_options) :
  forallb no_markup text = true ->
  not_false (normalize options) = not_false (normalize options') ->
  truthy (fixHomoglyphs options) = truthy (fixHomoglyphs options') ->
  clean normalize_NFC text options = clean normalize_NFC text options'.
Proof.
  intros Hplain Hn Hf. unfold clean, clean_strip, clean_finish.
  rewrite Hn, Hf.
  destruct (truthy (stripHTML options)), (truthy (stripHTML options'));
    rewrite ?(strip_html_plain text Hplain); reflexivity.
Qed.

Lemma clean_options_that_matter_witness :
  clean (fun s => s) (lit "a  b" ++ [0x200B; 0x0430])
    {| normalize := None; fixHomoglyphs := Some true;
       stripSpaces := Some true; stripHTML := Some true |}
  = clean (fun s => s) (lit "a  b" ++ [0x200B; 0x0430])
      {| normalize := Some true; fixHomoglyphs := Some true;
         stripSpaces := None; stripHTML := None |}.
Proof.
  apply clean_options_that_matter; reflexivity.
Defined.
